(** * Race strategy: timing reconciliation, pace analysis, replay, live channel, tokens

    A shallow embedding of the TypeScript sources of the race-strategy
    dashboard, and the properties its specification states about them.

    - [Js]       the JavaScript values and built-ins the sources rely on
                 (numbers with NaN and the infinities, truthiness, [||],
                 [??], [parseInt], [String.prototype.split], [Array.prototype.sort]);
    - [Unified]  lib/unified-data.ts: [mergeCompetitorData], [calculateTruePace];
    - [Replay]   components/RaceReplay.tsx: [parseLapTimeToMs], [updatePositionsAtLap];
    - [SignalR]  the SignalR client of lib/ ([class RedMistSignalRClient]):
                 the subscriptions, [resubscribe], [decompressMessage];
    - [Auth]     lib/auth.ts: [class TokenManager];
    - [JsText]   numbers as text ([toString], [padStart]) and [trim];
    - [ReplayControls]  components/RaceReplay.tsx: [formatMsToTime], [maxLap],
                 [goToLap] and the other playback controls;
    - [UnifiedData], [FlagAnalysis], [TransponderStore], [Converters]
                 lib/unified-data.ts: [parseTimeToMs], [formatMsToTime],
                 [analyzeLapsByFlag], [class TransponderStore],
                 [importRaceData], [redmistToUnified];
    - [RaceMonitorStore]  the Race-Monitor store of store/: [mergeWithRedMist];
    - [RaceMonitor]  lib/racemonitor.ts: [parseRMTime], [formatRMTime],
                 [parseLine];
    - [ControlLog]  the control log component: the order of the entries;
    - [Lifecycle]  the SignalR client again: [connect], the states the client
                 can reach through its methods and the transport's events;
    - [AutoRefresh]  lib/auth.ts: the tick of [startAutoRefresh].

    Finite JavaScript numbers are modelled by integers wherever the sources
    compute with lap counts, positions and milliseconds, and by exact
    rationals for the averages of the pace analysis, in both cases next to
    NaN and the infinities; rounding of IEEE doubles is outside the model. *)

From Stdlib Require Import ZArith NArith List String Ascii Bool Lia QArith Permutation Sorted.
Import ListNotations.
Local Open Scope Z_scope.

(* ===================================================================== *)
(** * JavaScript values *)
(* ===================================================================== *)

Module Js.

(** A JavaScript number: an integer-valued finite number, an infinity or NaN. *)
Inductive num : Type :=
| Int (z : Z)
| PosInf
| NegInf
| NaN.

Definition Infinity : num := PosInf.

(** ToBoolean on numbers: [0] and [NaN] are falsy. *)
Definition truthy_num (x : num) : bool :=
  match x with
  | Int z => negb (z =? 0)
  | PosInf | NegInf => true
  | NaN => false
  end.

(** ToBoolean on strings: only the empty string is falsy. *)
Definition truthy_str (s : string) : bool :=
  match s with
  | EmptyString => false
  | String _ _ => true
  end.

(** ToBoolean on an optional value ([undefined] and [null] are falsy). *)
Definition truthy_opt {A : Type} (truthy : A -> bool) (x : option A) : bool :=
  match x with
  | Some a => truthy a
  | None => false
  end.

(** [x || y]. *)
Definition or_else {A : Type} (truthy : A -> bool) (x y : A) : A :=
  if truthy x then x else y.

(** [x ?? y] on an optional left operand and a definite right operand. *)
Definition nullish {A : Type} (x : option A) (y : A) : A :=
  match x with
  | Some a => a
  | None => y
  end.

(** [x ?? y] when the right operand may be [undefined] too. *)
Definition nullish_opt {A : Type} (x y : option A) : option A :=
  match x with
  | Some a => Some a
  | None => y
  end.

(** [x < y]: false as soon as one side is NaN. *)
Definition lt (x y : num) : bool :=
  match x, y with
  | NaN, _ | _, NaN => false
  | Int a, Int b => a <? b
  | NegInf, NegInf => false
  | NegInf, _ => true
  | _, NegInf => false
  | PosInf, _ => false
  | Int _, PosInf => true
  end.

(** [x === y] on numbers: NaN is different from itself. *)
Definition strict_eq (x y : num) : bool :=
  match x, y with
  | Int a, Int b => a =? b
  | PosInf, PosInf => true
  | NegInf, NegInf => true
  | _, _ => false
  end.

(** [x !== y]. *)
Definition strict_ne (x y : num) : bool := negb (strict_eq x y).

(** [Math.max(x, y)]: NaN as soon as one argument is NaN. *)
Definition Math_max (x y : num) : num :=
  match x, y with
  | NaN, _ | _, NaN => NaN
  | PosInf, _ | _, PosInf => PosInf
  | NegInf, b => b
  | a, NegInf => a
  | Int a, Int b => Int (Z.max a b)
  end.

(** [Math.min(x, y)]. *)
Definition Math_min (x y : num) : num :=
  match x, y with
  | NaN, _ | _, NaN => NaN
  | NegInf, _ | _, NegInf => NegInf
  | PosInf, b => b
  | a, PosInf => a
  | Int a, Int b => Int (Z.min a b)
  end.

(** [x + y]. *)
Definition add (x y : num) : num :=
  match x, y with
  | NaN, _ | _, NaN => NaN
  | Int a, Int b => Int (a + b)
  | PosInf, NegInf | NegInf, PosInf => NaN
  | PosInf, _ | _, PosInf => PosInf
  | NegInf, _ | _, NegInf => NegInf
  end.

(** [-x]. *)
Definition neg (x : num) : num :=
  match x with
  | Int a => Int (- a)
  | PosInf => NegInf
  | NegInf => PosInf
  | NaN => NaN
  end.

(** [x - y]. *)
Definition sub (x y : num) : num := add x (neg y).

(** [x * k] for a finite literal [k]. *)
Definition scale (x : num) (k : Z) : num :=
  match x with
  | Int a => Int (a * k)
  | NaN => NaN
  | PosInf => if k =? 0 then NaN else if 0 <? k then PosInf else NegInf
  | NegInf => if k =? 0 then NaN else if 0 <? k then NegInf else PosInf
  end.

(** The sign a comparator's result has for [Array.prototype.sort]: the result
    is converted with ToNumber and NaN counts as [+0]. *)
Definition sign (x : num) : comparison :=
  match x with
  | Int z => z ?= 0
  | PosInf => Gt
  | NegInf => Lt
  | NaN => Eq
  end.

(** ** Strings *)

(** [s.split(sep)] for a one-character separator. *)
Fixpoint split (sep : ascii) (s : string) : list string :=
  match s with
  | EmptyString => [EmptyString]
  | String c r =>
    if Ascii.eqb c sep then EmptyString :: split sep r
    else match split sep r with
         | hd :: tl => String c hd :: tl
         | [] => [String c EmptyString]
         end
  end.

(** [s.slice(0, n)]. *)
Definition slice0 (n : nat) (s : string) : string := substring 0 n s.

(** [s.startsWith(prefix)]. *)
Definition startsWith (prefix s : string) : bool := String.prefix prefix s.

(** [x || d] for an optional string [x] and a string literal [d]. *)
Definition or_str (x : option string) (d : string) : string :=
  match x with
  | Some s => if truthy_str s then s else d
  | None => d
  end.

(** White space that [parseInt] skips (the ASCII part of StrWhiteSpaceChar). *)
Definition is_white_space (c : ascii) : bool :=
  let n := nat_of_ascii c in
  ((9 <=? n) && (n <=? 13) || (n =? 32))%nat.

Fixpoint skip_white_space (s : string) : string :=
  match s with
  | EmptyString => EmptyString
  | String c r => if is_white_space c then skip_white_space r else s
  end.

(** The value of [c] as a digit of the given radix, if it is one. *)
Definition digit_of (radix : Z) (c : ascii) : option Z :=
  let n := Z.of_nat (nat_of_ascii c) in
  let d :=
    if (48 <=? n) && (n <=? 57) then Some (n - 48)
    else if (97 <=? n) && (n <=? 122) then Some (n - 87)
    else if (65 <=? n) && (n <=? 90) then Some (n - 55)
    else None in
  match d with
  | Some v => if v <? radix then Some v else None
  | None => None
  end.

(** The value of the longest prefix of [s] made of digits; [acc] is [None]
    until a digit has been read. *)
Fixpoint parse_digits (radix : Z) (s : string) (acc : option Z) : option Z :=
  match s with
  | EmptyString => acc
  | String c r =>
    match digit_of radix c with
    | Some d => parse_digits radix r (Some (nullish acc 0 * radix + d))
    | None => acc
    end
  end.

(** [parseInt(s)] with no radix argument. *)
Definition parseInt (s : string) : num :=
  let s := skip_white_space s in
  let '(sgn, s) :=
    match s with
    | String "-"%char r => (-1, r)
    | String "+"%char r => (1, r)
    | _ => (1, s)
    end in
  let '(radix, s) :=
    match s with
    | String "0"%char (String "x"%char r) => (16, r)
    | String "0"%char (String "X"%char r) => (16, r)
    | _ => (10, s)
    end in
  match parse_digits radix s None with
  | Some v => Int (sgn * v)
  | None => NaN
  end.

(** ** [Array.prototype.sort]

    The language fixes the result of [sort] for a comparator that is
    consistent on the elements of the array: the elements in the sort order,
    those that compare equal in the order they had.  For another comparator
    it leaves the order to the implementation.  The model is the stable
    insertion sort: each element in turn moves left past the elements that
    compare greater than it.  For a consistent comparator it returns the
    order the language fixes, which is one arrangement only
    ([sort_stable_sorted], [stable_sorted_unique]); for another comparator it
    returns one arrangement of the elements, and an engine may return
    another. *)

Section Sort.
Context {A : Type} (compareFn : A -> A -> num).

(** Insert [x] into the part already sorted, given last element first. *)
Fixpoint insert_from_right (x : A) (rev_sorted : list A) : list A :=
  match rev_sorted with
  | [] => [x]
  | y :: r =>
    match sign (compareFn y x) with
    | Gt => y :: insert_from_right x r
    | _ => x :: rev_sorted
    end
  end.

Definition sort (l : list A) : list A :=
  rev (fold_left (fun rev_sorted x => insert_from_right x rev_sorted) l []).

End Sort.

End Js.

(* ===================================================================== *)
(** * lib/unified-data.ts: the unified data layer *)
(* ===================================================================== *)

Module Unified.
Import Js.

(** [UnifiedLapData.flagStatus]. *)
Inductive FlagStatus : Type := green | yellow | red | checkered | unknown.

Definition FlagStatus_eqb (x y : FlagStatus) : bool :=
  match x, y with
  | green, green | yellow, yellow | red, red
  | checkered, checkered | unknown, unknown => true
  | _, _ => false
  end.

(** [UnifiedLapData.source]. *)
Inductive LapSource : Type := src_redmist | src_racemonitor | src_merged.

(** [interface UnifiedLapData].  A lap number and a position are whole
    numbers (the converter writes [parseInt(...) || 0]); a time is what
    [parseRMTime] returns, a number of milliseconds or NaN. *)
Record UnifiedLapData : Type := mkLap {
  lap_transponder : string;
  lap_carNumber : string;
  lapNumber : Z;
  lapTime : num;
  lap_position : Z;
  lap_flagStatus : FlagStatus;
  lap_totalTime : num;
  lap_source : LapSource
}.

(** [UnifiedCompetitor.sources]. *)
Record Sources : Type := mkSources {
  src_is_redmist : option bool;
  src_is_racemonitor : option bool
}.

(** [interface UnifiedCompetitor]; a field declared with [?] is an [option]. *)
Record UnifiedCompetitor : Type := mkCompetitor {
  transponder : string;
  carNumber : string;
  driverName : string;
  teamName : option string;
  className : option string;
  position : num;
  classPosition : option num;
  laps : num;
  lastLapTime : num;
  bestLapTime : num;
  totalTime : num;
  pitCount : option num;
  inPit : option bool;
  flagStatus : option string;
  lapHistory : option (list UnifiedLapData);
  sources : Sources
}.

(** [mergeCompetitorData(redmist, raceMonitor)]. *)
Definition mergeCompetitorData (redmist raceMonitor : option UnifiedCompetitor)
  : option UnifiedCompetitor :=
  match redmist, raceMonitor with
  | None, None => None
  | None, Some _ => raceMonitor
  | Some _, None => redmist
  | Some redmist, Some raceMonitor =>
    Some {|
      transponder := or_else truthy_str (transponder redmist) (transponder raceMonitor);
      carNumber := or_else truthy_str (carNumber redmist) (carNumber raceMonitor);
      driverName := or_else truthy_str (driverName redmist) (driverName raceMonitor);
      teamName := or_else (truthy_opt truthy_str) (teamName redmist) (teamName raceMonitor);
      className := or_else (truthy_opt truthy_str) (className redmist) (className raceMonitor);
      position := or_else truthy_num (position redmist) (position raceMonitor);
      classPosition := classPosition redmist;
      laps := Math_max (laps redmist) (laps raceMonitor);
      lastLapTime := or_else truthy_num (lastLapTime redmist) (lastLapTime raceMonitor);
      bestLapTime :=
        or_else truthy_num
          (Math_min (or_else truthy_num (bestLapTime redmist) Infinity)
                    (or_else truthy_num (bestLapTime raceMonitor) Infinity))
          (Int 0);
      totalTime := or_else truthy_num (totalTime raceMonitor) (totalTime redmist);
      pitCount := pitCount redmist;
      inPit := inPit redmist;
      flagStatus := flagStatus redmist;
      lapHistory := lapHistory raceMonitor;
      sources := {| src_is_redmist := Some true; src_is_racemonitor := Some true |}
    |}
  end.

(** The merge of two records that are both present. *)
Definition merge (a b : UnifiedCompetitor) : UnifiedCompetitor :=
  match mergeCompetitorData (Some a) (Some b) with
  | Some c => c
  | None => a
  end.

(** ** The flag-aware pace analysis *)

(** A JavaScript number that need not be whole: the sums and quotients of the
    pace analysis, over exact rationals. *)
Inductive number : Type :=
| Finite (q : Q)
| PlusInfinity
| MinusInfinity
| NotANumber.

(** A lap time as such a number. *)
Definition of_num (x : num) : number :=
  match x with
  | Int z => Finite (inject_Z z)
  | PosInf => PlusInfinity
  | NegInf => MinusInfinity
  | NaN => NotANumber
  end.

(** [x + y]. *)
Definition plus (x y : number) : number :=
  match x, y with
  | NotANumber, _ | _, NotANumber => NotANumber
  | Finite a, Finite b => Finite (a + b)
  | PlusInfinity, MinusInfinity | MinusInfinity, PlusInfinity => NotANumber
  | PlusInfinity, _ | _, PlusInfinity => PlusInfinity
  | MinusInfinity, _ | _, MinusInfinity => MinusInfinity
  end.

(** [x - y]. *)
Definition minus (x y : number) : number :=
  plus x match y with
         | Finite b => Finite (- b)
         | PlusInfinity => MinusInfinity
         | MinusInfinity => PlusInfinity
         | NotANumber => NotANumber
         end.

(** [Math.pow(x, 2)]. *)
Definition squared (x : number) : number :=
  match x with
  | Finite a => Finite (a * a)
  | PlusInfinity | MinusInfinity => PlusInfinity
  | NotANumber => NotANumber
  end.

(** [x * 1.5]. *)
Definition times_1_5 (x : number) : number :=
  match x with
  | Finite a => Finite (a * (3 # 2))
  | PlusInfinity => PlusInfinity
  | MinusInfinity => MinusInfinity
  | NotANumber => NotANumber
  end.

(** [x < y]: false as soon as one side is NaN. *)
Definition less_than (x y : number) : bool :=
  match x, y with
  | NotANumber, _ | _, NotANumber => false
  | Finite a, Finite b =>
    match (a ?= b)%Q with
    | Lt => true
    | _ => false
    end
  | MinusInfinity, MinusInfinity => false
  | MinusInfinity, _ => true
  | _, MinusInfinity => false
  | PlusInfinity, _ => false
  | Finite _, PlusInfinity => true
  end.

(** [x / n] for the length [n] of an array: [0 / 0] is NaN. *)
Definition div_length (x : number) (n : nat) : number :=
  match n with
  | O =>
    match x with
    | Finite a =>
      match (a ?= 0)%Q with
      | Eq => NotANumber
      | Gt => PlusInfinity
      | Lt => MinusInfinity
      end
    | PlusInfinity => PlusInfinity
    | MinusInfinity => MinusInfinity
    | NotANumber => NotANumber
    end
  | S _ =>
    match x with
    | Finite a => Finite (a / inject_Z (Z.of_nat n))
    | PlusInfinity => PlusInfinity
    | MinusInfinity => MinusInfinity
    | NotANumber => NotANumber
    end
  end.

(** What [calculateTruePace] returns.  [variance] is the value whose
    [Math.sqrt] the source returns as [consistency]. *)
Record TruePace : Type := mkTruePace {
  truePace : number;
  variance : number;
  sampleSize : nat
}.

(** [times.reduce((a, b) => a + b, 0)]. *)
Definition sum_times (times : list num) : num :=
  fold_left (fun a b => add a b) times (Int 0).

(** [t < avg * 1.5]. *)
Definition below_outlier_threshold (avg : number) (t : num) : bool :=
  less_than (of_num t) (times_1_5 avg).

(** [lapHistory.filter(l => l.flagStatus === 'green')]. *)
Definition greenLaps (lapHistory : list UnifiedLapData) : list UnifiedLapData :=
  filter (fun l => FlagStatus_eqb (lap_flagStatus l) green) lapHistory.

(** [calculateTruePace(lapHistory, excludeOutliers)]. *)
Definition calculateTruePace (lapHistory : list UnifiedLapData) (excludeOutliers : bool)
  : TruePace :=
  let green := greenLaps lapHistory in
  match green with
  | [] => {| truePace := Finite 0; variance := Finite 0; sampleSize := 0 |}
  | _ :: _ =>
    let times := map lapTime green in
    let times :=
      if excludeOutliers && (3 <? List.length times)%nat then
        let avg := div_length (of_num (sum_times times)) (List.length times) in
        filter (below_outlier_threshold avg) times
      else times in
    let truePace := div_length (of_num (sum_times times)) (List.length times) in
    let variance :=
      div_length
        (fold_left (fun sum t => plus sum (squared (minus (of_num t) truePace)))
                   times (Finite 0))
        (List.length times) in
    {| truePace := truePace; variance := variance; sampleSize := List.length times |}
  end.

End Unified.

(* ===================================================================== *)
(** * components/RaceReplay.tsx: the replay reconstructor *)
(* ===================================================================== *)

Module Replay.
Import Js.

(** [interface CarPosition], restricted to the fields the reconstruction
    reads or writes and a few of those it only carries along ([tp], [bt],
    [dn], [ip]); the other fields of the interface are copied by the object
    spread in the same way. *)
Record CarPosition : Type := mkCarPosition {
  n : option string;      (* car number *)
  c : option string;      (* class, abbreviated *)
  l : option num;         (* laps *)
  ln : option string;     (* lap number *)
  llo : option num;       (* last lap overall position *)
  ovp : option num;       (* overall position *)
  p : option num;         (* position *)
  llp : option num;       (* last lap position *)
  ltm : option string;    (* last time *)
  tp : option Z;          (* transponder *)
  bt : option string;     (* best time *)
  dn : option string;     (* driver name *)
  ip : option bool        (* in pit *)
}.

(** [interface CarLapData]. *)
Record CarLapData : Type := mkCarLapData {
  carNumber : string;
  laps : list CarPosition;
  teamName : option string;
  className : option string
}.

(** [interface ReplayState]. *)
Record ReplayState : Type := mkReplayState {
  currentLap : Z;
  positions : list CarPosition;
  isPlaying : bool;
  playbackSpeed : Z
}.

(** [const [secs, ms] = secPart.split('.')]: the first two parts, [ms] being
    [undefined] when there is no point. *)
Definition secs_and_ms (secPart : string) : string * option string :=
  match split "."%char secPart with
  | secs :: ms :: _ => (secs, Some ms)
  | [secs] => (secs, None)
  | [] => (EmptyString, None)
  end.

(** [parseInt(ms?.slice(0, 3) || '0')]. *)
Definition parse_ms (ms : option string) : num :=
  parseInt (or_str (option_map (slice0 3) ms) "0").

(** [parseLapTimeToMs(timeStr)]. *)
Definition parseLapTimeToMs (timeStr : option string) : num :=
  if negb (truthy_opt truthy_str timeStr) then Int 0
  else
    match split ":"%char (or_str timeStr "") with
    | [mins; secPart] =>
      let '(secs, ms) := secs_and_ms secPart in
      add (add (scale (parseInt mins) 60000) (scale (parseInt secs) 1000)) (parse_ms ms)
    | [hours; mins; secPart] =>
      let '(secs, ms) := secs_and_ms secPart in
      add (add (add (scale (parseInt hours) 3600000) (scale (parseInt mins) 60000))
               (scale (parseInt secs) 1000))
          (parse_ms ms)
    | _ => Int 0
    end.

(** [l.l ?? parseInt(l.ln || '0')]: the lap number a record states. *)
Definition lapNum (r : CarPosition) : num :=
  nullish (l r) (parseInt (or_str (ln r) "0")).

(** [carData.laps.find(l => lapNum(l) === lap)]. *)
Definition find_lap (lap : Z) (history : list CarPosition) : option CarPosition :=
  find (fun r => strict_eq (lapNum r) (Int lap)) history.

(** [carData.laps[lap - 1]], [undefined] outside the array. *)
Definition at_index (history : list CarPosition) (i : Z) : option CarPosition :=
  if i <? 0 then None else nth_error history (Z.to_nat i).

(** [{ ...lapEntry, n, c, ovp: positionAtLap, p: positionAtLap }]. *)
Definition found_entry (carData : CarLapData) (lapEntry : CarPosition) : CarPosition :=
  let positionAtLap :=
    nullish_opt (nullish_opt (nullish_opt (llo lapEntry) (ovp lapEntry)) (p lapEntry))
                (llp lapEntry) in
  {| n := Some (carNumber carData);
     c := className carData;
     l := l lapEntry;
     ln := ln lapEntry;
     llo := llo lapEntry;
     ovp := positionAtLap;
     p := positionAtLap;
     llp := llp lapEntry;
     ltm := ltm lapEntry;
     tp := tp lapEntry;
     bt := bt lapEntry;
     dn := dn lapEntry;
     ip := ip lapEntry |}.

(** [lastLap.l ?? parseInt(lastLap.ln || '0') ?? carData.laps.length]: the
    last operand is never reached, [parseInt] returns a number. *)
Definition lastLapNum (carData : CarLapData) (lastLap : CarPosition) : num :=
  nullish
    (nullish_opt (l lastLap) (Some (parseInt (or_str (ln lastLap) "0"))))
    (Int (Z.of_nat (List.length (laps carData)))).

(** [{ ...lastLap, n, c, l: lastLapNum }]. *)
Definition carried_entry (carData : CarLapData) (lastLap : CarPosition) : CarPosition :=
  {| n := Some (carNumber carData);
     c := className carData;
     l := Some (lastLapNum carData lastLap);
     ln := ln lastLap;
     llo := llo lastLap;
     ovp := ovp lastLap;
     p := p lastLap;
     llp := llp lastLap;
     ltm := ltm lastLap;
     tp := tp lastLap;
     bt := bt lastLap;
     dn := dn lastLap;
     ip := ip lastLap |}.

(** One iteration of the loop over the cars: what is pushed for [carData]. *)
Definition entry_at_lap (lap : Z) (carData : CarLapData) : option CarPosition :=
  let history := laps carData in
  let len := Z.of_nat (List.length history) in
  (* First try: direct index access (lap 1 = index 0) *)
  let lapEntry := if len >=? lap then at_index history (lap - 1) else None in
  (* Second try: search by lap number fields *)
  let lapEntry :=
    match lapEntry with
    | Some e => Some e
    | None => find_lap lap history
    end in
  match lapEntry with
  | Some e => Some (found_entry carData e)
  | None =>
    if (0 <? len) && (len <? lap) then
      option_map (carried_entry carData) (at_index history (len - 1))
    else None
  end.

(** The candidates, in the order of [lapData]. *)
Fixpoint collect (lap : Z) (lapData : list CarLapData) : list CarPosition :=
  match lapData with
  | [] => []
  | carData :: rest =>
    match entry_at_lap lap carData with
    | Some e => e :: collect lap rest
    | None => collect lap rest
    end
  end.

(** [a.l ?? parseInt(a.ln || '0') ?? 0]. *)
Definition lapsCompleted (a : CarPosition) : num :=
  nullish (nullish_opt (l a) (Some (parseInt (or_str (ln a) "0")))) (Int 0).

(** [a.ovp ?? a.p ?? a.llo ?? 999]. *)
Definition recordedPosition (a : CarPosition) : num :=
  nullish (nullish_opt (nullish_opt (ovp a) (p a)) (llo a)) (Int 999).

(** The comparator given to [positionsAtLap.sort]. *)
Definition compareCars (a b : CarPosition) : num :=
  let lapsA := lapsCompleted a in
  let lapsB := lapsCompleted b in
  if strict_ne lapsA lapsB then sub lapsB lapsA
  else
    let posA := recordedPosition a in
    let posB := recordedPosition b in
    if strict_ne posA posB && strict_ne posA (Int 999) && strict_ne posB (Int 999)
    then sub posA posB
    else
      let timeA := parseLapTimeToMs (ltm a) in
      let timeB := parseLapTimeToMs (ltm b) in
      sub timeA timeB.

(** [car.p = index + 1; car.ovp = index + 1]. *)
Definition set_display_position (car : CarPosition) (index : Z) : CarPosition :=
  {| n := n car;
     c := c car;
     l := l car;
     ln := ln car;
     llo := llo car;
     ovp := Some (Int (index + 1));
     p := Some (Int (index + 1));
     llp := llp car;
     ltm := ltm car;
     tp := tp car;
     bt := bt car;
     dn := dn car;
     ip := ip car |}.

(** [positionsAtLap.forEach((car, index) => ...)], from [index] on. *)
Fixpoint assign_positions (index : Z) (cars : list CarPosition) : list CarPosition :=
  match cars with
  | [] => []
  | car :: rest => set_display_position car index :: assign_positions (index + 1) rest
  end.

(** The array [positionsAtLap] that [updatePositionsAtLap] stores. *)
Definition positionsAtLap (lap : Z) (lapData : list CarLapData) : list CarPosition :=
  assign_positions 0 (sort compareCars (collect lap lapData)).

(** [updatePositionsAtLap(lap, lapData)] as the state update it performs. *)
Definition updatePositionsAtLap (lap : Z) (lapData : list CarLapData) (prev : ReplayState)
  : ReplayState :=
  {| currentLap := lap;
     positions := positionsAtLap lap lapData;
     isPlaying := isPlaying prev;
     playbackSpeed := playbackSpeed prev |}.

End Replay.

(* ===================================================================== *)
(** * The SignalR client: the live connection manager *)
(* ===================================================================== *)

Module SignalR.
Import Js.

(** [type ConnectionState]. *)
Inductive ConnectionState : Type := disconnected | connecting | connected | reconnecting.

(** The remote procedures the client invokes on the hub.  The control-log
    procedures receive [this.subscribedEventId] as it is when they are called,
    after an [await]: it may be [null] by then. *)
Inductive HubCall : Type :=
| SubscribeToEventV2 (eventId : Z)
| UnsubscribeFromEventV2 (eventId : Z)
| SubscribeToControlLogs (eventId : option Z)
| UnsubscribeFromControlLogs (eventId : option Z)
| SubscribeToCarControlLogs (eventId : Z) (carNumber : string)
| SubscribeToInCarDriverEvent (eventId : Z) (carNumber : string)
| UnsubscribeFromInCarDriverEvent (eventId : Z) (carNumber : string).

(** What a method throws. *)
Inductive Error : Type :=
| NotConnected                 (* 'Not connected to SignalR hub' *)
| InvokeFailed (call : HubCall)  (* the rejection of [connection.invoke] *)
| StopFailed.                  (* the rejection of [connection.stop] *)

(** What [connection.stop()] does is the library's.  It runs the handler
    registered with [onclose] when it closes a connection that was started,
    and runs nothing when the connection is closed already; its promise
    resolves or rejects.  [Stop] tells which. *)
Record Stop : Type := mkStop {
  runs_onclose : bool;
  stop_resolves : bool
}.

(** The fields of [class RedMistSignalRClient]; [connection] records whether
    the hub connection object exists. *)
Record Client : Type := mkClient {
  connection : bool;
  subscribedEventId : option Z;
  subscribedCar : option string;
  connectionState : ConnectionState
}.

(** The client together with what it did to the outside: the hub invocations
    in the order they were issued, each with whether the hub accepted it, and
    the states reported to [onConnectionStateChange]. *)
Record World : Type := mkWorld {
  client : Client;
  invoked : list (HubCall * bool);
  reported : list ConnectionState
}.

(** The result of running a method. *)
Inductive Outcome (A : Type) : Type :=
| Returned (a : A)
| Thrown (e : Error).
Arguments Returned {A} a.
Arguments Thrown {A} e.

(** A method: a state transformer that returns or throws. *)
Definition M (A : Type) : Type := World -> Outcome A * World.

Definition ret {A : Type} (a : A) : M A := fun w => (Returned a, w).

Definition throw {A : Type} (e : Error) : M A := fun w => (Thrown e, w).

Definition bind {A B : Type} (m : M A) (k : A -> M B) : M B :=
  fun w =>
    match m w with
    | (Returned a, w') => k a w'
    | (Thrown e, w') => (Thrown e, w')
    end.

(** [try { m } catch (error) { handler(error) }]. *)
Definition try_catch {A : Type} (m : M A) (handler : Error -> M A) : M A :=
  fun w =>
    match m w with
    | (Returned a, w') => (Returned a, w')
    | (Thrown e, w') => handler e w'
    end.

(** [try { m } finally { cleanup }]. *)
Definition try_finally {A : Type} (m : M A) (cleanup : M unit) : M A :=
  fun w =>
    match m w with
    | (r, w') =>
      match cleanup w' with
      | (Returned _, w'') => (r, w'')
      | (Thrown e, w'') => (Thrown e, w'')
      end
    end.

Notation "x <- m ;; k" := (bind m (fun x => k))
  (at level 61, m at next level, right associativity).
Notation "m ;;; k" := (bind m (fun _ => k))
  (at level 61, right associativity).

(** Read and update the fields of [this]. *)
Definition this : M Client := fun w => (Returned (client w), w).

Definition set_client (f : Client -> Client) : M unit :=
  fun w =>
    (Returned tt,
     {| client := f (client w); invoked := invoked w; reported := reported w |}).

Definition set_subscribedEventId (v : option Z) (cl : Client) : Client :=
  {| connection := connection cl; subscribedEventId := v;
     subscribedCar := subscribedCar cl; connectionState := connectionState cl |}.

Definition set_subscribedCar (v : option string) (cl : Client) : Client :=
  {| connection := connection cl; subscribedEventId := subscribedEventId cl;
     subscribedCar := v; connectionState := connectionState cl |}.

Definition set_connection (v : bool) (cl : Client) : Client :=
  {| connection := v; subscribedEventId := subscribedEventId cl;
     subscribedCar := subscribedCar cl; connectionState := connectionState cl |}.

Definition set_state (v : ConnectionState) (cl : Client) : Client :=
  {| connection := connection cl; subscribedEventId := subscribedEventId cl;
     subscribedCar := subscribedCar cl; connectionState := v |}.

(** ToBoolean of [this.subscribedEventId] and of [this.subscribedCar]. *)
Definition truthy_id (v : option Z) : bool := truthy_opt (fun z => negb (z =? 0)) v.
Definition truthy_car (v : option string) : bool := truthy_opt truthy_str v.

Section Hub.

(** The hub: whether it accepts a call, given the calls issued before. *)
Variable hub : list (HubCall * bool) -> HubCall -> bool.

(** [await this.connection.invoke(...)]. *)
Definition invoke (call : HubCall) : M unit :=
  fun w =>
    let ok := hub (invoked w) call in
    let w' := {| client := client w; invoked := invoked w ++ [(call, ok)];
                 reported := reported w |} in
    if ok then (Returned tt, w') else (Thrown (InvokeFailed call), w').

(** [setConnectionState(state)]. *)
Definition setConnectionState (state : ConnectionState) : M unit :=
  fun w =>
    (Returned tt,
     {| client := set_state state (client w); invoked := invoked w;
        reported := reported w ++ [state] |}).

(** [subscribeToEvent(eventId)]. *)
Definition subscribeToEvent (eventId : Z) : M unit :=
  cl <- this ;;
  if negb (connection cl) then throw NotConnected
  else
    try_catch
      (invoke (SubscribeToEventV2 eventId) ;;;
       set_client (set_subscribedEventId (Some eventId)))
      (fun error => throw error).

(** [unsubscribeFromEvent(eventId)]. *)
Definition unsubscribeFromEvent (eventId : Z) : M unit :=
  cl <- this ;;
  if negb (connection cl) then ret tt
  else
    try_catch
      (invoke (UnsubscribeFromEventV2 eventId) ;;;
       cl <- this ;;
       match subscribedEventId cl with
       | Some e => if e =? eventId then set_client (set_subscribedEventId None) else ret tt
       | None => ret tt
       end)
      (fun _ => ret tt).

(** [subscribeToControlLogs(eventId)]. *)
Definition subscribeToControlLogs (eventId : option Z) : M unit :=
  cl <- this ;;
  if negb (connection cl) then throw NotConnected
  else try_catch (invoke (SubscribeToControlLogs eventId)) (fun error => throw error).

(** [unsubscribeFromControlLogs(eventId)]. *)
Definition unsubscribeFromControlLogs (eventId : option Z) : M unit :=
  cl <- this ;;
  if negb (connection cl) then ret tt
  else try_catch (invoke (UnsubscribeFromControlLogs eventId)) (fun _ => ret tt).

(** [subscribeToCarControlLogs(eventId, carNumber)]. *)
Definition subscribeToCarControlLogs (eventId : Z) (carNumber : string) : M unit :=
  cl <- this ;;
  if negb (connection cl) then throw NotConnected
  else
    try_catch (invoke (SubscribeToCarControlLogs eventId carNumber))
              (fun error => throw error).

(** [subscribeToInCarDriverEvent(eventId, carNumber)]. *)
Definition subscribeToInCarDriverEvent (eventId : Z) (carNumber : string) : M unit :=
  cl <- this ;;
  if negb (connection cl) then throw NotConnected
  else
    try_catch
      (invoke (SubscribeToInCarDriverEvent eventId carNumber) ;;;
       set_client (set_subscribedCar (Some carNumber)))
      (fun error => throw error).

(** [unsubscribeFromInCarDriverEvent(eventId, carNumber)]. *)
Definition unsubscribeFromInCarDriverEvent (eventId : Z) (carNumber : string) : M unit :=
  cl <- this ;;
  if negb (connection cl) then ret tt
  else
    try_catch
      (invoke (UnsubscribeFromInCarDriverEvent eventId carNumber) ;;;
       cl <- this ;;
       match subscribedCar cl with
       | Some car =>
         if String.eqb car carNumber then set_client (set_subscribedCar None) else ret tt
       | None => ret tt
       end)
      (fun _ => ret tt).

(** [resubscribe()]. *)
Definition resubscribe : M unit :=
  (cl <- this ;;
   match subscribedEventId cl with
   | Some eventId =>
     if truthy_id (Some eventId) then
       subscribeToEvent eventId ;;;
       cl <- this ;;
       subscribeToControlLogs (subscribedEventId cl)
     else ret tt
   | None => ret tt
   end) ;;;
  cl <- this ;;
  match subscribedEventId cl, subscribedCar cl with
  | Some eventId, Some car =>
    if truthy_id (Some eventId) && truthy_car (Some car)
    then subscribeToInCarDriverEvent eventId car
    else ret tt
  | _, _ => ret tt
  end.

(** The handler registered with [connection.onreconnecting]. *)
Definition onreconnecting : M unit := setConnectionState reconnecting.

(** The handler registered with [connection.onreconnected]. *)
Definition onreconnected : M unit :=
  setConnectionState connected ;;; resubscribe.

(** A disconnect/reconnect cycle of the transport, as the client sees it. *)
Definition reconnect_cycle : M unit := onreconnecting ;;; onreconnected.

(** The handler registered with [connection.onclose]; what it passes to
    [onError] is outside the model. *)
Definition onclose : M unit := setConnectionState disconnected.

(** [await this.connection.stop()]. *)
Definition stop_connection (stop : Stop) : M unit :=
  (if runs_onclose stop then onclose else ret tt) ;;;
  (if stop_resolves stop then ret tt else throw StopFailed).

(** [disconnect()]. *)
Definition disconnect (stop : Stop) : M unit :=
  cl <- this ;;
  if negb (connection cl) then ret tt
  else
    try_finally
      (try_catch
         ((cl <- this ;;
           match subscribedEventId cl with
           | Some eventId =>
             if truthy_id (Some eventId) then
               unsubscribeFromEvent eventId ;;;
               cl <- this ;;
               unsubscribeFromControlLogs (subscribedEventId cl)
             else ret tt
           | None => ret tt
           end) ;;;
          (cl <- this ;;
           match subscribedEventId cl, subscribedCar cl with
           | Some eventId, Some car =>
             if truthy_id (Some eventId) && truthy_car (Some car)
             then unsubscribeFromInCarDriverEvent eventId car
             else ret tt
           | _, _ => ret tt
           end) ;;;
          stop_connection stop)
         (fun _ => ret tt))
      (set_client (set_connection false) ;;;
       set_client (set_subscribedEventId None) ;;;
       set_client (set_subscribedCar None) ;;;
       setConnectionState disconnected).

End Hub.

(** ** The message envelope *)

(** The base64 alphabet of RFC 4648. *)
Definition b64_alphabet : string :=
  "ABCDEFGHIJKLMNOPQRSTUVWXYZabcdefghijklmnopqrstuvwxyz0123456789+/".

(** The character of a 6-bit value. *)
Definition b64_char (i : N) : ascii :=
  match String.get (N.to_nat i) b64_alphabet with
  | Some ch => ch
  | None => "="%char
  end.

(** The 6-bit value of a character of the alphabet. *)
Definition b64_value (ch : ascii) : option N :=
  let n := N_of_ascii ch in
  (if (65 <=? n) && (n <=? 90) then Some (n - 65)
   else if (97 <=? n) && (n <=? 122) then Some (n - 71)
   else if (48 <=? n) && (n <=? 57) then Some (n + 4)
   else if n =? 43 then Some 62
   else if n =? 47 then Some 63
   else None)%N.

(** Three bytes as one 24-bit group, and four 6-bit values as one. *)
Definition group24 (a b c : N) : N := (a * 65536 + b * 256 + c)%N.
Definition group4 (a b c d : N) : N := (a * 262144 + b * 4096 + c * 64 + d)%N.

(** The 6-bit value, and the byte, of [n] that starts at the bit of weight [d]. *)
Definition sextet (n d : N) : N := ((n / d) mod 64)%N.
Definition octet (n d : N) : N := ((n / d) mod 256)%N.

(** [btoa(binaryString)]: the encoder on the sending side. *)
Fixpoint btoa (s : string) : string :=
  match s with
  | EmptyString => EmptyString
  | String a EmptyString =>
    let n := group24 (N_of_ascii a) 0 0 in
    String (b64_char (sextet n 262144)) (String (b64_char (sextet n 4096)) "==")
  | String a (String b EmptyString) =>
    let n := group24 (N_of_ascii a) (N_of_ascii b) 0 in
    String (b64_char (sextet n 262144)) (String (b64_char (sextet n 4096))
      (String (b64_char (sextet n 64)) "="))
  | String a (String b (String c r)) =>
    let n := group24 (N_of_ascii a) (N_of_ascii b) (N_of_ascii c) in
    String (b64_char (sextet n 262144)) (String (b64_char (sextet n 4096))
      (String (b64_char (sextet n 64)) (String (b64_char (sextet n 1)) (btoa r))))
  end.

(** ASCII whitespace, which [atob] removes: TAB, LF, FF, CR and SPACE. *)
Definition is_ascii_whitespace (ch : ascii) : bool :=
  let n := N_of_ascii ch in
  ((n =? 9) || (n =? 10) || (n =? 12) || (n =? 13) || (n =? 32))%N.

Fixpoint remove_whitespace (s : string) : string :=
  match s with
  | EmptyString => EmptyString
  | String ch r =>
    if is_ascii_whitespace ch then remove_whitespace r else String ch (remove_whitespace r)
  end.

(** Remove one or two [=] at the end of the data. *)
Fixpoint strip_padding (s : string) : string :=
  match s with
  | EmptyString => EmptyString
  | String "="%char EmptyString => EmptyString
  | String "="%char (String "="%char EmptyString) => EmptyString
  | String ch r => String ch (strip_padding r)
  end.

(** Decode the characters four at a time; fails on a character outside
    the alphabet and on a single character left over. *)
Fixpoint decode_sextets (s : string) : option string :=
  match s with
  | EmptyString => Some EmptyString
  | String _ EmptyString => None
  | String a (String b EmptyString) =>
    match b64_value a, b64_value b with
    | Some va, Some vb =>
      let n := group4 va vb 0 0 in
      Some (String (ascii_of_N (octet n 65536)) EmptyString)
    | _, _ => None
    end
  | String a (String b (String c EmptyString)) =>
    match b64_value a, b64_value b, b64_value c with
    | Some va, Some vb, Some vc =>
      let n := group4 va vb vc 0 in
      Some (String (ascii_of_N (octet n 65536)) (String (ascii_of_N (octet n 256)) EmptyString))
    | _, _, _ => None
    end
  | String a (String b (String c (String d r))) =>
    match b64_value a, b64_value b, b64_value c, b64_value d, decode_sextets r with
    | Some va, Some vb, Some vc, Some vd, Some rest =>
      let n := group4 va vb vc vd in
      Some (String (ascii_of_N (octet n 65536)) (String (ascii_of_N (octet n 256))
             (String (ascii_of_N (octet n 1)) rest)))
    | _, _, _, _, _ => None
    end
  end.

(** [atob(data)], the forgiving base64 decoder; [None] when it throws. *)
Definition atob (data : string) : option string :=
  let data := remove_whitespace data in
  let data :=
    if (String.length data mod 4 =? 0)%nat then strip_padding data else data in
  decode_sextets data.

(** [bytes[i] = binaryString.charCodeAt(i)] for every [i]. *)
Definition bytes_of_binary_string (binaryString : string) : list Byte.byte :=
  map byte_of_ascii (list_ascii_of_string binaryString).

(** The binary string whose character codes are the given bytes. *)
Definition binary_string_of_bytes (bytes : list Byte.byte) : string :=
  string_of_list_ascii (map ascii_of_byte bytes).

(** Why a message could not be decoded. *)
Inductive DecodeError : Type :=
| InvalidCharacterError   (* thrown by [atob] *)
| InflateError            (* thrown by [pako.inflate] *)
| SyntaxError.            (* thrown by [JSON.parse] *)

Section Envelope.

(** The values [JSON.parse] returns, [JSON.parse] itself, and
    [pako.inflate(bytes, { to: 'string' })]; [None] when they throw. *)
Variable json : Type.
Variable JSON_parse : string -> option json.
Variable pako_inflate : list Byte.byte -> option string.

Definition parse_json (text : string) : json + DecodeError :=
  match JSON_parse text with
  | Some v => inl v
  | None => inr SyntaxError
  end.

(** [decompressMessage(message)]. *)
Definition decompressMessage (message : string) : json + DecodeError :=
  if startsWith "H4sI" message then
    match atob message with
    | Some binaryString =>
      let bytes := bytes_of_binary_string binaryString in
      match pako_inflate bytes with
      | Some decompressed => parse_json decompressed
      | None => inr InflateError
      end
    | None => inr InvalidCharacterError
    end
  else parse_json message.

End Envelope.

End SignalR.

(* ===================================================================== *)
(** * lib/auth.ts: the token manager *)
(* ===================================================================== *)

Module Auth.
Import Js.

(** Refresh 30 seconds before expiry. *)
Definition TOKEN_REFRESH_MARGIN : Z := 30000.

(** [interface AuthConfig]. *)
Record AuthConfig : Type := mkAuthConfig {
  clientId : string;
  clientSecret : string
}.

(** What [refreshToken] throws. *)
Inductive AuthError : Type :=
| NotConfigured                                      (* no credentials *)
| FetchFailed                                        (* [fetch] rejects *)
| AuthenticationFailed (status : Z) (errorText : string)   (* [!response.ok] *)
| BodyFailed.                                        (* [response.json()] rejects *)

(** How the credential exchange with the identity provider ends. *)
Inductive Exchange : Type :=
| FetchRejects
| ResponseNotOk (status : Z) (errorText : string)
| BodyRejects
| TokenResponse (access_token : string) (expires_in : num).

(** The promise [refreshToken()] returns, as [getToken] can see it stored in
    [refreshPromise]: the exchange is still in flight, or [refreshToken] threw
    before it sent anything. *)
Inductive Promise : Type :=
| Pending
| Rejected (e : AuthError).

(** The fields of [class TokenManager]. *)
Record TokenManager : Type := mkTokenManager {
  accessToken : option string;
  tokenExpiry : option num;
  refreshPromise : option Promise;
  config : option AuthConfig
}.

(** The manager and what it did to the outside: the exchanges it sent (the
    credentials posted) and the tokens it passed to its listeners, one entry
    for each run of [notifyListeners]. *)
Record World : Type := mkWorld {
  manager : TokenManager;
  exchanges : list AuthConfig;
  notified : list (option string)
}.

Definition set_token (tok : option string) (expiry : option num) (m : TokenManager)
  : TokenManager :=
  {| accessToken := tok; tokenExpiry := expiry;
     refreshPromise := refreshPromise m; config := config m |}.

Definition set_refreshPromise (pr : option Promise) (m : TokenManager) : TokenManager :=
  {| accessToken := accessToken m; tokenExpiry := tokenExpiry m;
     refreshPromise := pr; config := config m |}.

Definition with_manager (f : TokenManager -> TokenManager) (w : World) : World :=
  {| manager := f (manager w); exchanges := exchanges w; notified := notified w |}.

(** [configure(config)]. *)
Definition configure (cfg : AuthConfig) (w : World) : World :=
  with_manager
    (fun m => {| accessToken := None; tokenExpiry := None;
                 refreshPromise := refreshPromise m; config := Some cfg |})
    w.

(** [isConfigured()]. *)
Definition isConfigured (w : World) : bool :=
  match config (manager w) with
  | Some cfg =>
    (0 <? String.length (clientId cfg))%nat && (0 <? String.length (clientSecret cfg))%nat
  | None => false
  end.

(** [notifyListeners()]. *)
Definition notifyListeners (w : World) : World :=
  {| manager := manager w; exchanges := exchanges w;
     notified := notified w ++ [accessToken (manager w)] |}.

(** [clearToken()]. *)
Definition clearToken (w : World) : World :=
  notifyListeners (with_manager (set_token None None) w).

(** The test of [getToken]: [this.accessToken && this.tokenExpiry &&
    Date.now() < this.tokenExpiry - TOKEN_REFRESH_MARGIN]. *)
Definition cached_token (now : Z) (m : TokenManager) : option string :=
  match accessToken m, tokenExpiry m with
  | Some tok, Some expiry =>
    if truthy_str tok && truthy_num expiry
       && lt (Int now) (sub expiry (Int TOKEN_REFRESH_MARGIN))
    then Some tok else None
  | _, _ => None
  end.

(** [refreshToken()] up to its first [await]: it throws at once without
    credentials, and otherwise posts them to the identity provider. *)
Definition refreshToken_start (w : World) : Promise * World :=
  match config (manager w) with
  | None => (Rejected NotConfigured, w)
  | Some cfg =>
    (Pending,
     {| manager := manager w; exchanges := exchanges w ++ [cfg]; notified := notified w |})
  end.

(** [refreshToken()] from the answer of the exchange on; [now] is [Date.now()]
    when the answer is read. *)
Definition refreshToken_finish (answer : Exchange) (now : Z) (w : World)
  : (string + AuthError) * World :=
  match answer with
  | FetchRejects => (inr FetchFailed, w)
  | ResponseNotOk status errorText => (inr (AuthenticationFailed status errorText), w)
  | BodyRejects => (inr BodyFailed, w)
  | TokenResponse access_token expires_in =>
    let w :=
      with_manager
        (set_token (Some access_token) (Some (add (Int now) (scale expires_in 1000)))) w in
    (inl access_token, notifyListeners w)
  end.

(** What a call of [getToken] does before it first waits. *)
Inductive Call : Type :=
| Immediate (token : string)   (* the cached token, no exchange *)
| Joins (pr : Promise)         (* awaits the refresh already in flight *)
| Starts (pr : Promise).       (* starts a refresh and awaits it *)

(** [getToken()] up to its first [await]. *)
Definition getToken_call (now : Z) (w : World) : Call * World :=
  match cached_token now (manager w) with
  | Some tok => (Immediate tok, w)
  | None =>
    match refreshPromise (manager w) with
    | Some pr => (Joins pr, w)
    | None =>
      let '(pr, w) := refreshToken_start w in
      (Starts pr, with_manager (set_refreshPromise (Some pr)) w)
    end
  end.

(** The refresh [pr] settles: the exchange is answered, if one was sent, and
    the [finally] block of the call that started the refresh runs. *)
Definition settle (pr : Promise) (answer : Exchange) (now : Z) (w : World)
  : (string + AuthError) * World :=
  let '(result, w) :=
    match pr with
    | Pending => refreshToken_finish answer now w
    | Rejected e => (inr e, w)
    end in
  (result, with_manager (set_refreshPromise None) w).

(** A whole call of [getToken]: made at [now]; the exchange it waits for, if
    any, is answered by [answer] at [now']. *)
Definition getToken (now : Z) (answer : Exchange) (now' : Z) (w : World)
  : (string + AuthError) * World :=
  match getToken_call now w with
  | (Immediate tok, w) => (inl tok, w)
  | (Joins pr, w) => settle pr answer now' w
  | (Starts pr, w) => settle pr answer now' w
  end.

(** [isAuthenticated()]. *)
Definition isAuthenticated (now : Z) (w : World) : bool :=
  match accessToken (manager w), tokenExpiry (manager w) with
  | Some _, Some expiry => lt (Int now) expiry
  | _, _ => false
  end.

(** [getTimeUntilExpiry()]. *)
Definition getTimeUntilExpiry (now : Z) (w : World) : option num :=
  match tokenExpiry (manager w) with
  | Some expiry =>
    if truthy_num expiry then Some (Math_max (Int 0) (sub expiry (Int now))) else None
  | None => None
  end.

End Auth.

(* ===================================================================== *)
(** * More JavaScript built-ins: numbers as text *)
(* ===================================================================== *)

Module JsText.
Import Js.

(** The character of the decimal digit [d]. *)
Definition digit_char (d : Z) : ascii := ascii_of_nat (Z.to_nat (48 + d)).

(** The decimal digits of a non-negative integer, the most significant
    first; [fuel] bounds the number of digits after the first. *)
Fixpoint digits_from (fuel : nat) (n : Z) : string :=
  match fuel with
  | O => String (digit_char n) EmptyString
  | S fuel' =>
    if n <? 10 then String (digit_char n) EmptyString
    else (digits_from fuel' (n / 10) ++ String (digit_char (n mod 10)) EmptyString)%string
  end.

Definition digits (n : Z) : string := digits_from (Z.to_nat (Z.log2 n)) n.

(** [String(x)], [x.toString()] and [`${x}`] on a number. *)
Definition toString (x : num) : string :=
  match x with
  | Int z => if z <? 0 then String "-"%char (digits (- z)) else digits z
  | PosInf => "Infinity"%string
  | NegInf => "-Infinity"%string
  | NaN => "NaN"%string
  end.

Fixpoint repeat_char (k : nat) (c : ascii) : string :=
  match k with
  | O => EmptyString
  | S k' => String c (repeat_char k' c)
  end.

(** [s.padStart(targetLength, fill)] for a one-character [fill]. *)
Definition padStart (targetLength : nat) (fill : ascii) (s : string) : string :=
  (repeat_char (targetLength - String.length s) fill ++ s)%string.

(** [Math.floor(x / k)] for a positive literal [k]. *)
Definition floor_div (x : num) (k : Z) : num :=
  match x with
  | Int z => Int (z / k)
  | PosInf => PosInf
  | NegInf => NegInf
  | NaN => NaN
  end.

(** [x % k] for a positive literal [k]: the remainder has the sign of [x]. *)
Definition remainder (x : num) (k : Z) : num :=
  match x with
  | Int z => Int (Z.rem z k)
  | PosInf | NegInf | NaN => NaN
  end.

(** [s.trimEnd()] and [s.trim()], for the ASCII white space. *)
Fixpoint trimEnd (s : string) : string :=
  match s with
  | EmptyString => EmptyString
  | String ch rest =>
    match trimEnd rest with
    | EmptyString => if is_white_space ch then EmptyString else String ch EmptyString
    | rest' => String ch rest'
    end
  end.

Definition trim (s : string) : string := trimEnd (skip_white_space s).

(** [isNaN(x)]. *)
Definition isNaN (x : num) : bool :=
  match x with
  | NaN => true
  | _ => false
  end.

End JsText.

(* ===================================================================== *)
(** * components/RaceReplay.tsx: the replay cache and the playback controls *)
(* ===================================================================== *)

Module ReplayControls.
Import Js JsText Replay.

(** [formatMsToTime(ms)] of the replay: how a cached best lap time is turned
    back into text. *)
Definition formatMsToTime (ms : num) : string :=
  if negb (truthy_num ms) || strict_eq ms (Int 0) then EmptyString
  else
    let minutes := floor_div ms 60000 in
    let seconds := floor_div (remainder ms 60000) 1000 in
    let millis := remainder ms 1000 in
    (padStart 2 "0" (toString minutes) ++ ":" ++
     padStart 2 "0" (toString seconds) ++ "." ++
     padStart 3 "0" (toString millis))%string.

(** [maxLap]: the length of the longest history, 0 without cars. *)
Definition maxLap (allCarsLapData : list CarLapData) : Z :=
  match map (fun car => Z.of_nat (List.length (laps car))) allCarsLapData with
  | [] => 0
  | len :: lens => fold_left Z.max lens len
  end.

(** [goToLap(lap)]. *)
Definition goToLap (lap : Z) (allCarsLapData : list CarLapData) (prev : ReplayState)
  : ReplayState :=
  let clampedLap := Z.max 1 (Z.min lap (maxLap allCarsLapData)) in
  updatePositionsAtLap clampedLap allCarsLapData prev.

(** [stepForward()], [stepBackward()], [jumpForward()], [jumpBackward()],
    [goToStart()] and [goToEnd()]. *)
Definition stepForward (allCarsLapData : list CarLapData) (prev : ReplayState) : ReplayState :=
  goToLap (currentLap prev + 1) allCarsLapData prev.

Definition stepBackward (allCarsLapData : list CarLapData) (prev : ReplayState) : ReplayState :=
  goToLap (currentLap prev - 1) allCarsLapData prev.

Definition jumpForward (allCarsLapData : list CarLapData) (prev : ReplayState) : ReplayState :=
  goToLap (currentLap prev + 10) allCarsLapData prev.

Definition jumpBackward (allCarsLapData : list CarLapData) (prev : ReplayState) : ReplayState :=
  goToLap (currentLap prev - 10) allCarsLapData prev.

Definition goToStart (allCarsLapData : list CarLapData) (prev : ReplayState) : ReplayState :=
  goToLap 1 allCarsLapData prev.

Definition goToEnd (allCarsLapData : list CarLapData) (prev : ReplayState) : ReplayState :=
  goToLap (maxLap allCarsLapData) allCarsLapData prev.

End ReplayControls.

(* ===================================================================== *)
(** * lib/unified-data.ts: times as text *)
(* ===================================================================== *)

Module UnifiedData.
Import Js JsText Unified.

(** [parseTimeToMs(timeStr)]. *)
Definition parseTimeToMs (timeStr : option string) : num :=
  if negb (truthy_opt truthy_str timeStr) then Int 0
  else
    let parts := split ":"%char (or_str timeStr "") in
    let ms := Int 0 in
    match parts with
    | [mins; secPart] =>
      let '(secs, millis) := Replay.secs_and_ms secPart in
      add (add (scale (parseInt mins) 60000) (scale (parseInt secs) 1000))
          (parseInt (or_str (option_map (slice0 3) millis) "0"))
    | [hours; mins; secPart] =>
      let '(secs, millis) := Replay.secs_and_ms secPart in
      add (add (add (scale (parseInt hours) 3600000) (scale (parseInt mins) 60000))
               (scale (parseInt secs) 1000))
          (parseInt (or_str (option_map (slice0 3) millis) "0"))
    | _ => ms
    end.

(** [const pad = (n, len = 2) => n.toString().padStart(len, '0')]. *)
Definition pad (n : num) (len : nat) : string := padStart len "0" (toString n).

(** [formatMsToTime(ms, includeHours)]. *)
Definition formatMsToTime (ms : num) (includeHours : bool) : string :=
  if strict_eq ms (Int 0) || isNaN ms then "--:--.---"%string
  else
    let hours := floor_div ms 3600000 in
    let mins := floor_div (remainder ms 3600000) 60000 in
    let secs := floor_div (remainder ms 60000) 1000 in
    let millis := remainder ms 1000 in
    if includeHours || lt (Int 0) hours then
      (pad hours 2 ++ ":" ++ pad mins 2 ++ ":" ++ pad secs 2 ++ "." ++ pad millis 3)%string
    else
      (pad mins 2 ++ ":" ++ pad secs 2 ++ "." ++ pad millis 3)%string.

End UnifiedData.

(* ===================================================================== *)
(** * lib/unified-data.ts: the analysis of laps by flag *)
(* ===================================================================== *)

Module FlagAnalysis.
Import Js Unified.

(** What [analyzeLapsByFlag] returns. *)
Record LapsByFlag : Type := mkLapsByFlag {
  greenLaps : list UnifiedLapData;
  yellowLaps : list UnifiedLapData;
  redLaps : list UnifiedLapData;
  averageGreenLapTime : number;
  averageYellowLapTime : number;
  fastestGreenLap : option UnifiedLapData;
  yellowLapCount : nat;
  greenLapPercentage : Q
}.

(** [lapHistory.filter(l => l.flagStatus === flag)]. *)
Definition lapsUnder (flag : FlagStatus) (lapHistory : list UnifiedLapData)
  : list UnifiedLapData :=
  filter (fun l => FlagStatus_eqb (lap_flagStatus l) flag) lapHistory.

(** [laps.length > 0 ? laps.reduce((sum, l) => sum + l.lapTime, 0) / laps.length : 0]. *)
Definition averageLapTime (laps : list UnifiedLapData) : number :=
  if (0 <? List.length laps)%nat
  then
    let total := fold_left (fun sum l => add sum (lapTime l)) laps (Int 0) in
    div_length (of_num total) (List.length laps)
  else Finite 0.

(** [laps.length > 0 ? laps.reduce((best, l) => l.lapTime < best.lapTime ? l : best) : null]:
    without an initial value [reduce] starts from the first element. *)
Definition fastestLap (laps : list UnifiedLapData) : option UnifiedLapData :=
  match laps with
  | [] => None
  | first :: rest =>
    Some (fold_left (fun best l => if lt (lapTime l) (lapTime best) then l else best)
                    rest first)
  end.

(** [analyzeLapsByFlag(lapHistory)]. *)
Definition analyzeLapsByFlag (lapHistory : list UnifiedLapData) : LapsByFlag :=
  let greenLaps := lapsUnder green lapHistory in
  let yellowLaps := lapsUnder yellow lapHistory in
  let redLaps := lapsUnder red lapHistory in
  {| greenLaps := greenLaps;
     yellowLaps := yellowLaps;
     redLaps := redLaps;
     averageGreenLapTime := averageLapTime greenLaps;
     averageYellowLapTime := averageLapTime yellowLaps;
     fastestGreenLap := fastestLap greenLaps;
     yellowLapCount := List.length yellowLaps;
     greenLapPercentage :=
       if (0 <? List.length lapHistory)%nat
       then (inject_Z (Z.of_nat (List.length greenLaps))
             / inject_Z (Z.of_nat (List.length lapHistory)) * 100)%Q
       else 0%Q |}.

End FlagAnalysis.

(* ===================================================================== *)
(** * lib/unified-data.ts: the transponder store, the RedMist converter; the store's merge *)
(* ===================================================================== *)

Module JsMap.

(** A JavaScript [Map] with string keys: its entries in insertion order. *)
Definition Map (V : Type) : Type := list (string * V).

(** [map.get(key)]. *)
Fixpoint get {V : Type} (key : string) (m : Map V) : option V :=
  match m with
  | [] => None
  | (k, v) :: rest => if String.eqb k key then Some v else get key rest
  end.

(** [map.set(key, value)]: an existing key keeps its place. *)
Fixpoint set {V : Type} (key : string) (value : V) (m : Map V) : Map V :=
  match m with
  | [] => [(key, value)]
  | (k, v) :: rest =>
    if String.eqb k key then (key, value) :: rest else (k, v) :: set key value rest
  end.

(** [map.values()]. *)
Definition values {V : Type} (m : Map V) : list V := map snd m.

End JsMap.

Module TransponderStore.
Import Js.

(** [interface TransponderMapping]. *)
Record TransponderMapping : Type := mkTransponderMapping {
  transponder : string;
  carNumber : string;
  redmistEventId : option Z;
  racemonitorRaceId : option Z;
  driverName : option string;
  teamName : option string;
  className : option string
}.

(** An optional property of an object literal: the key is absent, or present
    with a value that may be [undefined]. *)
Inductive Property (A : Type) : Type :=
| Absent
| Present (value : option A).
Arguments Absent {A}.
Arguments Present {A} value.

(** The [Partial<TransponderMapping>] given to [set]; its [transponder] is
    overridden and left out, and [carNumber], when given, is a string. *)
Record Update : Type := mkUpdate {
  new_carNumber : option string;
  new_redmistEventId : Property Z;
  new_racemonitorRaceId : Property Z;
  new_driverName : Property string;
  new_teamName : Property string;
  new_className : Property string
}.

(** [{ ...existing, ...data }] on one optional property. *)
Definition spread {A : Type} (existing : option A) (data : Property A) : option A :=
  match data with
  | Absent => existing
  | Present value => value
  end.

(** The field [mappings]. *)
Definition Store : Type := JsMap.Map TransponderMapping.

(** [set(transponder, data)]. *)
Definition set (transponder : string) (data : Update) (mappings : Store) : Store :=
  let existing :=
    match JsMap.get transponder mappings with
    | Some mapping => mapping
    | None =>
      {| transponder := transponder; carNumber := EmptyString;
         redmistEventId := None; racemonitorRaceId := None;
         driverName := None; teamName := None; className := None |}
    end in
  JsMap.set transponder
    {| transponder := transponder;
       carNumber := nullish (new_carNumber data) (carNumber existing);
       redmistEventId := spread (redmistEventId existing) (new_redmistEventId data);
       racemonitorRaceId := spread (racemonitorRaceId existing) (new_racemonitorRaceId data);
       driverName := spread (driverName existing) (new_driverName data);
       teamName := spread (teamName existing) (new_teamName data);
       className := spread (className existing) (new_className data) |}
    mappings.

(** [getByTransponder(transponder)]. *)
Definition getByTransponder (transponder : string) (mappings : Store)
  : option TransponderMapping :=
  JsMap.get transponder mappings.

(** [getByCarNumber(carNumber)]. *)
Definition getByCarNumber (carNumber' : string) (mappings : Store)
  : option TransponderMapping :=
  find (fun mapping => String.eqb (carNumber mapping) carNumber') (JsMap.values mappings).

(** [getAll()]. *)
Definition getAll (mappings : Store) : list TransponderMapping := JsMap.values mappings.

(** [clear()]. *)
Definition clear (mappings : Store) : Store := [].

(** The item ['transponder-mappings'] of the local storage, as the array it
    parses to; [None] when there is no item. *)
Definition Storage : Type := option (list TransponderMapping).

(** [loadFromStorage()]. *)
Definition loadFromStorage (stored : Storage) (mappings : Store) : Store :=
  match stored with
  | Some data => fold_left (fun mappings m => JsMap.set (transponder m) m mappings) data mappings
  | None => mappings
  end.

(** [saveToStorage()]: the item written. *)
Definition saveToStorage (mappings : Store) : Storage := Some (getAll mappings).

(** A mapping read back from JSON, given to [set] as its [data]: a property
    that was [undefined] when the mapping was written is absent. *)
Definition defined {A : Type} (value : option A) : Property A :=
  match value with
  | Some a => Present (Some a)
  | None => Absent
  end.

Definition as_update (mapping : TransponderMapping) : Update :=
  {| new_carNumber := Some (carNumber mapping);
     new_redmistEventId := defined (redmistEventId mapping);
     new_racemonitorRaceId := defined (racemonitorRaceId mapping);
     new_driverName := defined (driverName mapping);
     new_teamName := defined (teamName mapping);
     new_className := defined (className mapping) |}.

(** [importRaceData(data)], as what it does to the store: [data] is
    [data.transponderMappings] as [JSON.parse] returns it from an exported
    file, where a property that was [undefined] is absent ([as_update]).  A
    mapping built in memory may carry a property whose value is [undefined],
    which the spread of [set] would copy over the stored one; such data is
    not what this definition describes. *)
Definition importRaceData (data : list TransponderMapping) (mappings : Store) : Store :=
  fold_left (fun mappings mapping => set (transponder mapping) (as_update mapping) mappings)
            data mappings.

End TransponderStore.

Module Converters.
Import Js JsText Unified.

(** [interface EventEntry]. *)
Record EventEntry : Type := mkEventEntry {
  no : option string;
  nm : option string;
  t : option string;
  c : option string
}.

(** [interface CarPosition] as [redmistToUnified] reads it: the fields of
    [Replay.CarPosition] and six more. *)
Record RedMistCar : Type := mkRedMistCar {
  car : Replay.CarPosition;
  class : option string;   (* class, full name *)
  cp : option num;         (* class position, abbreviated *)
  clp : option num;        (* class position, full *)
  pc : option num;         (* pit count *)
  pl : option num;         (* pit lap *)
  flg : option Z           (* flag *)
}.

(** [getFlagName(flag)]. *)
Definition getFlagName (flag : option Z) : string :=
  match flag with
  | Some 1 => "green"
  | Some 2 => "yellow"
  | Some 3 => "red"
  | Some 4 => "white"
  | Some 5 => "checkered"
  | Some 6 => "black"
  | Some 7 => "blue"
  | _ => "unknown"
  end.

(** [x || undefined] and [x || y || undefined] on optional strings. *)
Definition or_undefined (x : option string) : option string :=
  if truthy_opt truthy_str x then x else None.

(** The team of the entry list for a car number. *)
Definition team_of_entry (eventEntries : option (list EventEntry)) (n : option string)
  : option string :=
  match eventEntries, n with
  | Some entries, Some number =>
    if truthy_str number then
      match find (fun e => match no e with
                           | Some k => String.eqb k number
                           | None => false
                           end) entries with
      | Some entry => or_undefined (t entry)
      | None => None
      end
    else None
  | _, _ => None
  end.

(** [car.tp?.toString() || '']. *)
Definition transponder_of (r : RedMistCar) : string :=
  or_str (option_map (fun z => toString (Int z)) (Replay.tp (car r))) "".

(** [redmistToUnified(car, sessionState)]: the competitor returned and the
    transponder store afterwards; [eventEntries] is
    [sessionState?.eventEntries]. *)
Definition redmistToUnified (r : RedMistCar) (eventEntries : option (list EventEntry))
           (store : TransponderStore.Store)
  : UnifiedCompetitor * TransponderStore.Store :=
  let teamName := team_of_entry eventEntries (Replay.n (car r)) in
  let transponder := transponder_of r in
  let className :=
    or_undefined (or_else (truthy_opt truthy_str) (Replay.c (car r)) (class r)) in
  let store :=
    if truthy_str transponder && truthy_opt truthy_str (Replay.n (car r)) then
      TransponderStore.set transponder
        {| TransponderStore.new_carNumber := Replay.n (car r);
           TransponderStore.new_redmistEventId := TransponderStore.Absent;
           TransponderStore.new_racemonitorRaceId := TransponderStore.Absent;
           TransponderStore.new_driverName :=
             TransponderStore.Present (or_undefined (Replay.dn (car r)));
           TransponderStore.new_teamName := TransponderStore.Present teamName;
           TransponderStore.new_className := TransponderStore.Present className |}
        store
    else store in
  ({| transponder := transponder;
      carNumber := or_str (Replay.n (car r)) "";
      driverName := or_str (Replay.dn (car r)) "Unknown";
      teamName := teamName;
      className := className;
      position := nullish (nullish_opt (Replay.p (car r)) (Replay.ovp (car r))) (Int 0);
      classPosition := nullish_opt (cp r) (clp r);
      laps :=
        nullish
          (nullish_opt (Replay.l (car r))
                       (Some (parseInt (or_str (Replay.ln (car r)) "0"))))
          (Int 0);
      lastLapTime := UnifiedData.parseTimeToMs (Replay.ltm (car r));
      bestLapTime := UnifiedData.parseTimeToMs (Replay.bt (car r));
      totalTime := Int 0;
      pitCount := nullish_opt (pc r) (pl r);
      inPit := Replay.ip (car r);
      flagStatus := Some (getFlagName (flg r));
      lapHistory := None;
      sources := {| src_is_redmist := Some true; src_is_racemonitor := None |} |},
   store).

End Converters.

Module RaceMonitorStore.
Import Js Unified Converters.

(** The part of the store's state that [mergeWithRedMist] reads and writes. *)
Record State : Type := mkState {
  unifiedCompetitors : list UnifiedCompetitor;
  lapHistoryByTransponder : JsMap.Map (list UnifiedLapData)
}.

(** [redmistCars.map(car => redmistToUnified(car, sessionState))]. *)
Fixpoint convert_all (redmistCars : list RedMistCar) (eventEntries : option (list EventEntry))
         (store : TransponderStore.Store)
  : list UnifiedCompetitor * TransponderStore.Store :=
  match redmistCars with
  | [] => ([], store)
  | r :: rest =>
    let '(comp, store) := redmistToUnified r eventEntries store in
    let '(comps, store) := convert_all rest eventEntries store in
    (comp :: comps, store)
  end.

(** The map [rmByTransponder]. *)
Definition by_transponder (competitors : list UnifiedCompetitor)
  : JsMap.Map UnifiedCompetitor :=
  fold_left (fun m comp =>
               if truthy_str (transponder comp) then JsMap.set (transponder comp) comp m
               else m)
            competitors [].

(** [mergedCar.lapHistory = history]. *)
Definition set_lapHistory (history : option (list UnifiedLapData)) (comp : UnifiedCompetitor)
  : UnifiedCompetitor :=
  {| transponder := transponder comp; carNumber := carNumber comp;
     driverName := driverName comp; teamName := teamName comp;
     className := className comp; position := position comp;
     classPosition := classPosition comp; laps := laps comp;
     lastLapTime := lastLapTime comp; bestLapTime := bestLapTime comp;
     totalTime := totalTime comp; pitCount := pitCount comp; inPit := inPit comp;
     flagStatus := flagStatus comp; lapHistory := history; sources := sources comp |}.

(** The callback of [redmistUnified.map] that merges one car. *)
Definition merge_car (rmByTransponder : JsMap.Map UnifiedCompetitor)
           (lapHistoryByTransponder : JsMap.Map (list UnifiedLapData))
           (rmCar : UnifiedCompetitor) : UnifiedCompetitor :=
  let rmData :=
    if truthy_str (transponder rmCar) then JsMap.get (transponder rmCar) rmByTransponder
    else None in
  match rmData with
  | Some rmData =>
    match mergeCompetitorData (Some rmCar) (Some rmData) with
    | Some mergedCar =>
      if truthy_str (transponder rmCar)
      then set_lapHistory (JsMap.get (transponder rmCar) lapHistoryByTransponder) mergedCar
      else mergedCar
    | None => rmCar
    end
  | None => rmCar
  end.

(** [mergeWithRedMist(redmistCars, sessionState)]: the state and the
    transponder store afterwards. *)
Definition mergeWithRedMist (redmistCars : list RedMistCar)
           (eventEntries : option (list EventEntry))
           (state : State) (store : TransponderStore.Store)
  : State * TransponderStore.Store :=
  let '(redmistUnified, store) := convert_all redmistCars eventEntries store in
  let rmByTransponder := by_transponder (unifiedCompetitors state) in
  let merged := map (merge_car rmByTransponder (lapHistoryByTransponder state)) redmistUnified in
  ({| unifiedCompetitors := merged;
      lapHistoryByTransponder := lapHistoryByTransponder state |},
   store).

End RaceMonitorStore.

(* ===================================================================== *)
(** * lib/racemonitor.ts: times as text, and the lines of the live feed *)
(* ===================================================================== *)

Module RaceMonitor.
Import Js JsText.

(** [parseRMTime(timeStr)]. *)
Definition parseRMTime (timeStr : option string) : num :=
  if negb (truthy_opt truthy_str timeStr) then Int 0
  else
    let parts := split ":"%char (or_str timeStr "") in
    let ms := Int 0 in
    match parts with
    | [mins; secPart] =>
      let '(secs, millis) := Replay.secs_and_ms secPart in
      add (add (scale (parseInt mins) 60000) (scale (parseInt secs) 1000))
          (parseInt (or_str millis "0"))
    | [hours; mins; secPart] =>
      let '(secs, millis) := Replay.secs_and_ms secPart in
      add (add (add (scale (parseInt hours) 3600000) (scale (parseInt mins) 60000))
               (scale (parseInt secs) 1000))
          (parseInt (or_str millis "0"))
    | _ => ms
    end.

Definition pad (n : num) (len : nat) : string := padStart len "0" (toString n).

(** [formatRMTime(ms, includeHours)]. *)
Definition formatRMTime (ms : num) (includeHours : bool) : string :=
  if strict_eq ms (Int 0) then "--:--.---"%string
  else
    let hours := floor_div ms 3600000 in
    let mins := floor_div (remainder ms 3600000) 60000 in
    let secs := floor_div (remainder ms 60000) 1000 in
    let millis := remainder ms 1000 in
    if includeHours || lt (Int 0) hours then
      (pad hours 2 ++ ":" ++ pad mins 2 ++ ":" ++ pad secs 2 ++ "." ++ pad millis 3)%string
    else
      (pad mins 2 ++ ":" ++ pad secs 2 ++ "." ++ pad millis 3)%string.

(** The double quote. *)
Definition quote : ascii := "034"%char.

(** The loop of [parseLine] over the characters left. *)
Fixpoint parseLine_from (chars : string) (parts : list string) (current : string)
         (inQuotes : bool) : list string :=
  match chars with
  | EmptyString => parts ++ [trim current]
  | String char rest =>
    if Ascii.eqb char quote then parseLine_from rest parts current (negb inQuotes)
    else if Ascii.eqb char ","%char && negb inQuotes
    then parseLine_from rest (parts ++ [trim current]) EmptyString inQuotes
    else parseLine_from rest parts (current ++ String char EmptyString) inQuotes
  end.

(** [parseLine(line)]. *)
Definition parseLine (line : string) : list string :=
  parseLine_from line [] EmptyString false.

End RaceMonitor.

(* ===================================================================== *)
(** * The control log component: the order of the entries *)
(* ===================================================================== *)

Module ControlLog.
Import Js.

(** [interface ControlLogEntry]. *)
Record ControlLogEntry : Type := mkControlLogEntry {
  o : Z;                  (* order *)
  t : string;             (* time *)
  cor : option string;    (* corner *)
  c1 : option string;     (* car 1 *)
  c1h : bool;
  c2 : option string;     (* car 2 *)
  c2h : bool;
  n : option string;      (* note *)
  s : option string;      (* status *)
  a : option string;      (* action *)
  on : option string      (* official name *)
}.

(** [[...entries].sort((a, b) => b.o - a.o)]. *)
Definition sortedEntries (entries : list ControlLogEntry) : list ControlLogEntry :=
  sort (fun a b => Int (o b - o a)) entries.

End ControlLog.

(* ===================================================================== *)
(** * The SignalR client: its life cycle *)
(* ===================================================================== *)

Module Lifecycle.
Import Js SignalR.

(** [nextRetryDelayInMilliseconds(retryContext)], from
    [retryContext.previousRetryCount]. *)
Definition nextRetryDelayInMilliseconds (previousRetryCount : Z) : Z :=
  if previousRetryCount =? 0 then 0
  else if previousRetryCount =? 1 then 2000
  else if previousRetryCount =? 2 then 10000
  else 30000.

(** What [connect] throws: the rejection of [connection.start()]. *)
Inductive StartError : Type := StartFailed.

(** [connect()]; [start_resolves] tells whether [connection.start()]
    resolves. *)
Definition connect (start_resolves : bool) (w : World) : option StartError * World :=
  if connection (client w) then (None, w)
  else
    let w := snd (setConnectionState connecting w) in
    let w := snd (set_client (set_connection true) w) in
    if start_resolves then (None, snd (setConnectionState connected w))
    else
      let w := snd (setConnectionState disconnected w) in
      let w := snd (set_client (set_connection false) w) in
      (Some StartFailed, w).

(** [isConnected()]. *)
Definition isConnected (w : World) : bool :=
  match connectionState (client w) with
  | connected => true
  | _ => false
  end.

(** The client as it is constructed. *)
Definition initial : World :=
  {| client := {| connection := false; subscribedEventId := None;
                  subscribedCar := None; connectionState := disconnected |};
     invoked := []; reported := [] |}.

(** What happens to a client: a call of one of its public methods, with
    what the library answers, or an event of the transport, which runs the
    handler registered for it. *)
Inductive Action : Type :=
| Connect (start_resolves : bool)
| Disconnect (stop : Stop)
| SubscribeEvent (eventId : Z)
| UnsubscribeEvent (eventId : Z)
| SubscribeControlLogs (eventId : option Z)
| UnsubscribeControlLogs (eventId : option Z)
| SubscribeCarControlLogs (eventId : Z) (carNumber : string)
| SubscribeInCar (eventId : Z) (carNumber : string)
| UnsubscribeInCar (eventId : Z) (carNumber : string)
| Reconnecting
| Reconnected
| Closed.

Section Hub.
Variable hub : list (HubCall * bool) -> HubCall -> bool.

(** The world after an action has run to its end. *)
Definition perform (a : Action) (w : World) : World :=
  match a with
  | Connect start_resolves => snd (connect start_resolves w)
  | Disconnect stop => snd (disconnect hub stop w)
  | SubscribeEvent e => snd (subscribeToEvent hub e w)
  | UnsubscribeEvent e => snd (unsubscribeFromEvent hub e w)
  | SubscribeControlLogs e => snd (subscribeToControlLogs hub e w)
  | UnsubscribeControlLogs e => snd (unsubscribeFromControlLogs hub e w)
  | SubscribeCarControlLogs e car => snd (subscribeToCarControlLogs hub e car w)
  | SubscribeInCar e car => snd (subscribeToInCarDriverEvent hub e car w)
  | UnsubscribeInCar e car => snd (unsubscribeFromInCarDriverEvent hub e car w)
  | Reconnecting => snd (onreconnecting w)
  | Reconnected => snd (onreconnected hub w)
  | Closed => snd (onclose w)
  end.

(** The transport raises its events on a connection object only. *)
Definition permitted (a : Action) (w : World) : Prop :=
  match a with
  | Reconnecting | Reconnected | Closed => connection (client w) = true
  | _ => True
  end.

(** The worlds a client can be in. *)
Inductive reachable : World -> Prop :=
| reachable_initial : reachable initial
| reachable_step (w : World) (a : Action) :
    reachable w -> permitted a w -> reachable (perform a w).

End Hub.

End Lifecycle.

(* ===================================================================== *)
(** * lib/auth.ts: the automatic refresh *)
(* ===================================================================== *)

Module AutoRefresh.
Import Js Auth.

(** The callback [startAutoRefresh] hands to [setInterval], run at [now]; the
    exchange it waits for, if any, is answered by [answer] at [now'].  The
    error of a failed refresh is logged and dropped. *)
Definition tick (now : Z) (answer : Exchange) (now' : Z) (w : World) : World :=
  match getTimeUntilExpiry now w with
  | Some timeUntilExpiry =>
    if lt timeUntilExpiry (Int 60000) && isConfigured w
    then snd (getToken now answer now' w)
    else w
  | None => w
  end.

End AutoRefresh.


(* ===================================================================== *)
(** * Properties of the JavaScript operators *)
(* ===================================================================== *)

Section JsFacts.
Import Js.

Lemma or_else_assoc {A : Type} (truthy : A -> bool) (x y z : A) :
  or_else truthy (or_else truthy x y) z = or_else truthy x (or_else truthy y z).
Proof.
  unfold or_else. destruct (truthy x) eqn:Hx.
  - now rewrite Hx.
  - reflexivity.
Qed.

Lemma or_else_idem {A : Type} (truthy : A -> bool) (x : A) :
  or_else truthy x x = x.
Proof. unfold or_else. now destruct (truthy x). Qed.

Lemma or_else_sole_left {A : Type} (truthy : A -> bool) (x y : A) :
  truthy x = true -> or_else truthy x y = x.
Proof. unfold or_else. now intros ->. Qed.

Lemma or_else_sole_right {A : Type} (truthy : A -> bool) (x y : A) :
  truthy x = false -> or_else truthy x y = y.
Proof. unfold or_else. now intros ->. Qed.

Lemma Math_max_assoc (x y z : num) :
  Math_max (Math_max x y) z = Math_max x (Math_max y z).
Proof.
  destruct x, y, z; simpl; try reflexivity; f_equal; lia.
Qed.

Lemma Math_max_idem (x : num) : Math_max x x = x.
Proof. destruct x; simpl; try reflexivity; f_equal; lia. Qed.

Lemma Math_min_assoc (x y z : num) :
  Math_min (Math_min x y) z = Math_min x (Math_min y z).
Proof.
  destruct x, y, z; simpl; try reflexivity; f_equal; lia.
Qed.

(** [x || Infinity] is never falsy. *)
Lemma or_Infinity_truthy (x : num) :
  truthy_num (or_else truthy_num x Infinity) = true.
Proof. unfold or_else. now destruct (truthy_num x) eqn:Hx. Qed.

(** The minimum of two truthy numbers is truthy. *)
Lemma Math_min_truthy (x y : num) :
  truthy_num x = true -> truthy_num y = true -> truthy_num (Math_min x y) = true.
Proof.
  destruct x, y; simpl; try easy.
  intros Hx Hy. destruct (Z.min_spec z z0) as [[_ ->] | [_ ->]]; assumption.
Qed.

End JsFacts.

(* ===================================================================== *)
(** * The merge of two unified competitors *)
(* ===================================================================== *)

Section MergeFacts.
Import Js Unified.
Local Open Scope string_scope.

(** A field merged with [||] keeps the value that only one record has. *)
Definition keeps_sole {A : Type} (truthy : A -> bool) (x y r : A) : Prop :=
  (truthy x = true -> truthy y = false -> r = x) /\
  (truthy x = false -> truthy y = true -> r = y).

Lemma or_else_keeps_sole {A : Type} (truthy : A -> bool) (x y : A) :
  keeps_sole truthy x y (or_else truthy x y).
Proof.
  split; intros Hx Hy.
  - now apply or_else_sole_left.
  - now apply or_else_sole_right.
Qed.

Lemma or_else_keeps_sole_flipped {A : Type} (truthy : A -> bool) (x y : A) :
  keeps_sole truthy x y (or_else truthy y x).
Proof.
  split; intros Hx Hy.
  - now apply or_else_sole_right.
  - now apply or_else_sole_left.
Qed.

(** The final [|| 0] of the best lap time is never taken: both arguments of
    [Math.min] are truthy, and so is their minimum. *)
Lemma merge_bestLapTime (a b : UnifiedCompetitor) :
  bestLapTime (merge a b) =
  Math_min (or_else truthy_num (bestLapTime a) Infinity)
           (or_else truthy_num (bestLapTime b) Infinity).
Proof.
  unfold merge; simpl.
  apply or_else_sole_left, Math_min_truthy; apply or_Infinity_truthy.
Qed.

Lemma merge_bestLapTime_truthy (a b : UnifiedCompetitor) :
  truthy_num (bestLapTime (merge a b)) = true.
Proof.
  rewrite merge_bestLapTime. apply Math_min_truthy; apply or_Infinity_truthy.
Qed.

(** X1: three snapshots merged in either grouping agree on the fields merged
    by maximum, by minimum and by [||]. *)
Lemma merge_assoc_fields (a b c : UnifiedCompetitor) :
  let l := merge (merge a b) c in
  let r := merge a (merge b c) in
  laps l = laps r /\ bestLapTime l = bestLapTime r /\
  carNumber l = carNumber r /\ driverName l = driverName r /\
  teamName l = teamName r /\ className l = className r.
Proof.
  cbv zeta. repeat split.
  - unfold merge; simpl. apply Math_max_assoc.
  - rewrite (merge_bestLapTime (merge a b) c), (merge_bestLapTime a (merge b c)).
    rewrite (or_else_sole_left _ (bestLapTime (merge a b))) by apply merge_bestLapTime_truthy.
    rewrite (or_else_sole_left _ (bestLapTime (merge b c))) by apply merge_bestLapTime_truthy.
    rewrite !merge_bestLapTime. apply Math_min_assoc.
  - unfold merge; simpl. apply or_else_assoc.
  - unfold merge; simpl. apply or_else_assoc.
  - unfold merge; simpl. apply or_else_assoc.
  - unfold merge; simpl. apply or_else_assoc.
Qed.

(** X2: merging a record with itself keeps the fields merged by maximum and
    by [||]. *)
Lemma merge_self_fields (a : UnifiedCompetitor) :
  let m := merge a a in
  laps m = laps a /\ carNumber m = carNumber a /\ driverName m = driverName a /\
  teamName m = teamName a /\ className m = className a.
Proof.
  cbv zeta. unfold merge; simpl.
  repeat split; try apply or_else_idem. apply Math_max_idem.
Qed.

(** A record of provider A as [redmistToUnified] builds it, with no best lap
    yet, and the same car as [raceMonitorToUnified] builds it. *)
Definition redmist_car : UnifiedCompetitor :=
  {| transponder := "4021"; carNumber := "77"; driverName := "Unknown";
     teamName := None; className := Some "GT3";
     position := Int 2; classPosition := Some (Int 1); laps := Int 0;
     lastLapTime := Int 0; bestLapTime := Int 0; totalTime := Int 0;
     pitCount := Some (Int 0); inPit := Some false; flagStatus := Some "green";
     lapHistory := None;
     sources := {| src_is_redmist := Some true; src_is_racemonitor := None |} |}.

Definition racemonitor_car : UnifiedCompetitor :=
  {| transponder := "4021"; carNumber := "77"; driverName := "A Driver";
     teamName := Some "Team"; className := Some "GT3";
     position := Int 2; classPosition := None; laps := Int 0;
     lastLapTime := Int 0; bestLapTime := Int 0; totalTime := Int 0;
     pitCount := None; inPit := None; flagStatus := None;
     lapHistory := Some [];
     sources := {| src_is_redmist := None; src_is_racemonitor := Some true |} |}.

(** C5, at the failing input: when neither record has a best lap time (both
    are [0]) the merged best lap time is [Infinity], not [0]; in the other
    cases it is the one non-zero value, or the smaller of the two. *)
Theorem merge_bestLapTime_cases (a b : UnifiedCompetitor) :
  (forall x y, bestLapTime a = Int x -> bestLapTime b = Int y -> x <> 0 -> y <> 0 ->
     bestLapTime (merge a b) = Int (Z.min x y)) /\
  (forall x, bestLapTime a = Int x -> bestLapTime b = Int 0 -> x <> 0 ->
     bestLapTime (merge a b) = Int x) /\
  (forall y, bestLapTime a = Int 0 -> bestLapTime b = Int y -> y <> 0 ->
     bestLapTime (merge a b) = Int y) /\
  (bestLapTime a = Int 0 -> bestLapTime b = Int 0 ->
     bestLapTime (merge a b) = Infinity).
Proof.
  rewrite merge_bestLapTime. unfold or_else.
  repeat split.
  - intros x y -> -> Hx Hy. simpl.
    destruct (Z.eqb_spec x 0); [contradiction|].
    destruct (Z.eqb_spec y 0); [contradiction|]. reflexivity.
  - intros x -> -> Hx. simpl. destruct (Z.eqb_spec x 0); [contradiction|]. reflexivity.
  - intros y -> -> Hy. simpl. destruct (Z.eqb_spec y 0); [contradiction|]. reflexivity.
  - intros -> ->. reflexivity.
Qed.

(** The two records of a car that has set no lap time yet, merged. *)
Lemma merge_without_best_lap :
  bestLapTime redmist_car = Int 0 /\ bestLapTime racemonitor_car = Int 0 /\
  bestLapTime (merge redmist_car racemonitor_car) = Infinity.
Proof. repeat split. Qed.

(** C3, at the failing input: merging the record of a car with no best lap
    time with itself changes its best lap time from [0] to [Infinity]. *)
Theorem merge_self_changes_bestLapTime :
  bestLapTime redmist_car = Int 0 /\
  bestLapTime (merge redmist_car redmist_car) = Infinity.
Proof. split; reflexivity. Qed.

(** C2, as amended: the fields merged with [||] keep the value only one
    record has; [laps] is the maximum; the best lap time keeps the one
    non-zero value; class position, pit count, in-pit flag and flag status
    are those of provider A's record and the lap history is that of provider
    B's record, whatever the other record holds. *)
Theorem merge_field_policy (a b : UnifiedCompetitor) :
  let m := merge a b in
  keeps_sole truthy_str (transponder a) (transponder b) (transponder m) /\
  keeps_sole truthy_str (carNumber a) (carNumber b) (carNumber m) /\
  keeps_sole truthy_str (driverName a) (driverName b) (driverName m) /\
  keeps_sole (truthy_opt truthy_str) (teamName a) (teamName b) (teamName m) /\
  keeps_sole (truthy_opt truthy_str) (className a) (className b) (className m) /\
  keeps_sole truthy_num (position a) (position b) (position m) /\
  keeps_sole truthy_num (lastLapTime a) (lastLapTime b) (lastLapTime m) /\
  keeps_sole truthy_num (totalTime a) (totalTime b) (totalTime m) /\
  keeps_sole truthy_num (bestLapTime a) (bestLapTime b) (bestLapTime m) /\
  laps m = Math_max (laps a) (laps b) /\
  classPosition m = classPosition a /\
  pitCount m = pitCount a /\
  inPit m = inPit a /\
  flagStatus m = flagStatus a /\
  lapHistory m = lapHistory b /\
  sources m = {| src_is_redmist := Some true; src_is_racemonitor := Some true |}.
Proof.
  cbv zeta.
  repeat match goal with |- _ /\ _ => split end;
    try (unfold merge; simpl; first
      [ apply or_else_keeps_sole | apply or_else_keeps_sole_flipped | reflexivity ]).
  rewrite merge_bestLapTime. unfold keeps_sole, or_else.
  split; intros -> ->; simpl.
  - now destruct (bestLapTime a).
  - now destruct (bestLapTime b).
Qed.

(** A lap of provider B's history, and two records of one car: provider A's
    record carries a lap history and no class position, provider B's record
    carries a class position and no lap history. *)
Definition one_lap : UnifiedLapData :=
  {| lap_transponder := "4021"; lap_carNumber := "77"; lapNumber := 1;
     lapTime := Int 90000; lap_position := 2; lap_flagStatus := green;
     lap_totalTime := Int 90000; lap_source := src_racemonitor |}.

Definition record_with_history : UnifiedCompetitor :=
  {| transponder := "4021"; carNumber := "77"; driverName := "A Driver";
     teamName := None; className := None;
     position := Int 2; classPosition := None; laps := Int 1;
     lastLapTime := Int 90000; bestLapTime := Int 90000; totalTime := Int 90000;
     pitCount := None; inPit := None; flagStatus := None;
     lapHistory := Some [one_lap];
     sources := {| src_is_redmist := Some true; src_is_racemonitor := None |} |}.

Definition record_without_history : UnifiedCompetitor :=
  {| transponder := "4021"; carNumber := "77"; driverName := "A Driver";
     teamName := None; className := None;
     position := Int 2; classPosition := Some (Int 1); laps := Int 1;
     lastLapTime := Int 90000; bestLapTime := Int 90000; totalTime := Int 90000;
     pitCount := Some (Int 3); inPit := Some true; flagStatus := Some "yellow";
     lapHistory := None;
     sources := {| src_is_redmist := None; src_is_racemonitor := Some true |} |}.

(** C2, as stated, fails: the lap history present only in the first record
    and the class position, pit count, in-pit flag and flag status present
    only in the second are absent from the merged record. *)
Lemma merge_drops_fields :
  let m := merge record_with_history record_without_history in
  (lapHistory record_with_history = Some [one_lap] /\
   lapHistory record_without_history = None /\ lapHistory m = None) /\
  (classPosition record_with_history = None /\
   classPosition record_without_history = Some (Int 1) /\ classPosition m = None) /\
  (pitCount record_without_history = Some (Int 3) /\ pitCount m = None) /\
  (inPit record_without_history = Some true /\ inPit m = None) /\
  (flagStatus record_without_history = Some "yellow" /\ flagStatus m = None).
Proof. cbv zeta. repeat split; reflexivity. Qed.

End MergeFacts.

(* ===================================================================== *)
(** * The true pace *)
(* ===================================================================== *)

Section PaceFacts.
Import Js Unified.

(** Equality of two numbers of the analysis: both NaN, the same infinity, or
    equal rationals. *)
Definition same_number (x y : number) : Prop :=
  match x, y with
  | Finite p, Finite q => (p == q)%Q
  | PlusInfinity, PlusInfinity => True
  | MinusInfinity, MinusInfinity => True
  | NotANumber, NotANumber => True
  | _, _ => False
  end.


(** The sum of a list of whole times. *)
Definition total (times : list Z) : Z := fold_right Z.add 0 times.


















Definition lap_of (flag : FlagStatus) (ms : num) : UnifiedLapData :=
  {| lap_transponder := "4021"%string; lap_carNumber := "77"%string; lapNumber := 0;
     lapTime := ms; lap_position := 0; lap_flagStatus := flag;
     lap_totalTime := Int 0; lap_source := src_racemonitor |}.








End PaceFacts.

(* ===================================================================== *)
(** * The sort *)
(* ===================================================================== *)

Section SortFacts.
Import Js.
Context {A : Type} (compareFn : A -> A -> num).

(** [a] may stand before [b]: the comparator does not put [a] after [b]. *)
Definition in_order (a b : A) : Prop := sign (compareFn a b) <> Gt.

(** The comparator answers the two orders of a pair oppositely. *)
Definition antisymmetric : Prop :=
  forall a b, sign (compareFn b a) = CompOpp (sign (compareFn a b)).

Lemma insert_from_right_perm (x : A) (l : list A) :
  Permutation (insert_from_right compareFn x l) (x :: l).
Proof.
  induction l as [|y l IH]; simpl.
  - apply Permutation_refl.
  - destruct (sign (compareFn y x)); try apply Permutation_refl.
    eapply perm_trans; [apply perm_skip, IH | apply perm_swap].
Qed.

Lemma sort_fold_perm (l acc : list A) :
  Permutation
    (fold_left (fun rev_sorted x => insert_from_right compareFn x rev_sorted) l acc)
    (l ++ acc).
Proof.
  revert acc. induction l as [|x l IH]; intros acc; simpl.
  - apply Permutation_refl.
  - eapply perm_trans; [apply IH|].
    eapply perm_trans; [apply Permutation_app_head, insert_from_right_perm|].
    apply Permutation_sym, Permutation_middle.
Qed.

(** The sorted array holds the elements of the array, each as often. *)
Lemma sort_perm (l : list A) : Permutation (sort compareFn l) l.
Proof.
  unfold sort. eapply perm_trans; [apply Permutation_sym, Permutation_rev|].
  eapply perm_trans; [apply sort_fold_perm|]. rewrite app_nil_r. apply Permutation_refl.
Qed.

Lemma Sorted_snoc (R : A -> A -> Prop) (m : list A) (b a : A) :
  Sorted R (m ++ [b]) -> R b a -> Sorted R (m ++ [b; a]).
Proof.
  intros Hs Hba. induction m as [|c m IH]; simpl in *.
  - repeat constructor; assumption.
  - inversion Hs as [|? ? Hm Hhd]; subst. constructor; [now apply IH|].
    destruct m; simpl in *; inversion Hhd; subst; now constructor.
Qed.

Lemma Sorted_rev (R : A -> A -> Prop) (l : list A) :
  Sorted (fun u v => R v u) l -> Sorted R (rev l).
Proof.
  induction l as [|a l IH]; intros Hs; simpl; [constructor|].
  inversion Hs as [|? ? Hl Hhd]; subst. specialize (IH Hl).
  destruct l as [|b l]; simpl in *; [repeat constructor|].
  inversion Hhd; subst.
  replace ((rev l ++ [b]) ++ [a]) with (rev l ++ [b; a]) by now rewrite <- app_assoc.
  now apply Sorted_snoc.
Qed.

Hypothesis compareFn_antisymmetric : antisymmetric.

Lemma insert_from_right_sorted (x : A) (l : list A) :
  Sorted (fun u v => in_order v u) l ->
  Sorted (fun u v => in_order v u) (insert_from_right compareFn x l).
Proof.
  induction l as [|y l IH]; intros Hs; simpl.
  - repeat constructor.
  - destruct (sign (compareFn y x)) eqn:Hyx.
    + constructor; [assumption|]. constructor. unfold in_order. now rewrite Hyx.
    + constructor; [assumption|]. constructor. unfold in_order. now rewrite Hyx.
    + inversion Hs as [|? ? Hl Hhd]; subst. constructor; [now apply IH|].
      destruct l as [|z l]; simpl.
      * constructor. unfold in_order. now rewrite compareFn_antisymmetric, Hyx.
      * destruct (sign (compareFn z x)); constructor;
          try (unfold in_order; now rewrite compareFn_antisymmetric, Hyx).
        now inversion Hhd.
Qed.

Lemma sort_fold_sorted (l acc : list A) :
  Sorted (fun u v => in_order v u) acc ->
  Sorted (fun u v => in_order v u)
    (fold_left (fun rev_sorted x => insert_from_right compareFn x rev_sorted) l acc).
Proof.
  revert acc. induction l as [|x l IH]; intros acc Hacc; simpl; [assumption|].
  now apply IH, insert_from_right_sorted.
Qed.

(** In the sorted array each element and the next are in order. *)
Lemma sort_sorted (l : list A) : Sorted in_order (sort compareFn l).
Proof. unfold sort. apply Sorted_rev, sort_fold_sorted. constructor. Qed.

End SortFacts.

(* ===================================================================== *)
(** * The sort under a consistent comparator *)
(* ===================================================================== *)

Section ConsistentSort.
Import Js.
Context {A : Type} (compareFn : A -> A -> num).

(** The conditions the language puts on a comparator, at three elements:
    the result is never NaN; an element compares equal to itself; comparing
    equal is symmetric and transitive; comparing smaller and comparing
    greater are transitive. *)
Definition consistent_at (a b c : A) : bool :=
  match compareFn a b with
  | NaN => false
  | _ => true
  end &&
  match sign (compareFn a a) with
  | Eq => true
  | _ => false
  end &&
  match sign (compareFn a b), sign (compareFn b a) with
  | Eq, Eq => true
  | Eq, _ => false
  | _, _ => true
  end &&
  match sign (compareFn a b), sign (compareFn b c), sign (compareFn a c) with
  | Eq, Eq, Eq => true
  | Lt, Lt, Lt => true
  | Gt, Gt, Gt => true
  | Eq, Eq, _ => false
  | Lt, Lt, _ => false
  | Gt, Gt, _ => false
  | _, _, _ => true
  end.

(** [compareFn] is a consistent comparator for the elements of [s]. *)
Definition consistent (s : list A) : bool :=
  forallb (fun a => forallb (fun b => forallb (fun c => consistent_at a b c) s) s) s.

(** The elements of an array with their indices. *)
Definition indexed (l : list A) : list (nat * A) := combine (seq 0 (List.length l)) l.

(** The comparator on elements that carry their index. *)
Definition compare_indexed (u v : nat * A) : num := compareFn (snd u) (snd v).

(** [u] stands before [v] in the stable sorted order: its element compares
    smaller, or compares equal and came first in the array. *)
Definition stable_before (u v : nat * A) : Prop :=
  sign (compareFn (snd u) (snd v)) = Lt \/
  (sign (compareFn (snd u) (snd v)) = Eq /\ (fst u < fst v)%nat).

(** [out] is the array [l] in the sort order the language defines for a
    consistent comparator: the elements of [l], every one before the
    elements that compare greater, and elements that compare equal in the
    order they have in [l]. *)
Definition stable_sorted (l out : list A) : Prop :=
  exists t, Permutation t (indexed l) /\ out = map snd t /\ StronglySorted stable_before t.

Lemma consistent_spec (s : list A) :
  consistent s = true ->
  forall a b c, In a s -> In b s -> In c s ->
    compareFn a b <> NaN /\
    sign (compareFn a a) = Eq /\
    (sign (compareFn a b) = Eq -> sign (compareFn b a) = Eq) /\
    (sign (compareFn a b) = Eq -> sign (compareFn b c) = Eq -> sign (compareFn a c) = Eq) /\
    (sign (compareFn a b) = Lt -> sign (compareFn b c) = Lt -> sign (compareFn a c) = Lt) /\
    (sign (compareFn a b) = Gt -> sign (compareFn b c) = Gt -> sign (compareFn a c) = Gt).
Proof.
  unfold consistent. intros H a b c Ha Hb Hc.
  rewrite forallb_forall in H. specialize (H a Ha).
  rewrite forallb_forall in H. specialize (H b Hb).
  rewrite forallb_forall in H. specialize (H c Hc).
  unfold consistent_at in H.
  apply andb_prop in H as [H Htrans]. apply andb_prop in H as [H Hsym].
  apply andb_prop in H as [Hnan Hrefl].
  split; [intros E; rewrite E in Hnan; discriminate|].
  split; [destruct (sign (compareFn a a)); [reflexivity | discriminate | discriminate]|].
  destruct (sign (compareFn a b)), (sign (compareFn b a)), (sign (compareFn b c)),
           (sign (compareFn a c));
    repeat split; intros; try reflexivity; try discriminate.
Qed.

Section OnElements.
Variable s : list A.
Hypothesis s_consistent : consistent s = true.

(** The two orders of a pair get opposite answers. *)
Lemma sign_swap (a b : A) :
  In a s -> In b s -> sign (compareFn b a) = CompOpp (sign (compareFn a b)).
Proof.
  intros Ha Hb.
  pose proof (consistent_spec s s_consistent a b a Ha Hb Ha) as (_ & Haa & Hab & _ & Hlt & Hgt).
  pose proof (consistent_spec s s_consistent b a b Hb Ha Hb) as (_ & _ & Hba & _ & _ & _).
  destruct (sign (compareFn a b)), (sign (compareFn b a)); simpl;
    try reflexivity;
    try (specialize (Hab eq_refl); discriminate Hab);
    try (specialize (Hba eq_refl); discriminate Hba);
    try (specialize (Hlt eq_refl eq_refl); congruence);
    try (specialize (Hgt eq_refl eq_refl); congruence).
Qed.

Lemma smaller_then_equal (a b c : A) :
  In a s -> In b s -> In c s ->
  sign (compareFn a b) = Lt -> sign (compareFn b c) = Eq -> sign (compareFn a c) = Lt.
Proof.
  intros Ha Hb Hc Hab Hbc.
  pose proof (sign_swap _ _ Hb Hc) as Hcb. rewrite Hbc in Hcb. simpl in Hcb.
  pose proof (sign_swap _ _ Ha Hc) as Hca.
  pose proof (consistent_spec s s_consistent a c b Ha Hc Hb) as (_ & _ & _ & Heq & _ & _).
  pose proof (consistent_spec s s_consistent c a b Hc Ha Hb) as (_ & _ & _ & _ & Hlt & _).
  destruct (sign (compareFn a c)); simpl in Hca.
  - specialize (Heq eq_refl Hcb). congruence.
  - reflexivity.
  - specialize (Hlt Hca Hab). congruence.
Qed.

Lemma equal_then_smaller (a b c : A) :
  In a s -> In b s -> In c s ->
  sign (compareFn a b) = Eq -> sign (compareFn b c) = Lt -> sign (compareFn a c) = Lt.
Proof.
  intros Ha Hb Hc Hab Hbc.
  pose proof (sign_swap _ _ Ha Hb) as Hba. rewrite Hab in Hba. simpl in Hba.
  pose proof (sign_swap _ _ Ha Hc) as Hca.
  pose proof (consistent_spec s s_consistent b a c Hb Ha Hc) as (_ & _ & _ & Heq & _ & _).
  pose proof (consistent_spec s s_consistent b c a Hb Hc Ha) as (_ & _ & _ & _ & Hlt & _).
  destruct (sign (compareFn a c)); simpl in Hca.
  - specialize (Heq Hba eq_refl). congruence.
  - reflexivity.
  - specialize (Hlt Hbc Hca). congruence.
Qed.

(** Standing in order is transitive on the elements. *)
Lemma in_order_trans (a b c : A) :
  In a s -> In b s -> In c s ->
  in_order compareFn a b -> in_order compareFn b c -> in_order compareFn a c.
Proof.
  unfold in_order. intros Ha Hb Hc Hab Hbc.
  pose proof (consistent_spec s s_consistent a b c Ha Hb Hc) as (_ & _ & _ & Heq & Hlt & _).
  pose proof (smaller_then_equal a b c Ha Hb Hc) as Hle.
  pose proof (equal_then_smaller a b c Ha Hb Hc) as Hel.
  destruct (sign (compareFn a b)), (sign (compareFn b c)); try congruence.
  - rewrite Heq; [discriminate | reflexivity | reflexivity].
  - rewrite Hel; [discriminate | reflexivity | reflexivity].
  - rewrite Hle; [discriminate | reflexivity | reflexivity].
  - rewrite Hlt; [discriminate | reflexivity | reflexivity].
Qed.

Lemma stable_before_trans (u v w : nat * A) :
  In (snd u) s -> In (snd v) s -> In (snd w) s ->
  stable_before u v -> stable_before v w -> stable_before u w.
Proof.
  unfold stable_before. intros Hu Hv Hw Huv Hvw.
  pose proof (consistent_spec s s_consistent _ _ _ Hu Hv Hw) as (_ & _ & _ & Heq & Hlt & _).
  destruct Huv as [Huv | [Huv Hi]], Hvw as [Hvw | [Hvw Hj]].
  - left. now apply Hlt.
  - left. now apply (smaller_then_equal _ _ _ Hu Hv Hw).
  - left. now apply (equal_then_smaller _ _ _ Hu Hv Hw).
  - right. split; [now apply Heq | lia].
Qed.

Lemma stable_before_asym (u v : nat * A) :
  In (snd u) s -> In (snd v) s -> stable_before u v -> stable_before v u -> False.
Proof.
  unfold stable_before. intros Hu Hv Huv Hvu.
  pose proof (sign_swap _ _ Hu Hv) as Hswap.
  destruct Huv as [Huv | [Huv Hi]], Hvu as [Hvu | [Hvu Hj]];
    rewrite Huv, Hvu in Hswap; simpl in Hswap; try discriminate. lia.
Qed.

End OnElements.
End ConsistentSort.

Section StableSort.
Import Js.
Context {A : Type} (compareFn : A -> A -> num).

Lemma StronglySorted_snoc {B : Type} (R : B -> B -> Prop) (m : list B) (a : B) :
  StronglySorted R m -> Forall (fun x => R x a) m -> StronglySorted R (m ++ [a]).
Proof.
  induction m as [|b m IH]; intros Hs Hall; simpl.
  - repeat constructor.
  - inversion Hs as [|? ? Hm Hb]; subst. inversion Hall as [|? ? Hba Hma]; subst.
    constructor; [now apply IH|].
    apply Forall_app. split; [assumption | now repeat constructor].
Qed.

Lemma StronglySorted_rev {B : Type} (R : B -> B -> Prop) (l : list B) :
  StronglySorted (fun u v => R v u) l -> StronglySorted R (rev l).
Proof.
  induction l as [|a l IH]; intros Hs; simpl; [constructor|].
  inversion Hs as [|? ? Hl Ha]; subst.
  apply StronglySorted_snoc; [now apply IH|].
  apply Forall_forall. intros x Hx. rewrite Forall_forall in Ha.
  apply Ha. now apply in_rev.
Qed.

Lemma StronglySorted_weaken {B : Type} (R R' : B -> B -> Prop) (l : list B) :
  (forall a b, In a l -> In b l -> R a b -> R' a b) ->
  StronglySorted R l -> StronglySorted R' l.
Proof.
  induction l as [|a l IH]; intros Himp Hs; [constructor|].
  inversion Hs as [|? ? Hl Ha]; subst. constructor.
  - apply IH; [|assumption]. intros x y Hx Hy. apply Himp; now right.
  - rewrite Forall_forall in *. intros x Hx. apply Himp; [now left | now right | now apply Ha].
Qed.

(** Two arrangements of the same elements, each ordered by a relation that
    never orders a pair both ways, are the same list. *)
Lemma StronglySorted_unique {B : Type} (R : B -> B -> Prop) (t t' : list B) :
  (forall u v, In u t -> In v t -> R u v -> R v u -> False) ->
  Permutation t t' -> StronglySorted R t -> StronglySorted R t' -> t = t'.
Proof.
  revert t'. induction t as [|x r IH]; intros t' Hasym Hperm Hs Hs'.
  - apply Permutation_nil in Hperm. now subst.
  - destruct t' as [|x' r'].
    { apply Permutation_sym, Permutation_nil in Hperm. discriminate. }
    inversion Hs as [|? ? Hr Hx]; subst. inversion Hs' as [|? ? Hr' Hx']; subst.
    assert (Heq : x = x').
    { assert (Hin : In x (x' :: r'))
        by (eapply Permutation_in; [exact Hperm | now left]).
      assert (Hin' : In x' (x :: r))
        by (eapply Permutation_in; [apply Permutation_sym; exact Hperm | now left]).
      destruct Hin as [Heq | Hin]; [now symmetry|].
      destruct Hin' as [Heq | Hin']; [assumption|].
      rewrite Forall_forall in Hx, Hx'.
      exfalso. apply (Hasym x x'); [now left | now right | now apply Hx | now apply Hx']. }
    subst x'. f_equal. apply IH; try assumption.
    + intros u v Hu Hv. apply Hasym; now right.
    + now apply Permutation_cons_inv in Hperm.
Qed.

Lemma insert_from_right_map {B : Type} (f : B -> A) (x : B) (acc : list B) :
  map f (insert_from_right (fun u v => compareFn (f u) (f v)) x acc)
  = insert_from_right compareFn (f x) (map f acc).
Proof.
  induction acc as [|y acc IH]; [reflexivity|].
  simpl. destruct (sign (compareFn (f y) (f x))); simpl; now rewrite ?IH.
Qed.

Lemma sort_fold_map {B : Type} (f : B -> A) (l acc : list B) :
  map f (fold_left (fun rev_sorted x =>
                      insert_from_right (fun u v => compareFn (f u) (f v)) x rev_sorted)
                   l acc)
  = fold_left (fun rev_sorted x => insert_from_right compareFn x rev_sorted)
              (map f l) (map f acc).
Proof.
  revert acc. induction l as [|x l IH]; intros acc; [reflexivity|].
  simpl. now rewrite IH, insert_from_right_map.
Qed.

(** Sorting the elements is sorting them with their indices attached. *)
Lemma sort_map {B : Type} (f : B -> A) (l : list B) :
  sort compareFn (map f l) = map f (sort (fun u v => compareFn (f u) (f v)) l).
Proof. unfold sort. now rewrite map_rev, sort_fold_map. Qed.

Lemma map_snd_combine_seq (l : list A) (k : nat) :
  map snd (combine (seq k (List.length l)) l) = l.
Proof.
  revert k. induction l as [|x l IH]; intros k; [reflexivity|].
  simpl. now rewrite IH.
Qed.

Lemma indexed_elements (l : list A) (u : nat * A) : In u (indexed l) -> In (snd u) l.
Proof. destruct u as [i a]. unfold indexed. apply in_combine_r. Qed.

Section OnElements.
Variable s : list A.
Hypothesis s_consistent : consistent compareFn s = true.

(** The elements, with indices below [k]. *)
Definition seen (k : nat) (acc : list (nat * A)) : Prop :=
  forall u, In u acc -> (fst u < k)%nat /\ In (snd u) s.

Lemma insert_from_right_stable (x : nat * A) (acc : list (nat * A)) :
  In (snd x) s -> seen (fst x) acc ->
  StronglySorted (fun u v => stable_before compareFn v u) acc ->
  StronglySorted (fun u v => stable_before compareFn v u)
                 (insert_from_right (compare_indexed compareFn) x acc).
Proof.
  intros Hx. induction acc as [|y acc IH]; intros Hseen Hs; simpl.
  - repeat constructor.
  - inversion Hs as [|? ? Hacc Hy]; subst.
    destruct (Hseen y (or_introl eq_refl)) as [Hiy Hys].
    assert (Hseen' : seen (fst x) acc) by (intros u Hu; apply Hseen; now right).
    unfold compare_indexed at 1.
    destruct (sign (compareFn (snd y) (snd x))) eqn:Hyx.
    + constructor; [assumption|]. constructor.
      * right. now split.
      * rewrite Forall_forall in *. intros z Hz.
        destruct (Hseen' z Hz) as [_ Hzs].
        apply (stable_before_trans compareFn s s_consistent z y x); try assumption.
        -- now apply Hy.
        -- right. now split.
    + constructor; [assumption|]. constructor.
      * now left.
      * rewrite Forall_forall in *. intros z Hz.
        destruct (Hseen' z Hz) as [_ Hzs].
        apply (stable_before_trans compareFn s s_consistent z y x); try assumption.
        -- now apply Hy.
        -- now left.
    + constructor; [now apply IH|].
      rewrite Forall_forall in *. intros z Hz.
      apply (Permutation_in _ (insert_from_right_perm _ x acc)) in Hz.
      destruct Hz as [<- | Hz]; [|now apply Hy].
      left. rewrite (sign_swap compareFn s s_consistent _ _ Hys Hx), Hyx. reflexivity.
Qed.

Lemma sort_fold_stable (l : list A) (k : nat) (acc : list (nat * A)) :
  incl l s -> seen k acc ->
  StronglySorted (fun u v => stable_before compareFn v u) acc ->
  StronglySorted (fun u v => stable_before compareFn v u)
    (fold_left (fun rev_sorted x => insert_from_right (compare_indexed compareFn) x rev_sorted)
               (combine (seq k (List.length l)) l) acc).
Proof.
  revert k acc. induction l as [|x l IH]; intros k acc Hl Hseen Hs; [exact Hs|].
  cbn [List.length seq combine fold_left].
  assert (Hx : In x s) by (apply Hl; now left).
  apply IH.
  - intros y Hy. apply Hl. now right.
  - intros u Hu.
    apply (Permutation_in _ (insert_from_right_perm _ (k, x) acc)) in Hu.
    destruct Hu as [<- | Hu]; [simpl; split; [lia | assumption]|].
    destruct (Hseen u Hu). split; [lia | assumption].
  - apply insert_from_right_stable; assumption.
Qed.

End OnElements.

(** For a consistent comparator the model returns the array in the sort
    order of the language. *)
Lemma sort_stable_sorted (l : list A) :
  consistent compareFn l = true -> stable_sorted compareFn l (sort compareFn l).
Proof.
  intros Hl. exists (sort (compare_indexed compareFn) (indexed l)).
  split; [apply sort_perm|]. split.
  - unfold compare_indexed. rewrite <- sort_map. unfold indexed.
    now rewrite map_snd_combine_seq.
  - unfold sort, indexed. apply StronglySorted_rev.
    apply (sort_fold_stable l Hl).
    + apply incl_refl.
    + intros u [].
    + constructor.
Qed.

(** That order is one arrangement of the array: whatever sorts the array
    returns it. *)
Lemma stable_sorted_unique (l out out' : list A) :
  consistent compareFn l = true ->
  stable_sorted compareFn l out -> stable_sorted compareFn l out' -> out = out'.
Proof.
  intros Hl (t & Hperm & -> & Hs) (t' & Hperm' & -> & Hs').
  f_equal. apply (StronglySorted_unique (stable_before compareFn)); try assumption.
  - intros u v Hu Hv.
    apply (stable_before_asym compareFn l Hl);
      apply indexed_elements, (Permutation_in _ Hperm); assumption.
  - eapply perm_trans; [exact Hperm | apply Permutation_sym, Hperm'].
Qed.

Lemma StronglySorted_map {B C : Type} (f : B -> C) (R : B -> B -> Prop)
      (R' : C -> C -> Prop) (t : list B) :
  (forall u v, R u v -> R' (f u) (f v)) ->
  StronglySorted R t -> StronglySorted R' (map f t).
Proof.
  intros Himp. induction 1 as [|u t Ht IH Hu]; simpl; constructor; [assumption|].
  rewrite Forall_forall in *. intros c Hc.
  apply in_map_iff in Hc as (v & <- & Hv). now apply Himp, Hu.
Qed.

(** In that order every element is in order with all the later ones. *)
Lemma stable_sorted_in_order (l out : list A) :
  stable_sorted compareFn l out -> StronglySorted (in_order compareFn) out.
Proof.
  intros (t & _ & -> & Hs). revert Hs. apply StronglySorted_map.
  unfold stable_before, in_order. intros u v [H | [H _]]; rewrite H; discriminate.
Qed.

(** A comparator that follows a lexicographic order of three whole keys. *)
Definition lexicographic (k k' : Z * Z * Z) : comparison :=
  let '(x, q, t) := k in
  let '(y, r, u) := k' in
  match x ?= y with
  | Eq =>
    match q ?= r with
    | Eq => t ?= u
    | other => other
    end
  | other => other
  end.

Lemma lexicographic_Eq (k k' : Z * Z * Z) : lexicographic k k' = Eq <-> k = k'.
Proof.
  destruct k as [[x q] t], k' as [[y r] u]. simpl.
  destruct (Z.compare_spec x y), (Z.compare_spec q r), (Z.compare_spec t u);
    split; intros Hlex; try discriminate; try reflexivity;
    try (injection Hlex; intros; lia); subst; reflexivity.
Qed.

Lemma lexicographic_Lt (k k' : Z * Z * Z) :
  lexicographic k k' = Lt <->
  (let '(x, q, t) := k in
   let '(y, r, u) := k' in
   x < y \/ (x = y /\ (q < r \/ (q = r /\ t < u)))).
Proof.
  destruct k as [[x q] t], k' as [[y r] u]. simpl.
  destruct (Z.compare_spec x y), (Z.compare_spec q r), (Z.compare_spec t u);
    split; intros Hlex; try discriminate; try reflexivity; lia.
Qed.

Lemma lexicographic_swap (k k' : Z * Z * Z) :
  lexicographic k' k = CompOpp (lexicographic k k').
Proof.
  destruct k as [[x q] t], k' as [[y r] u]. simpl.
  rewrite (Z.compare_antisym x y), (Z.compare_antisym q r), (Z.compare_antisym t u).
  destruct (x ?= y), (q ?= r), (t ?= u); reflexivity.
Qed.

Lemma lexicographic_Lt_trans (k1 k2 k3 : Z * Z * Z) :
  lexicographic k1 k2 = Lt -> lexicographic k2 k3 = Lt -> lexicographic k1 k3 = Lt.
Proof.
  rewrite !lexicographic_Lt.
  destruct k1 as [[x1 q1] t1], k2 as [[x2 q2] t2], k3 as [[x3 q3] t3]. lia.
Qed.

Lemma lexicographic_consistent (key : A -> Z * Z * Z) (s : list A) :
  (forall a b, In a s -> In b s ->
     compareFn a b <> NaN /\ sign (compareFn a b) = lexicographic (key a) (key b)) ->
  consistent compareFn s = true.
Proof.
  intros Hkey. unfold consistent.
  apply forallb_forall. intros a Ha. apply forallb_forall. intros b Hb.
  apply forallb_forall. intros c Hc.
  destruct (Hkey a b Ha Hb) as [Hnan Hab].
  destruct (Hkey a a Ha Ha) as [_ Haa].
  destruct (Hkey b a Hb Ha) as [_ Hba].
  destruct (Hkey b c Hb Hc) as [_ Hbc].
  destruct (Hkey a c Ha Hc) as [_ Hac].
  unfold consistent_at. rewrite Hab, Haa, Hba, Hbc, Hac.
  replace (lexicographic (key a) (key a)) with Eq
    by (symmetry; now apply lexicographic_Eq).
  rewrite (lexicographic_swap (key a) (key b)).
  destruct (compareFn a b); try (exfalso; now apply Hnan); simpl;
    destruct (lexicographic (key a) (key b)) eqn:Eab;
    destruct (lexicographic (key b) (key c)) eqn:Ebc; simpl; try reflexivity.
  all: try (apply lexicographic_Eq in Eab, Ebc; rewrite Eab, Ebc;
            replace (lexicographic (key c) (key c)) with Eq
              by (symmetry; now apply lexicographic_Eq); reflexivity).
  all: try (now rewrite (lexicographic_Lt_trans _ _ _ Eab Ebc)).
  all: rewrite (lexicographic_swap (key c) (key a));
       assert (Hcb : lexicographic (key c) (key b) = Lt)
         by (rewrite lexicographic_swap, Ebc; reflexivity);
       assert (Hba' : lexicographic (key b) (key a) = Lt)
         by (rewrite lexicographic_swap, Eab; reflexivity);
       now rewrite (lexicographic_Lt_trans _ _ _ Hcb Hba').
Qed.

End StableSort.

(* ===================================================================== *)
(** * The replay snapshot: its order *)
(* ===================================================================== *)

Section ReplayOrder.
Import Js Replay.

Lemma strict_ne_sym (x y : num) : strict_ne x y = strict_ne y x.
Proof.
  unfold strict_ne. destruct x, y; simpl; try reflexivity. now rewrite Z.eqb_sym.
Qed.

Lemma sign_sub_swap (x y : num) : sign (sub y x) = CompOpp (sign (sub x y)).
Proof.
  destruct x as [a| | |], y as [b| | |]; simpl; try reflexivity.
  destruct (Z.compare_spec (b + - a) 0), (Z.compare_spec (a + - b) 0);
    simpl; try reflexivity; lia.
Qed.

Lemma sign_sub_Int (x y : Z) : sign (sub (Int x) (Int y)) = (x ?= y)%Z.
Proof.
  simpl. destruct (Z.compare_spec (x + - y) 0), (Z.compare_spec x y);
    try reflexivity; lia.
Qed.

Lemma compareCars_antisymmetric : antisymmetric compareCars.
Proof.
  intros a b. unfold compareCars. cbv zeta.
  rewrite (strict_ne_sym (lapsCompleted b) (lapsCompleted a)).
  destruct (strict_ne (lapsCompleted a) (lapsCompleted b)); [apply sign_sub_swap|].
  rewrite (strict_ne_sym (recordedPosition b) (recordedPosition a)).
  destruct (strict_ne (recordedPosition a) (recordedPosition b)),
           (strict_ne (recordedPosition a) (Int 999)),
           (strict_ne (recordedPosition b) (Int 999)); simpl; apply sign_sub_swap.
Qed.

(** The comparison rule of the sort, case by case. *)
Definition comparison_rule (a b : CarPosition) : Prop :=
  (forall x y, lapsCompleted a = Int x -> lapsCompleted b = Int y -> x <> y ->
     sign (compareCars a b) = (y ?= x)) /\
  (forall x q r, lapsCompleted a = Int x -> lapsCompleted b = Int x ->
     recordedPosition a = Int q -> recordedPosition b = Int r ->
     q <> r -> q <> 999 -> r <> 999 ->
     sign (compareCars a b) = (q ?= r)) /\
  (forall x q r, lapsCompleted a = Int x -> lapsCompleted b = Int x ->
     recordedPosition a = Int q -> recordedPosition b = Int r ->
     q = r \/ q = 999 \/ r = 999 ->
     compareCars a b = sub (parseLapTimeToMs (ltm a)) (parseLapTimeToMs (ltm b))).

Lemma compareCars_rule (a b : CarPosition) : comparison_rule a b.
Proof.
  unfold comparison_rule, compareCars. cbv zeta. repeat split.
  - intros x y -> -> Hxy. unfold strict_ne; simpl strict_eq.
    destruct (Z.eqb_spec x y); [contradiction|]. simpl negb. cbv iota.
    apply sign_sub_Int.
  - intros x q r -> -> -> -> Hqr Hq Hr. unfold strict_ne; simpl strict_eq.
    rewrite Z.eqb_refl. simpl negb. cbv iota.
    destruct (Z.eqb_spec q r); [contradiction|].
    destruct (Z.eqb_spec q 999); [contradiction|].
    destruct (Z.eqb_spec r 999); [contradiction|].
    simpl andb. cbv iota. apply sign_sub_Int.
  - intros x q r -> -> -> -> H. unfold strict_ne; simpl strict_eq.
    rewrite Z.eqb_refl. simpl negb. cbv iota.
    destruct (Z.eqb_spec q r), (Z.eqb_spec q 999), (Z.eqb_spec r 999);
      simpl andb; cbv iota; try reflexivity.
    exfalso; destruct H as [H | [H | H]]; contradiction.
Qed.

(** A car that stands in order before another has not completed fewer laps. *)
Lemma in_order_laps (a b : CarPosition) :
  in_order compareCars a b -> lt (lapsCompleted a) (lapsCompleted b) = false.
Proof.
  unfold in_order, compareCars. cbv zeta.
  destruct (lapsCompleted a) as [x| | |], (lapsCompleted b) as [y| | |];
    unfold strict_ne; simpl; try reflexivity; try (intros H; now contradiction H).
  destruct (Z.eqb_spec x y) as [->|Hne]; simpl negb; cbv iota.
  - intros _. apply Z.ltb_irrefl.
  - change (Int (y + - x)) with (sub (Int y) (Int x)). rewrite sign_sub_Int.
    intros H. apply Z.ltb_ge. destruct (Z.compare_spec y x); try lia. congruence.
Qed.

(** The lap count, the recorded position and the lap time of a candidate are
    whole numbers. *)
Definition recorded (car : CarPosition) : bool :=
  match lapsCompleted car, recordedPosition car, parseLapTimeToMs (ltm car) with
  | Int _, Int _, Int _ => true
  | _, _, _ => false
  end.

(** The recorded position of a candidate is not the sentinel. *)
Definition position_known (car : CarPosition) : bool :=
  strict_ne (recordedPosition car) (Int 999).

(** Every candidate is recorded, and the recorded positions are all known
    or all unknown. *)
Definition uniform_positions (cars : list CarPosition) : bool :=
  forallb recorded cars &&
  (forallb position_known cars || forallb (fun car => negb (position_known car)) cars).

(** The keys that order such candidates: laps completed, descending, then
    recorded position, then lap time. *)
Definition sort_keys (car : CarPosition) : Z * Z * Z :=
  match lapsCompleted car, recordedPosition car, parseLapTimeToMs (ltm car) with
  | Int x, Int q, Int t => (- x, q, t)
  | _, _, _ => (0, 0, 0)
  end.

(** On such candidates the comparison is consistent. *)
Lemma uniform_positions_consistent (cars : list CarPosition) :
  uniform_positions cars = true -> consistent compareCars cars = true.
Proof.
  unfold uniform_positions. intros H. apply andb_prop in H as [Hrec Hpos].
  rewrite forallb_forall in Hrec.
  assert (Hsame : forall a b, In a cars -> In b cars -> position_known a = position_known b).
  { intros a b Ha Hb. apply orb_prop in Hpos as [Hpos|Hpos];
      rewrite forallb_forall in Hpos;
      pose proof (Hpos a Ha) as Hka; pose proof (Hpos b Hb) as Hkb.
    - congruence.
    - destruct (position_known a), (position_known b); try reflexivity; discriminate. }
  apply (lexicographic_consistent compareCars sort_keys). intros a b Ha Hb.
  pose proof (Hrec a Ha) as Hra. pose proof (Hrec b Hb) as Hrb.
  pose proof (Hsame a b Ha Hb) as Hk.
  unfold recorded, position_known, sort_keys, compareCars in *. cbv zeta.
  destruct (lapsCompleted a) as [x| | |]; try discriminate Hra.
  destruct (recordedPosition a) as [q| | |]; try discriminate Hra.
  destruct (parseLapTimeToMs (ltm a)) as [t| | |]; try discriminate Hra.
  destruct (lapsCompleted b) as [y| | |]; try discriminate Hrb.
  destruct (recordedPosition b) as [r| | |]; try discriminate Hrb.
  destruct (parseLapTimeToMs (ltm b)) as [u| | |]; try discriminate Hrb.
  unfold strict_ne in *. simpl strict_eq in *. cbn [lexicographic].
  destruct (Z.eqb_spec x y) as [Hxy|Hxy]; simpl negb; cbv iota.
  - replace (- x ?= - y) with Eq by (symmetry; apply Z.compare_eq_iff; lia).
    destruct (Z.eqb_spec q r) as [Hqr|Hqr]; simpl negb; simpl andb; cbv iota.
    + replace (q ?= r) with Eq by (symmetry; now apply Z.compare_eq_iff).
      split; [discriminate | apply sign_sub_Int].
    + destruct (Z.eqb_spec q 999) as [Hq|Hq], (Z.eqb_spec r 999) as [Hr|Hr];
        simpl in Hk; try discriminate Hk; try lia; simpl negb; simpl andb; cbv iota.
      split; [discriminate|]. rewrite sign_sub_Int.
      destruct (Z.compare_spec q r); try reflexivity. contradiction.
  - split; [discriminate|]. rewrite sign_sub_Int, <- Z.compare_opp.
    destruct (Z.compare_spec (- x) (- y)); try reflexivity. lia.
Qed.

Lemma assign_positions_nth (cars : list CarPosition) (index : Z) (i : nat) :
  nth_error (assign_positions index cars) i =
  option_map (fun car => set_display_position car (index + Z.of_nat i)) (nth_error cars i).
Proof.
  revert index i. induction cars as [|car cars IH]; intros index i.
  - now destruct i.
  - destruct i as [|i]; simpl.
    + now rewrite Z.add_0_r.
    + rewrite IH. destruct (nth_error cars i); simpl; [|reflexivity].
      do 2 f_equal. lia.
Qed.

Lemma assign_positions_n (cars : list CarPosition) (index : Z) :
  map n (assign_positions index cars) = map n cars.
Proof.
  revert index. induction cars as [|car cars IH]; intros index; simpl; [reflexivity|].
  now rewrite IH.
Qed.

(** C6, as amended: the snapshot holds the candidates, each once, the car at
    index [i] displayed at position [i + 1] whatever its recorded position.
    The pairwise comparison of the sort is "more laps completed first; on
    equal laps the smaller recorded position first when both are known (not
    999) and differ; otherwise the smaller lap time first".  When that
    comparison is a consistent comparator on the candidates, as it is when
    every candidate has whole numbers for lap count, position and lap time
    and the positions are all known or all unknown, the snapshot is the sort
    order of the language for it: every car is in the order of the
    comparison with every later car, no car has completed fewer laps than a
    later one, cars that compare equal keep the order of the candidates, and
    no other arrangement of the candidates has these properties. *)
Theorem replay_snapshot_order (lap : Z) (lapData : list CarLapData) :
  let candidates := collect lap lapData in
  let sorted := sort compareCars candidates in
  let snapshot := positionsAtLap lap lapData in
  (forall a b, comparison_rule a b) /\
  Permutation sorted candidates /\
  (forall i, nth_error snapshot i =
             option_map (fun car => set_display_position car (Z.of_nat i))
                        (nth_error sorted i)) /\
  (forall i car, nth_error snapshot i = Some car ->
     p car = Some (Int (Z.of_nat i + 1)) /\ ovp car = Some (Int (Z.of_nat i + 1))) /\
  (uniform_positions candidates = true -> consistent compareCars candidates = true) /\
  (consistent compareCars candidates = true ->
     StronglySorted (in_order compareCars) sorted /\
     StronglySorted (fun a b => lt (lapsCompleted a) (lapsCompleted b) = false) sorted /\
     stable_sorted compareCars candidates sorted /\
     (forall out, stable_sorted compareCars candidates out -> out = sorted)).
Proof.
  cbv zeta. split; [intros a b; apply compareCars_rule|].
  split; [apply sort_perm|]. split; [|split; [|split]].
  - intros i. unfold positionsAtLap. now rewrite assign_positions_nth.
  - intros i car H. unfold positionsAtLap in H. rewrite assign_positions_nth in H.
    destruct (nth_error (sort compareCars (collect lap lapData)) i); [|discriminate].
    injection H as <-. split; reflexivity.
  - apply uniform_positions_consistent.
  - intros Hcons.
    pose proof (sort_stable_sorted compareCars _ Hcons) as Hstable.
    pose proof (stable_sorted_in_order compareCars _ _ Hstable) as Hsorted.
    split; [exact Hsorted|]. split; [|split; [exact Hstable|]].
    + revert Hsorted. apply StronglySorted_weaken.
      intros a b _ _. apply in_order_laps.
    + intros out Hout.
      exact (stable_sorted_unique compareCars _ _ _ Hcons Hout Hstable).
Qed.

End ReplayOrder.

(* ===================================================================== *)
(** * The replay snapshot: its cars *)
(* ===================================================================== *)

Section ReplayCars.
Import Js Replay.

(** The fields of [e] that no step of the reconstruction writes are those
    of the record [r]. *)
Definition copies (e r : CarPosition) : Prop :=
  ln e = ln r /\ llo e = llo r /\ llp e = llp r /\ ltm e = ltm r /\
  tp e = tp r /\ bt e = bt r /\ dn e = dn r /\ ip e = ip r.

(** [e] shows the car [carData] with its record [r], found for the lap. *)
Definition shown_with (carData : CarLapData) (r e : CarPosition) : Prop :=
  n e = Some (carNumber carData) /\ c e = className carData /\
  l e = l r /\ copies e r.

(** [e] shows the car [carData] with its last record [r] carried forward,
    annotated with the lap number that record states. *)
Definition carried_forward (carData : CarLapData) (r e : CarPosition) : Prop :=
  n e = Some (carNumber carData) /\ c e = className carData /\ copies e r /\
  (forall k, l r = Some k -> l e = Some k) /\
  (forall s, l r = None -> ln r = Some s -> s <> EmptyString -> l e = Some (parseInt s)).

(** The car has a lap record. *)
Definition has_history (carData : CarLapData) : bool :=
  match laps carData with
  | [] => false
  | _ :: _ => true
  end.

(** The last record of a history. *)
Definition last_record (history : list CarPosition) : option CarPosition :=
  at_index history (Z.of_nat (List.length history) - 1).

Lemma at_index_Some (history : list CarPosition) (i : Z) (r : CarPosition) :
  at_index history i = Some r -> 0 <= i < Z.of_nat (List.length history).
Proof.
  unfold at_index. destruct (Z.ltb_spec i 0) as [Hneg|Hpos]; [discriminate|].
  intros Hnth.
  assert (Hlt : (Z.to_nat i < List.length history)%nat).
  { apply nth_error_Some. congruence. }
  lia.
Qed.

Lemma last_record_Some (history : list CarPosition) :
  history <> [] -> exists r, last_record history = Some r.
Proof.
  intros Hne. unfold last_record, at_index.
  destruct history as [|r0 history]; [contradiction|].
  destruct (Z.ltb_spec (Z.of_nat (List.length (r0 :: history)) - 1) 0);
    [simpl List.length in *; lia|].
  destruct (nth_error (r0 :: history)
              (Z.to_nat (Z.of_nat (List.length (r0 :: history)) - 1))) eqn:E;
    [now eexists|].
  apply nth_error_None in E. simpl List.length in *. lia.
Qed.

(** The record found by direct index lookup. *)
Lemma entry_at_lap_index (lap : Z) (carData : CarLapData) (r : CarPosition) :
  at_index (laps carData) (lap - 1) = Some r ->
  entry_at_lap lap carData = Some (found_entry carData r).
Proof.
  intros H. pose proof (at_index_Some _ _ _ H) as Hi.
  unfold entry_at_lap. cbv zeta.
  destruct (Z.geb_spec (Z.of_nat (List.length (laps carData))) lap); [|lia].
  now rewrite H.
Qed.

(** The record found by its explicit lap number, in a shorter history. *)
Lemma entry_at_lap_search (lap : Z) (carData : CarLapData) (r : CarPosition) :
  Z.of_nat (List.length (laps carData)) < lap ->
  find_lap lap (laps carData) = Some r ->
  entry_at_lap lap carData = Some (found_entry carData r).
Proof.
  intros Hlen H. unfold entry_at_lap. cbv zeta.
  destruct (Z.geb_spec (Z.of_nat (List.length (laps carData))) lap); [lia|].
  now rewrite H.
Qed.

(** The last record carried forward. *)
Lemma entry_at_lap_carry (lap : Z) (carData : CarLapData) (r : CarPosition) :
  Z.of_nat (List.length (laps carData)) < lap ->
  find_lap lap (laps carData) = None ->
  last_record (laps carData) = Some r ->
  entry_at_lap lap carData = Some (carried_entry carData r).
Proof.
  intros Hlen Hfind Hlast. unfold entry_at_lap. cbv zeta.
  destruct (Z.geb_spec (Z.of_nat (List.length (laps carData))) lap); [lia|].
  rewrite Hfind. unfold last_record in Hlast.
  pose proof (at_index_Some _ _ _ Hlast) as Hi.
  destruct (Z.ltb_spec 0 (Z.of_nat (List.length (laps carData)))); [|lia].
  destruct (Z.ltb_spec (Z.of_nat (List.length (laps carData))) lap); [|lia].
  simpl andb. cbv iota. now rewrite Hlast.
Qed.

(** From lap 1 on, a car is a candidate exactly when it has a history. *)
Lemma entry_at_lap_has_history (lap : Z) (carData : CarLapData) :
  1 <= lap ->
  match entry_at_lap lap carData with
  | Some e => has_history carData = true /\ n e = Some (carNumber carData)
  | None => has_history carData = false
  end.
Proof.
  intros Hlap. unfold has_history.
  destruct (laps carData) as [|r0 history] eqn:Ehist.
  - unfold entry_at_lap. rewrite Ehist. cbv zeta. simpl List.length.
    destruct (Z.geb_spec (Z.of_nat 0) lap); [simpl in *; lia|]. reflexivity.
  - destruct (at_index (laps carData) (lap - 1)) as [r|] eqn:Eidx.
    { rewrite (entry_at_lap_index _ _ _ Eidx). now split. }
    assert (Hlen : Z.of_nat (List.length (laps carData)) < lap).
    { unfold at_index in Eidx. destruct (Z.ltb_spec (lap - 1) 0); [lia|].
      apply nth_error_None in Eidx. lia. }
    destruct (find_lap lap (laps carData)) as [r|] eqn:Efind.
    { rewrite (entry_at_lap_search _ _ _ Hlen Efind). now split. }
    destruct (last_record_Some (laps carData)) as [r Hr]; [congruence|].
    rewrite (entry_at_lap_carry _ _ _ Hlen Efind Hr). now split.
Qed.

Lemma collect_car_numbers (lap : Z) (lapData : list CarLapData) :
  1 <= lap ->
  map n (collect lap lapData) =
  map (fun carData => Some (carNumber carData)) (filter has_history lapData).
Proof.
  intros Hlap. induction lapData as [|carData rest IH]; [reflexivity|].
  simpl. pose proof (entry_at_lap_has_history lap carData Hlap) as H.
  destruct (entry_at_lap lap carData) as [e|].
  - destruct H as [-> Hn]. simpl. now rewrite Hn, IH.
  - now rewrite H.
Qed.

Lemma collect_In (lap : Z) (lapData : list CarLapData) (carData : CarLapData)
      (e : CarPosition) :
  In carData lapData -> entry_at_lap lap carData = Some e -> In e (collect lap lapData).
Proof.
  intros Hin He. induction lapData as [|cd rest IH]; [contradiction|].
  simpl. destruct Hin as [->|Hin].
  - rewrite He. now left.
  - destruct (entry_at_lap lap cd); [right|]; now apply IH.
Qed.

Lemma assign_positions_In (cars : list CarPosition) (index : Z) (car : CarPosition) :
  In car cars ->
  exists i, In (set_display_position car i) (assign_positions index cars).
Proof.
  revert index. induction cars as [|car0 cars IH]; intros index Hin; [contradiction|].
  destruct Hin as [->|Hin].
  - exists index. now left.
  - destruct (IH (index + 1) Hin) as [i Hi]. exists i. now right.
Qed.

(** A candidate is in the snapshot, with a display position. *)
Lemma snapshot_In (lap : Z) (lapData : list CarLapData) (carData : CarLapData)
      (e : CarPosition) :
  In carData lapData -> entry_at_lap lap carData = Some e ->
  exists i, In (set_display_position e i) (positionsAtLap lap lapData).
Proof.
  intros Hin He. unfold positionsAtLap. apply assign_positions_In.
  eapply Permutation_in; [apply Permutation_sym, sort_perm|].
  eapply collect_In; eassumption.
Qed.

Lemma snapshot_car_numbers (lap : Z) (lapData : list CarLapData) :
  1 <= lap ->
  Permutation (map n (positionsAtLap lap lapData))
              (map (fun carData => Some (carNumber carData)) (filter has_history lapData)).
Proof.
  intros Hlap. unfold positionsAtLap. rewrite assign_positions_n.
  rewrite <- (collect_car_numbers lap lapData Hlap).
  apply Permutation_map, sort_perm.
Qed.

Lemma found_entry_shown (carData : CarLapData) (r : CarPosition) (i : Z) :
  shown_with carData r (set_display_position (found_entry carData r) i).
Proof. unfold shown_with, copies. simpl. repeat split. Qed.

Lemma carried_entry_shown (carData : CarLapData) (r : CarPosition) (i : Z) :
  carried_forward carData r (set_display_position (carried_entry carData r) i).
Proof.
  unfold carried_forward, copies. simpl. repeat split.
  - intros k Hk. unfold lastLapNum. now rewrite Hk.
  - intros s Hl Hln Hs. unfold lastLapNum. rewrite Hl, Hln. simpl.
    destruct s; [contradiction|reflexivity].
Qed.

(** C4, as amended: from lap 1 on, the snapshot holds exactly the cars that
    have a history, each as often as the session lists it; a car whose
    history reaches the lap is shown with the record at index [lap - 1]; a
    car with a shorter history is shown with the record whose explicit lap
    number is the lap, if there is one, and otherwise with its last record
    carried forward, annotated with the lap number that record states. *)
Theorem replay_snapshot_cars (lap : Z) (lapData : list CarLapData) :
  1 <= lap ->
  let snapshot := positionsAtLap lap lapData in
  Permutation (map n snapshot)
              (map (fun carData => Some (carNumber carData)) (filter has_history lapData)) /\
  (forall carData r, In carData lapData ->
     at_index (laps carData) (lap - 1) = Some r ->
     exists e, In e snapshot /\ shown_with carData r e) /\
  (forall carData r, In carData lapData ->
     Z.of_nat (List.length (laps carData)) < lap ->
     find_lap lap (laps carData) = Some r ->
     exists e, In e snapshot /\ shown_with carData r e) /\
  (forall carData r, In carData lapData ->
     Z.of_nat (List.length (laps carData)) < lap ->
     find_lap lap (laps carData) = None ->
     last_record (laps carData) = Some r ->
     exists e, In e snapshot /\ carried_forward carData r e).
Proof.
  intros Hlap. cbv zeta. split; [now apply snapshot_car_numbers|].
  split; [|split].
  - intros carData r Hin Hr.
    destruct (snapshot_In lap lapData carData _ Hin (entry_at_lap_index _ _ _ Hr))
      as [i Hi].
    eexists; split; [exact Hi | apply found_entry_shown].
  - intros carData r Hin Hlen Hr.
    destruct (snapshot_In lap lapData carData _ Hin (entry_at_lap_search _ _ _ Hlen Hr))
      as [i Hi].
    eexists; split; [exact Hi | apply found_entry_shown].
  - intros carData r Hin Hlen Hfind Hr.
    destruct (snapshot_In lap lapData carData _ Hin
                (entry_at_lap_carry _ _ _ Hlen Hfind Hr)) as [i Hi].
    eexists; split; [exact Hi | apply carried_entry_shown].
Qed.

End ReplayCars.

(* ===================================================================== *)
(** * The replay snapshot: sessions *)
(* ===================================================================== *)

Section ReplaySessions.
Import Js Replay.
Local Open Scope string_scope.

(** A lap record stating its lap number, its overall position and its lap
    time, as far as they are known. *)
Definition lap_record (lapNumber position : option Z) (time : string) : CarPosition :=
  {| n := None; c := None; l := option_map Int lapNumber; ln := None;
     llo := None; ovp := option_map Int position; p := None; llp := None;
     ltm := Some time; tp := None; bt := None; dn := None; ip := None |}.

Definition car (number : string) (history : list CarPosition) : CarLapData :=
  {| carNumber := number; laps := history; teamName := None; className := Some "GT3" |}.

(** The session of the specification: car A has five lap records, car B
    three and car C none. *)
Definition car_A : CarLapData :=
  car "A" [lap_record (Some 1) (Some 1) "1:31.000"; lap_record (Some 2) (Some 1) "1:30.500";
           lap_record (Some 3) (Some 1) "1:30.200"; lap_record (Some 4) (Some 1) "1:30.400";
           lap_record (Some 5) (Some 1) "1:30.100"].

Definition car_B : CarLapData :=
  car "B" [lap_record (Some 1) (Some 2) "1:33.000"; lap_record (Some 2) (Some 2) "1:32.500";
           lap_record (Some 3) (Some 2) "1:32.800"].

Definition car_C : CarLapData := car "C" [].

Definition session : list CarLapData := [car_C; car_B; car_A].

(** At lap 4 the snapshot shows A with its lap-4 record and B with its
    lap-3 record carried forward; C is absent. *)
Lemma replay_session_lap_4 :
  positionsAtLap 4 session =
  [ {| n := Some "A"; c := Some "GT3"; l := Some (Int 4); ln := None; llo := None;
       ovp := Some (Int 1); p := Some (Int 1); llp := None; ltm := Some "1:30.400";
       tp := None; bt := None; dn := None; ip := None |};
    {| n := Some "B"; c := Some "GT3"; l := Some (Int 3); ln := None; llo := None;
       ovp := Some (Int 2); p := Some (Int 2); llp := None; ltm := Some "1:32.800";
       tp := None; bt := None; dn := None; ip := None |} ].
Proof. reflexivity. Qed.

(** The session of the specification at lap 4: its snapshot holds cars B and
    A, as often as the session lists them, and not C. *)
Lemma replay_snapshot_cars_witness :
  1 <= 4 /\
  Permutation (map n (positionsAtLap 4 session)) [Some "B"; Some "A"].
Proof.
  split; [lia|].
  exact (proj1 (replay_snapshot_cars 4 session (proj1 (Z.leb_le 1 4) eq_refl))).
Defined.

(** A car whose feed lacks laps 2 and 3: three records, for laps 1, 4 and 5. *)
Definition car_with_gaps : CarLapData :=
  car "B" [lap_record (Some 1) (Some 2) "1:33.000"; lap_record (Some 4) (Some 2) "1:34.000";
           lap_record (Some 5) (Some 2) "1:35.000"].

(** C4, as stated, fails: the history of the car is shorter than the lap
    requested, and the car is shown with the record that states lap 4, not
    with its most recent record, which states lap 5. *)
Lemma replay_explicit_lap_number :
  List.length (laps car_with_gaps) = 3%nat /\
  option_map ltm (last_record (laps car_with_gaps)) = Some (Some "1:35.000") /\
  option_map l (last_record (laps car_with_gaps)) = Some (Some (Int 5)) /\
  map ltm (positionsAtLap 4 [car_with_gaps]) = [Some "1:34.000"] /\
  map l (positionsAtLap 4 [car_with_gaps]) = [Some (Int 4)].
Proof. repeat split. Qed.

(** A car whose three records state no lap number. *)
Definition car_without_lap_numbers : CarLapData :=
  car "B" [lap_record None (Some 2) "1:33.000"; lap_record None (Some 2) "1:32.500";
           lap_record None (Some 2) "1:32.800"].

(** Carried forward, such a car is annotated with lap 0: the fallback to
    the length of the history is never reached. *)
Lemma carried_forward_without_lap_number :
  map l (positionsAtLap 4 [car_without_lap_numbers]) = [Some (Int 0)].
Proof. reflexivity. Qed.

(** Two cars on lap 10 with recorded positions 5 and 3, the slower one in
    third position: the snapshot shows position 3 before position 5. *)
Lemma replay_tie_break_positions :
  map n (positionsAtLap 10
           [car "X" [lap_record (Some 10) (Some 5) "1:30.000"];
            car "Y" [lap_record (Some 10) (Some 3) "1:35.000"]])
  = [Some "Y"; Some "X"] /\
  map n (positionsAtLap 10
           [car "Y" [lap_record (Some 10) (Some 3) "1:35.000"];
            car "X" [lap_record (Some 10) (Some 5) "1:30.000"]])
  = [Some "Y"; Some "X"].
Proof. split; reflexivity. Qed.

(** Two cars on lap 10 with no recorded position: the faster lap first. *)
Lemma replay_tie_break_times :
  map n (positionsAtLap 10
           [car "X" [lap_record (Some 10) None "1:35.000"];
            car "Y" [lap_record (Some 10) None "1:30.000"]])
  = [Some "Y"; Some "X"] /\
  map n (positionsAtLap 10
           [car "Y" [lap_record (Some 10) None "1:30.000"];
            car "X" [lap_record (Some 10) None "1:35.000"]])
  = [Some "Y"; Some "X"].
Proof. split; reflexivity. Qed.

(** Three cars on lap 10: C in position 2, B with no recorded position and
    A in position 1, with lap times that increase from C to A. *)
Definition mixed_session : list CarLapData :=
  [car "C" [lap_record (Some 10) (Some 2) "1:10.000"];
   car "B" [lap_record (Some 10) None "1:20.000"];
   car "A" [lap_record (Some 10) (Some 1) "1:40.000"]].

(** The order the specification states for two cars: more laps completed
    first; on equal laps the smaller recorded position first when neither is
    the sentinel 999, and otherwise the smaller lap time first. *)
Definition stated_first (a b : CarPosition) : bool :=
  match lapsCompleted a, lapsCompleted b with
  | Int la, Int lb =>
    ((lb <? la) ||
     ((la =? lb) &&
      match recordedPosition a, recordedPosition b with
      | Int pa, Int pb =>
        if negb (pa =? 999) && negb (pb =? 999) then pa <? pb
        else lt (parseLapTimeToMs (ltm a)) (parseLapTimeToMs (ltm b))
      | _, _ => false
      end))%Z
  | _, _ => false
  end.

(** [a] stands before [b] in [cars]. *)
Definition precedes (cars : list CarPosition) (a b : CarPosition) : Prop :=
  exists l1 l2 l3, cars = (l1 ++ a :: l2 ++ b :: l3)%list.

(** C6, as stated, fails: A and C are on the same lap with known recorded
    positions 1 and 2, B has none, and the comparison of the sort is not a
    consistent comparator on the three.  No order of the three cars follows
    the stated rule, whatever the sort returns: the rule puts A before C by
    position, C before B and B before A by lap time. *)
Lemma replay_order_not_by_position :
  (map lapsCompleted (collect 10 mixed_session) = [Int 10; Int 10; Int 10] /\
   map recordedPosition (collect 10 mixed_session) = [Int 2; Int 999; Int 1] /\
   consistent compareCars (collect 10 mixed_session) = false) /\
  (forall out, Permutation out (collect 10 mixed_session) ->
     exists a b, precedes out a b /\ stated_first b a = true).
Proof.
  split; [repeat split|].
  intros out Hperm.
  pose proof (Permutation_length Hperm) as Hlen.
  destruct out as [|x [|y [|z [|]]]]; try discriminate Hlen.
  assert (HC : In (nth 0 (collect 10 mixed_session) x) [x; y; z])
    by (eapply Permutation_in; [apply Permutation_sym, Hperm | now left]).
  assert (HB : In (nth 1 (collect 10 mixed_session) x) [x; y; z])
    by (eapply Permutation_in; [apply Permutation_sym, Hperm | right; now left]).
  assert (HA : In (nth 2 (collect 10 mixed_session) x) [x; y; z])
    by (eapply Permutation_in; [apply Permutation_sym, Hperm | right; right; now left]).
  clear Hperm Hlen. cbn [nth] in HC, HB, HA. simpl in HC, HB, HA.
  destruct HC as [HC|[HC|[HC|[]]]]; destruct HB as [HB|[HB|[HB|[]]]];
    destruct HA as [HA|[HA|[HA|[]]]]; subst; try discriminate;
    match goal with
    | |- exists a b, precedes [?u; ?v; ?w] a b /\ _ =>
      first
        [ exists u, v; split; [exists [], [], [w]; reflexivity | reflexivity]
        | exists v, w; split; [exists [u], [], []; reflexivity | reflexivity]
        | exists u, w; split; [exists [], [v], []; reflexivity | reflexivity] ]
    end.
Qed.

(** The session of the specification at lap 4: A and B have known recorded
    positions, the comparison is consistent on them, and the snapshot is the
    one arrangement in its sort order. *)
Lemma replay_snapshot_order_witness :
  uniform_positions (collect 4 session) = true /\
  consistent compareCars (collect 4 session) = true /\
  StronglySorted (in_order compareCars) (sort compareCars (collect 4 session)) /\
  (forall out, stable_sorted compareCars (collect 4 session) out ->
               out = sort compareCars (collect 4 session)).
Proof.
  pose proof (replay_snapshot_order 4 session) as H. cbv zeta in H.
  destruct H as (_ & _ & _ & _ & Huniform & Hconsistent).
  split; [reflexivity|]. split; [exact (Huniform eq_refl)|].
  destruct (Hconsistent (Huniform eq_refl)) as (Hsorted & _ & _ & Hunique).
  split; assumption.
Defined.

End ReplaySessions.

(* ===================================================================== *)
(** * The live connection: subscriptions after a reconnection *)
(* ===================================================================== *)

Section ReconnectFacts.
Import Js SignalR.

(** A subscription as a connection to the hub holds it. *)
Inductive Subscription : Type :=
| EventSubscription (eventId : Z)
| ControlLogSubscription (eventId : option Z)
| CarControlLogSubscription (eventId : Z) (carNumber : string)
| InCarSubscription (eventId : Z) (carNumber : string).

Definition option_Z_eqb (x y : option Z) : bool :=
  match x, y with
  | Some a, Some b => a =? b
  | None, None => true
  | _, _ => false
  end.

Definition Subscription_eqb (x y : Subscription) : bool :=
  match x, y with
  | EventSubscription a, EventSubscription b => a =? b
  | ControlLogSubscription a, ControlLogSubscription b => option_Z_eqb a b
  | CarControlLogSubscription a s, CarControlLogSubscription b t => (a =? b) && String.eqb s t
  | InCarSubscription a s, InCarSubscription b t => (a =? b) && String.eqb s t
  | _, _ => false
  end.

(** The subscription a call opens, and the one a call closes. *)
Definition opens (call : HubCall) : option Subscription :=
  match call with
  | SubscribeToEventV2 e => Some (EventSubscription e)
  | SubscribeToControlLogs e => Some (ControlLogSubscription e)
  | SubscribeToCarControlLogs e car => Some (CarControlLogSubscription e car)
  | SubscribeToInCarDriverEvent e car => Some (InCarSubscription e car)
  | _ => None
  end.

Definition closes (call : HubCall) : option Subscription :=
  match call with
  | UnsubscribeFromEventV2 e => Some (EventSubscription e)
  | UnsubscribeFromControlLogs e => Some (ControlLogSubscription e)
  | UnsubscribeFromInCarDriverEvent e car => Some (InCarSubscription e car)
  | _ => None
  end.

Definition without (s : Subscription) (subs : list Subscription) : list Subscription :=
  filter (fun s' => negb (Subscription_eqb s s')) subs.

(** The subscriptions a connection holds after the calls of [log], all
    issued on that connection: those opened by an accepted call and not
    closed by a later accepted call.  A new connection starts without any,
    and the log the client keeps does not tell one connection from the next:
    on the log of a client that went through a reconnection or a close, this
    is not what the hub holds. *)
Definition active_subscriptions (log : list (HubCall * bool)) : list Subscription :=
  fold_left
    (fun subs entry =>
       match entry with
       | (call, true) =>
         match opens call, closes call with
         | Some s, _ => without s subs ++ [s]
         | None, Some s => without s subs
         | None, None => subs
         end
       | (_, false) => subs
       end)
    log [].

(** The subscribe calls that [resubscribe] issues for a client: for the
    event recorded, the event and its control log, and the in-car feed of the
    car recorded. *)
Definition resubscriptions (cl : Client) : list HubCall :=
  match subscribedEventId cl with
  | Some e =>
    if e =? 0 then []
    else
      [SubscribeToEventV2 e; SubscribeToControlLogs (Some e)] ++
      match subscribedCar cl with
      | Some (String ch rest) => [SubscribeToInCarDriverEvent e (String ch rest)]
      | _ => []
      end
  | None => []
  end.

Definition accepted (calls : list HubCall) : list (HubCall * bool) :=
  map (fun call => (call, true)) calls.

(** A hub that accepts every call. *)
Definition accepts_all (hub : list (HubCall * bool) -> HubCall -> bool) : Prop :=
  forall log call, hub log call = true.

(** The world after the hub has accepted one more call. *)
Definition after_call (call : HubCall) (f : Client -> Client) (w : World) : World :=
  {| client := f (client w); invoked := invoked w ++ [(call, true)];
     reported := reported w |}.

Section AcceptingHub.
Variable hub : list (HubCall * bool) -> HubCall -> bool.
Hypothesis hub_accepts : accepts_all hub.

Lemma subscribeToEvent_accepted (e : Z) (w : World) :
  connection (client w) = true ->
  subscribeToEvent hub e w =
  (Returned tt, after_call (SubscribeToEventV2 e) (set_subscribedEventId (Some e)) w).
Proof.
  intros Hconn.
  unfold subscribeToEvent, bind, this, try_catch, invoke, set_client. simpl.
  rewrite Hconn. simpl. now rewrite hub_accepts.
Qed.

Lemma subscribeToControlLogs_accepted (e : option Z) (w : World) :
  connection (client w) = true ->
  subscribeToControlLogs hub e w =
  (Returned tt, after_call (SubscribeToControlLogs e) (fun cl => cl) w).
Proof.
  intros Hconn.
  unfold subscribeToControlLogs, bind, this, try_catch, invoke. simpl.
  rewrite Hconn. simpl. now rewrite hub_accepts.
Qed.

Lemma subscribeToInCarDriverEvent_accepted (e : Z) (car : string) (w : World) :
  connection (client w) = true ->
  subscribeToInCarDriverEvent hub e car w =
  (Returned tt,
   after_call (SubscribeToInCarDriverEvent e car) (set_subscribedCar (Some car)) w).
Proof.
  intros Hconn.
  unfold subscribeToInCarDriverEvent, bind, this, try_catch, invoke, set_client. simpl.
  rewrite Hconn. simpl. now rewrite hub_accepts.
Qed.

Lemma unsubscribeFromEvent_accepted (e : Z) (w : World) :
  connection (client w) = true ->
  subscribedEventId (client w) = Some e ->
  unsubscribeFromEvent hub e w =
  (Returned tt, after_call (UnsubscribeFromEventV2 e) (set_subscribedEventId None) w).
Proof.
  intros Hconn He.
  unfold unsubscribeFromEvent, bind, this, try_catch, invoke, set_client. simpl.
  rewrite Hconn. simpl. rewrite hub_accepts. simpl. rewrite He, Z.eqb_refl. reflexivity.
Qed.

Lemma unsubscribeFromInCarDriverEvent_accepted (e : Z) (car : string) (w : World) :
  connection (client w) = true ->
  subscribedCar (client w) = Some car ->
  unsubscribeFromInCarDriverEvent hub e car w =
  (Returned tt,
   after_call (UnsubscribeFromInCarDriverEvent e car) (set_subscribedCar None) w).
Proof.
  intros Hconn Hcar.
  unfold unsubscribeFromInCarDriverEvent, bind, this, try_catch, invoke, set_client. simpl.
  rewrite Hconn. simpl. rewrite hub_accepts. simpl. rewrite Hcar, String.eqb_refl.
  reflexivity.
Qed.

(** What a reconnection does when the hub accepts the calls. *)
Lemma reconnect_cycle_calls (w : World) :
  connection (client w) = true ->
  let w' := snd (reconnect_cycle hub w) in
  fst (reconnect_cycle hub w) = Returned tt /\
  invoked w' = invoked w ++ accepted (resubscriptions (client w)) /\
  subscribedEventId (client w') = subscribedEventId (client w) /\
  subscribedCar (client w') = subscribedCar (client w) /\
  connectionState (client w') = connected.
Proof.
  intros Hconn. destruct w as [[conn e car st] inv rep]. simpl in Hconn. subst conn.
  unfold resubscriptions, accepted.
  unfold reconnect_cycle, onreconnecting, onreconnected, setConnectionState, resubscribe.
  unfold bind, this, ret. simpl.
  destruct e as [e|]; simpl.
  - destruct (Z.eqb_spec e 0) as [->|Hne]; simpl.
    + destruct car as [[|ch rest]|]; simpl; now rewrite app_nil_r.
    + rewrite subscribeToEvent_accepted by reflexivity. simpl.
      rewrite subscribeToControlLogs_accepted by reflexivity. simpl.
      destruct (Z.eqb_spec e 0) as [|_]; [contradiction|]. simpl.
      destruct car as [[|ch rest]|]; simpl; rewrite <- ?app_assoc; simpl; try easy.
      rewrite subscribeToInCarDriverEvent_accepted by reflexivity. simpl.
      rewrite <- ?app_assoc. easy.
  - destruct car as [[|ch rest]|]; simpl; now rewrite app_nil_r.
Qed.

End AcceptingHub.

(** C7, as amended: when the hub accepts the calls, a reconnection re-issues
    the subscribe calls the two recorded fields determine: for the event
    recorded, the event subscription and the control-log subscription of
    that event, and the in-car subscription of the car recorded.  Once the
    event recorded has been explicitly unsubscribed nothing is re-issued;
    once the in-car feed of the car recorded has been explicitly
    unsubscribed no in-car subscription is re-issued; and a subscription to
    an event is re-issued after a reconnection. *)
Theorem reconnect_resubscribes
        (hub : list (HubCall * bool) -> HubCall -> bool) (w : World) :
  accepts_all hub -> connection (client w) = true ->
  invoked (snd (reconnect_cycle hub w)) =
    invoked w ++ accepted (resubscriptions (client w)) /\
  (forall e, subscribedEventId (client w) = Some e ->
     let w1 := snd (unsubscribeFromEvent hub e w) in
     invoked (snd (reconnect_cycle hub w1)) = invoked w1) /\
  (forall e car, subscribedCar (client w) = Some car ->
     let w1 := snd (unsubscribeFromInCarDriverEvent hub e car w) in
     forall e' car',
       ~ In (SubscribeToInCarDriverEvent e' car', true)
            (skipn (List.length (invoked w1)) (invoked (snd (reconnect_cycle hub w1))))) /\
  (forall e, e <> 0 ->
     let w1 := snd (subscribeToEvent hub e w) in
     In (SubscribeToEventV2 e, true)
        (skipn (List.length (invoked w1)) (invoked (snd (reconnect_cycle hub w1))))).
Proof.
  intros Hhub Hconn. split; [|split; [|split]].
  - now apply reconnect_cycle_calls.
  - intros e He. cbv zeta.
    rewrite (unsubscribeFromEvent_accepted hub Hhub e w Hconn He). cbn [snd].
    destruct (reconnect_cycle_calls hub Hhub
                (after_call (UnsubscribeFromEventV2 e) (set_subscribedEventId None) w))
      as (_ & Hinv & _); [exact Hconn|].
    rewrite Hinv. unfold resubscriptions. simpl. now rewrite app_nil_r.
  - intros e car Hcar. cbv zeta.
    rewrite (unsubscribeFromInCarDriverEvent_accepted hub Hhub e car w Hconn Hcar).
    cbn [snd]. intros e' car'.
    destruct (reconnect_cycle_calls hub Hhub
                (after_call (UnsubscribeFromInCarDriverEvent e car)
                            (set_subscribedCar None) w))
      as (_ & Hinv & _); [exact Hconn|].
    rewrite Hinv, skipn_app, Nat.sub_diag, skipn_all. simpl.
    unfold resubscriptions. simpl.
    destruct (subscribedEventId (client w)) as [e0|]; simpl; [|tauto].
    destruct (e0 =? 0); simpl; [tauto|].
    intros [H|[H|[]]]; discriminate H.
  - intros e Hne. cbv zeta.
    rewrite (subscribeToEvent_accepted hub Hhub e w Hconn). cbn [snd].
    destruct (reconnect_cycle_calls hub Hhub
                (after_call (SubscribeToEventV2 e) (set_subscribedEventId (Some e)) w))
      as (_ & Hinv & _); [exact Hconn|].
    rewrite Hinv, skipn_app, Nat.sub_diag, skipn_all. simpl.
    unfold resubscriptions. simpl.
    destruct (Z.eqb_spec e 0); [contradiction|]. now left.
Qed.

(** The hub that accepts every call, and a client connected to it. *)
Definition willing_hub (log : list (HubCall * bool)) (call : HubCall) : bool := true.

Definition connected_client (e : option Z) (car : option string) : World :=
  {| client := {| connection := true; subscribedEventId := e; subscribedCar := car;
                  connectionState := connected |};
     invoked := []; reported := [] |}.

(** A client that records event 7 and car 42: the reconnection re-issues the
    event, control-log and in-car subscriptions. *)
Lemma reconnect_resubscribes_witness :
  accepts_all willing_hub /\
  connection (client (connected_client (Some 7) (Some "42"%string))) = true /\
  invoked (snd (reconnect_cycle willing_hub (connected_client (Some 7) (Some "42"%string))))
  = [(SubscribeToEventV2 7, true); (SubscribeToControlLogs (Some 7), true);
     (SubscribeToInCarDriverEvent 7 "42"%string, true)].
Proof.
  split; [intros log call; reflexivity|]. split; [reflexivity|].
  exact (proj1 (reconnect_resubscribes willing_hub
                  (connected_client (Some 7) (Some "42"%string))
                  (fun log call => eq_refl) eq_refl)).
Defined.

(** C7, as stated, fails.  The control-log subscription of event 7 was
    explicitly unsubscribed before the connection was lost, only the event
    subscription is active, and the reconnection re-issues the control-log
    subscription too.  And a car's control-log subscription that is active
    when the connection is lost is not re-issued. *)
Lemma reconnect_reissues_unsubscribed :
  let before :=
    snd ((subscribeToEvent willing_hub 7 ;;;
          subscribeToControlLogs willing_hub (Some 7) ;;;
          unsubscribeFromControlLogs willing_hub (Some 7))
           (connected_client None None)) in
  let before' :=
    snd ((subscribeToEvent willing_hub 7 ;;;
          subscribeToCarControlLogs willing_hub 7 "42"%string)
           (connected_client None None)) in
  (active_subscriptions (invoked before) = [EventSubscription 7] /\
   skipn (List.length (invoked before)) (invoked (snd (reconnect_cycle willing_hub before)))
   = [(SubscribeToEventV2 7, true); (SubscribeToControlLogs (Some 7), true)]) /\
  (active_subscriptions (invoked before')
   = [EventSubscription 7; CarControlLogSubscription 7 "42"%string] /\
   skipn (List.length (invoked before')) (invoked (snd (reconnect_cycle willing_hub before')))
   = [(SubscribeToEventV2 7, true); (SubscribeToControlLogs (Some 7), true)]).
Proof. cbv zeta. repeat split. Qed.

End ReconnectFacts.

(* ===================================================================== *)
(** * The message envelope: base64 *)
(* ===================================================================== *)

Section Base64Facts.
Import Js SignalR.

(** Induction on a string three characters at a time. *)
Lemma string_ind3 (P : string -> Prop) :
  P EmptyString ->
  (forall a, P (String a EmptyString)) ->
  (forall a b, P (String a (String b EmptyString))) ->
  (forall a b c r, P r -> P (String a (String b (String c r)))) ->
  forall s, P s.
Proof.
  intros H0 H1 H2 H3.
  assert (H : forall s, P s /\ (forall a, P (String a s)) /\
                        (forall a b, P (String a (String b s)))).
  { induction s as [|c r (IHr & IHr1 & IHr2)]; repeat split; auto. }
  intros s. apply H.
Qed.

Lemma below_64 (P : N -> Prop) :
  (forall k : nat, (k < 64)%nat -> P (N.of_nat k)) -> forall i, (i < 64)%N -> P i.
Proof. intros H i Hi. rewrite <- (N2Nat.id i). apply H. lia. Qed.

Lemma sextet_lt (n d : N) : (sextet n d < 64)%N.
Proof. unfold sextet. apply N.mod_lt. discriminate. Qed.

Lemma b64_value_char (i : N) : (i < 64)%N -> b64_value (b64_char i) = Some i.
Proof.
  revert i. apply below_64. intros k Hk.
  do 64 (destruct k as [|k]; [reflexivity|]). lia.
Qed.

Lemma b64_char_not_padding (i : N) : (i < 64)%N -> b64_char i <> "="%char.
Proof.
  revert i. apply below_64. intros k Hk.
  do 64 (destruct k as [|k]; [discriminate|]). lia.
Qed.

Lemma b64_char_not_whitespace (i : N) :
  (i < 64)%N -> is_ascii_whitespace (b64_char i) = false.
Proof.
  revert i. apply below_64. intros k Hk.
  do 64 (destruct k as [|k]; [reflexivity|]). lia.
Qed.

Lemma strip_padding_cons (ch : ascii) (r : string) :
  ch <> "="%char -> strip_padding (String ch r) = String ch (strip_padding r).
Proof.
  intros H. destruct ch as [[] [] [] [] [] [] [] []]; try reflexivity. congruence.
Qed.

Lemma remove_whitespace_cons (ch : ascii) (r : string) :
  is_ascii_whitespace ch = false ->
  remove_whitespace (String ch r) = String ch (remove_whitespace r).
Proof. intros H. simpl. now rewrite H. Qed.

(** The encoding without its padding. *)
Fixpoint unpadded (s : string) : string :=
  match s with
  | EmptyString => EmptyString
  | String a EmptyString =>
    let n := group24 (N_of_ascii a) 0 0 in
    String (b64_char (sextet n 262144)) (String (b64_char (sextet n 4096)) EmptyString)
  | String a (String b EmptyString) =>
    let n := group24 (N_of_ascii a) (N_of_ascii b) 0 in
    String (b64_char (sextet n 262144)) (String (b64_char (sextet n 4096))
      (String (b64_char (sextet n 64)) EmptyString))
  | String a (String b (String c r)) =>
    let n := group24 (N_of_ascii a) (N_of_ascii b) (N_of_ascii c) in
    String (b64_char (sextet n 262144)) (String (b64_char (sextet n 4096))
      (String (b64_char (sextet n 64)) (String (b64_char (sextet n 1)) (unpadded r))))
  end.

Lemma remove_whitespace_btoa (s : string) : remove_whitespace (btoa s) = btoa s.
Proof.
  induction s as [|a|a b|a b c r IH] using string_ind3; cbn [btoa];
    rewrite ?remove_whitespace_cons by apply b64_char_not_whitespace, sextet_lt;
    try reflexivity.
  now rewrite IH.
Qed.

Lemma length_btoa (s : string) : exists k, String.length (btoa s) = (4 * k)%nat.
Proof.
  induction s as [|a|a b|a b c r [k IH]] using string_ind3; cbn [btoa String.length].
  - now exists 0%nat.
  - now exists 1%nat.
  - now exists 1%nat.
  - exists (S k). rewrite IH. lia.
Qed.

Lemma strip_padding_btoa (s : string) : strip_padding (btoa s) = unpadded s.
Proof.
  induction s as [|a|a b|a b c r IH] using string_ind3; cbn [btoa unpadded];
    rewrite ?strip_padding_cons by apply b64_char_not_padding, sextet_lt;
    try reflexivity.
  now rewrite IH.
Qed.

Lemma div_mod_64 (n : N) : (n = 64 * (n / 64) + n mod 64)%N.
Proof. apply N.div_mod. discriminate. Qed.

(** The four 6-bit values of a 24-bit group make up the group. *)
Lemma sextets_regroup (n : N) :
  (n < 16777216)%N ->
  group4 (sextet n 262144) (sextet n 4096) (sextet n 64) (sextet n 1) = n.
Proof.
  intros Hn. unfold group4, sextet. rewrite N.div_1_r.
  pose proof (div_mod_64 n) as H1.
  pose proof (div_mod_64 (n / 64)) as H2.
  pose proof (div_mod_64 (n / 4096)) as H3.
  pose proof (div_mod_64 (n / 262144)) as H4.
  replace (n / 64 / 64)%N with (n / 4096)%N in H2 by (now rewrite N.Div0.div_div).
  replace (n / 4096 / 64)%N with (n / 262144)%N in H3 by (now rewrite N.Div0.div_div).
  replace (n / 262144 / 64)%N with 0%N in H4
    by (rewrite N.Div0.div_div; symmetry; now apply N.div_small).
  set (q1 := (n / 64)%N) in *. set (q2 := (n / 4096)%N) in *.
  set (q3 := (n / 262144)%N) in *.
  set (s3 := (n mod 64)%N) in *. set (s2 := (q1 mod 64)%N) in *.
  set (s1 := (q2 mod 64)%N) in *. set (s0 := (q3 mod 64)%N) in *.
  clearbody q1 q2 q3 s0 s1 s2 s3. lia.
Qed.

(** The three bytes of a 24-bit group. *)
Lemma octets_group24 (a b c : N) :
  (a < 256)%N -> (b < 256)%N -> (c < 256)%N ->
  octet (group24 a b c) 65536 = a /\ octet (group24 a b c) 256 = b /\
  octet (group24 a b c) 1 = c.
Proof.
  intros Ha Hb Hc. unfold octet, group24.
  assert (H1 : ((a * 65536 + b * 256 + c) / 65536 = a)%N).
  { symmetry. apply (N.div_unique _ _ _ (b * 256 + c)%N); lia. }
  assert (H2 : ((a * 65536 + b * 256 + c) / 256 = a * 256 + b)%N).
  { symmetry. apply (N.div_unique _ _ _ c); lia. }
  rewrite H1, H2, N.div_1_r. repeat split.
  - now apply N.mod_small.
  - symmetry. apply (N.mod_unique _ _ a); lia.
  - symmetry. apply (N.mod_unique _ _ (a * 256 + b)%N); lia.
Qed.

Lemma group24_lt (a b c : N) :
  (a < 256)%N -> (b < 256)%N -> (c < 256)%N -> (group24 a b c < 16777216)%N.
Proof. unfold group24. lia. Qed.

(** A group whose last byte is 0 has a last 6-bit value of 0, and a group
    whose last two bytes are 0 has its last two 6-bit values 0. *)
Lemma sextet_low_1 (a b : N) : sextet (group24 a b 0) 1 = 0%N.
Proof.
  unfold sextet, group24. rewrite N.div_1_r. symmetry.
  apply (N.mod_unique _ _ (a * 1024 + b * 4)%N); lia.
Qed.

Lemma sextet_low_64 (a : N) : sextet (group24 a 0 0) 64 = 0%N.
Proof.
  unfold sextet, group24.
  replace ((a * 65536 + 0 * 256 + 0) / 64)%N with (a * 1024)%N
    by (apply (N.div_unique _ _ _ 0%N); lia).
  symmetry. apply (N.mod_unique _ _ (a * 16)%N); lia.
Qed.

Lemma regroup_1 (a : N) :
  (a < 256)%N ->
  let n := group24 a 0 0 in
  octet (group4 (sextet n 262144) (sextet n 4096) 0 0) 65536 = a.
Proof.
  intros Ha. cbv zeta.
  replace (group4 (sextet (group24 a 0 0) 262144) (sextet (group24 a 0 0) 4096) 0 0)
    with (group24 a 0 0).
  - now apply octets_group24.
  - rewrite <- (sextets_regroup (group24 a 0 0)) at 1 by (apply group24_lt; lia).
    now rewrite sextet_low_64, sextet_low_1.
Qed.

Lemma regroup_2 (a b : N) :
  (a < 256)%N -> (b < 256)%N ->
  let n := group24 a b 0 in
  let m := group4 (sextet n 262144) (sextet n 4096) (sextet n 64) 0 in
  octet m 65536 = a /\ octet m 256 = b.
Proof.
  intros Ha Hb. cbv zeta.
  replace (group4 (sextet (group24 a b 0) 262144) (sextet (group24 a b 0) 4096)
                  (sextet (group24 a b 0) 64) 0)
    with (group24 a b 0).
  - destruct (octets_group24 a b 0 Ha Hb) as (H1 & H2 & _); [reflexivity|]. now split.
  - rewrite <- (sextets_regroup (group24 a b 0)) at 1 by (apply group24_lt; lia).
    now rewrite sextet_low_1.
Qed.

Lemma regroup_3 (a b c : N) :
  (a < 256)%N -> (b < 256)%N -> (c < 256)%N ->
  let n := group24 a b c in
  let m := group4 (sextet n 262144) (sextet n 4096) (sextet n 64) (sextet n 1) in
  octet m 65536 = a /\ octet m 256 = b /\ octet m 1 = c.
Proof.
  intros Ha Hb Hc. cbv zeta.
  rewrite sextets_regroup by now apply group24_lt.
  now apply octets_group24.
Qed.

Lemma decode_unpadded (s : string) : decode_sextets (unpadded s) = Some s.
Proof.
  induction s as [|a|a b|a b c r IH] using string_ind3; cbn [unpadded decode_sextets].
  - reflexivity.
  - rewrite !b64_value_char by apply sextet_lt.
    rewrite regroup_1 by apply N_ascii_bounded. now rewrite ascii_N_embedding.
  - rewrite !b64_value_char by apply sextet_lt.
    destruct (regroup_2 (N_of_ascii a) (N_of_ascii b)) as [-> ->];
      try apply N_ascii_bounded.
    now rewrite !ascii_N_embedding.
  - rewrite !b64_value_char by apply sextet_lt. rewrite IH.
    destruct (regroup_3 (N_of_ascii a) (N_of_ascii b) (N_of_ascii c)) as (-> & -> & ->);
      try apply N_ascii_bounded.
    now rewrite !ascii_N_embedding.
Qed.

(** [atob] decodes what [btoa] encodes. *)
Lemma atob_btoa (s : string) : atob (btoa s) = Some s.
Proof.
  unfold atob. rewrite remove_whitespace_btoa.
  destruct (length_btoa s) as [k Hk]. rewrite Hk.
  replace (4 * k)%nat with (k * 4)%nat by lia. rewrite Nat.Div0.mod_mul.
  cbn [Nat.eqb]. rewrite strip_padding_btoa. apply decode_unpadded.
Qed.

(** The encoding of data that starts with the gzip member header (the magic
    bytes 1f 8b and the method 08) starts with [H4sI]. *)
Lemma btoa_gzip_header (r : string) :
  startsWith "H4sI" (btoa (String "031" (String "139" (String "008" r)))) = true.
Proof. cbn [btoa]. unfold startsWith. simpl. now destruct (btoa r). Qed.

Lemma bytes_of_binary_string_of_bytes (bytes : list Byte.byte) :
  bytes_of_binary_string (binary_string_of_bytes bytes) = bytes.
Proof.
  unfold bytes_of_binary_string, binary_string_of_bytes.
  rewrite list_ascii_of_string_of_list_ascii, map_map.
  rewrite <- (map_id bytes) at 2. apply map_ext. intros b. apply byte_of_ascii_of_byte.
Qed.

End Base64Facts.

(* ===================================================================== *)
(** * The message envelope: detection and decoding *)
(* ===================================================================== *)

Section EnvelopeFacts.
Import Js SignalR.

(** The collaborators of the decode path and, on the sending side, the
    serialiser and the compressor. *)
Variable json : Type.
Variable JSON_parse : string -> option json.
Variable JSON_stringify : json -> string.
Variable pako_inflate : list Byte.byte -> option string.
Variable compress : string -> list Byte.byte.

(** Data in the gzip format: it starts with the magic bytes 1f 8b and the
    compression method 08. *)
Definition gzip_member (bytes : list Byte.byte) : Prop :=
  exists rest, bytes = Byte.x1f :: Byte.x8b :: Byte.x08 :: rest.

(** The envelope the sending side builds for a value. *)
Definition encode_envelope (v : json) : string :=
  btoa (binary_string_of_bytes (compress (JSON_stringify v))).

(** C8, as amended: when the compressor writes the gzip format, the decode
    path gives back the value that was serialised, compressed and
    base64-encoded; and a message that does not start with [H4sI] is parsed
    as JSON directly, whatever the decompressor would do. *)
Theorem envelope_round_trip :
  (forall v, JSON_parse (JSON_stringify v) = Some v) ->
  (forall text, pako_inflate (compress text) = Some text) ->
  (forall text, gzip_member (compress text)) ->
  (forall v, decompressMessage json JSON_parse pako_inflate (encode_envelope v) = inl v) /\
  (forall message inflate,
     startsWith "H4sI" message = false ->
     decompressMessage json JSON_parse inflate message = parse_json json JSON_parse message).
Proof.
  intros Hjson Hinflate Hgzip. split.
  - intros v. unfold decompressMessage, encode_envelope.
    destruct (Hgzip (JSON_stringify v)) as [rest Hrest].
    assert (Hprefix : startsWith "H4sI"
              (btoa (binary_string_of_bytes (compress (JSON_stringify v)))) = true).
    { rewrite Hrest. apply btoa_gzip_header. }
    rewrite Hprefix, atob_btoa, bytes_of_binary_string_of_bytes, Hinflate.
    unfold parse_json. now rewrite Hjson.
  - intros message inflate Hplain. unfold decompressMessage. now rewrite Hplain.
Qed.

End EnvelopeFacts.

Section EnvelopeInstances.
Import Js SignalR.
Local Open Scope string_scope.

(** The JSON texts [true] and [false]. *)
Definition parse_boolean (text : string) : option bool :=
  if String.eqb text "true" then Some true
  else if String.eqb text "false" then Some false
  else None.

Definition stringify_boolean (v : bool) : string :=
  if v then "true" else "false".

(** A compressor that writes the gzip member header and stores the text
    behind it, and its decompressor. *)
Definition store_gzip (text : string) : list Byte.byte :=
  Byte.x1f :: Byte.x8b :: Byte.x08 :: bytes_of_binary_string text.

Definition inflate_gzip (bytes : list Byte.byte) : option string :=
  match bytes with
  | Byte.x1f :: Byte.x8b :: Byte.x08 :: rest => Some (binary_string_of_bytes rest)
  | _ => None
  end.

(** The same with the header of the zlib format (78 9c), which
    [pako.deflate] writes and [pako.inflate] reads as well. *)
Definition store_zlib (text : string) : list Byte.byte :=
  Byte.x78 :: Byte.x9c :: bytes_of_binary_string text.

Definition inflate_zlib (bytes : list Byte.byte) : option string :=
  match bytes with
  | Byte.x78 :: Byte.x9c :: rest => Some (binary_string_of_bytes rest)
  | _ => None
  end.

Lemma binary_string_of_bytes_of_binary_string (text : string) :
  binary_string_of_bytes (bytes_of_binary_string text) = text.
Proof.
  unfold bytes_of_binary_string, binary_string_of_bytes.
  rewrite map_map. rewrite (map_ext _ (fun ch => ch)) by apply ascii_of_byte_of_ascii.
  rewrite map_id. apply string_of_list_ascii_of_string.
Qed.

(** The JSON value [true], through the storing gzip compressor. *)
Lemma envelope_round_trip_witness :
  ((forall v, parse_boolean (stringify_boolean v) = Some v) /\
   (forall text, inflate_gzip (store_gzip text) = Some text) /\
   (forall text, gzip_member (store_gzip text))) /\
  decompressMessage bool parse_boolean inflate_gzip
    (encode_envelope bool stringify_boolean store_gzip true) = inl true.
Proof.
  assert (Hjson : forall v, parse_boolean (stringify_boolean v) = Some v)
    by (intros []; reflexivity).
  assert (Hinflate : forall text, inflate_gzip (store_gzip text) = Some text)
    by (intros text; simpl; now rewrite binary_string_of_bytes_of_binary_string).
  assert (Hgzip : forall text, gzip_member (store_gzip text))
    by (intros text; now eexists).
  split; [now repeat split|].
  exact (proj1 (envelope_round_trip bool parse_boolean stringify_boolean
                  inflate_gzip store_gzip Hjson Hinflate Hgzip) true).
Defined.

(** C8, as stated, fails: with a compressor of the gzip family that writes
    the zlib format the envelope does not start with [H4sI]; the decode path
    takes it for plain JSON and fails to parse it. *)
Lemma envelope_zlib_not_detected :
  (forall v, parse_boolean (stringify_boolean v) = Some v) /\
  (forall text, inflate_zlib (store_zlib text) = Some text) /\
  startsWith "H4sI" (encode_envelope bool stringify_boolean store_zlib true) = false /\
  decompressMessage bool parse_boolean inflate_zlib
    (encode_envelope bool stringify_boolean store_zlib true) = inr SyntaxError.
Proof.
  split; [intros []; reflexivity|].
  split; [intros text; simpl; now rewrite binary_string_of_bytes_of_binary_string|].
  split; reflexivity.
Qed.

End EnvelopeInstances.

(* ===================================================================== *)
(** * The token manager *)
(* ===================================================================== *)

Section AuthFacts.
Import Js Auth.

(** The instant [expiry] lies more than the safety margin after [now]. *)
Definition beyond_margin (now : Z) (expiry : num) : Prop :=
  match expiry with
  | Int e => now + TOKEN_REFRESH_MARGIN < e
  | PosInf => True
  | NegInf | NaN => False
  end.

(** The manager holds the token [tok], not empty, with an expiry beyond the
    margin. *)
Definition holds_valid_token (now : Z) (m : TokenManager) (tok : string) : Prop :=
  accessToken m = Some tok /\ tok <> EmptyString /\
  exists expiry, tokenExpiry m = Some expiry /\ beyond_margin now expiry.

(** The exchange does not deliver a token. *)
Definition exchange_fails (answer : Exchange) : Prop :=
  match answer with
  | TokenResponse _ _ => False
  | _ => True
  end.

(** The call fails with an error. *)
Definition fails {A : Type} (result : string + A) : Prop :=
  exists err, result = inr err.

Lemma cached_token_valid (now : Z) (m : TokenManager) (tok : string) :
  0 <= now ->
  cached_token now m = Some tok <-> holds_valid_token now m tok.
Proof.
  intros Hnow. unfold cached_token, holds_valid_token, beyond_margin, TOKEN_REFRESH_MARGIN.
  destruct (accessToken m) as [t|]; [|split; [discriminate | now intros [? _]]].
  destruct (tokenExpiry m) as [expiry|];
    [|split; [discriminate | now intros (_ & _ & ? & ? & _)]].
  split.
  - destruct t as [|ch t]; [discriminate|].
    destruct expiry as [e| | |]; simpl; try discriminate.
    + destruct (Z.eqb_spec e 0); simpl; [discriminate|].
      destruct (Z.ltb_spec now (e + - 30000)); [|discriminate].
      intros [= <-]. repeat split; try discriminate.
      exists (Int e). split; [reflexivity | lia].
    + intros [= <-]. repeat split; try discriminate. now exists PosInf.
  - intros (Htok & Hne & expiry' & Hexp & Hbeyond).
    injection Htok as ->. injection Hexp as ->.
    destruct tok as [|ch t]; [contradiction|].
    destruct expiry' as [e| | |]; simpl in *; try contradiction; [|reflexivity].
    destruct (Z.eqb_spec e 0); [lia|]. simpl.
    destruct (Z.ltb_spec now (e + - 30000)); [reflexivity | lia].
Qed.

Lemma getToken_call_cached (now : Z) (w : World) (tok : string) :
  cached_token now (manager w) = Some tok ->
  getToken_call now w = (Immediate tok, w).
Proof. unfold getToken_call. now intros ->. Qed.

Lemma getToken_call_Immediate (now : Z) (w : World) (tok : string) :
  fst (getToken_call now w) = Immediate tok <-> cached_token now (manager w) = Some tok.
Proof.
  unfold getToken_call.
  destruct (cached_token now (manager w)) as [t|]; simpl.
  - split; congruence.
  - destruct (refreshPromise (manager w)); simpl.
    + split; discriminate.
    + destruct (refreshToken_start w). simpl. split; discriminate.
Qed.

(** With no valid token cached and no refresh in flight, the call fails
    exactly without credentials or when the exchange fails. *)
Lemma getToken_starts (now now' : Z) (answer : Exchange) (w : World) :
  cached_token now (manager w) = None ->
  refreshPromise (manager w) = None ->
  (fails (fst (getToken now answer now' w)) <->
   config (manager w) = None \/ exchange_fails answer) /\
  (forall cfg, config (manager w) = Some cfg ->
     exchanges (snd (getToken now answer now' w)) = exchanges w ++ [cfg]) /\
  (forall cfg tok expires_in,
     config (manager w) = Some cfg -> answer = TokenResponse tok expires_in ->
     fst (getToken now answer now' w) = inl tok).
Proof.
  intros Hcache Hnone. unfold getToken, getToken_call, refreshToken_start, fails.
  rewrite Hcache, Hnone.
  destruct (config (manager w)) as [cfg|]; simpl.
  - repeat split.
    + intros [err Herr]. right. destruct answer; simpl in *; try exact I. discriminate.
    + intros [Hcfg|Hfail]; [discriminate|].
      destruct answer; simpl in *; try contradiction; now eexists.
    + intros cfg' [= <-]. now destruct answer.
    + intros cfg' tok expires_in _ ->. reflexivity.
  - repeat split.
    + intros _. now left.
    + intros _. now eexists.
    + discriminate.
    + discriminate.
Qed.

(** With a refresh in flight, the call awaits it and sends nothing. *)
Lemma getToken_joins (now now' : Z) (answer : Exchange) (w : World) (pr : Promise) :
  cached_token now (manager w) = None ->
  refreshPromise (manager w) = Some pr ->
  fst (getToken_call now w) = Joins pr /\
  exchanges (snd (getToken now answer now' w)) = exchanges w /\
  (fails (fst (getToken now answer now' w)) <->
   match pr with
   | Pending => exchange_fails answer
   | Rejected _ => True
   end).
Proof.
  intros Hcache Hpr. unfold getToken, getToken_call, fails. rewrite Hcache, Hpr. simpl.
  split; [reflexivity|]. split.
  - destruct pr as [|e]; simpl; [now destruct answer | reflexivity].
  - destruct pr as [|e]; simpl.
    + destruct answer; simpl; split; try (intros _; exact I);
        try (intros _; eexists; reflexivity); try contradiction.
      intros [err Herr]. discriminate Herr.
    + split; [intros _; exact I | intros _; eexists; reflexivity].
Qed.

(** C9, as amended: [getToken] returns the cached token at once, with no
    exchange and no change of state, exactly when a non-empty token is
    cached whose expiry lies more than 30 seconds after now, so that a token
    returned from the cache never expires within 30 seconds; otherwise it
    awaits the refresh in flight, sending nothing and failing exactly when
    that refresh fails, or starts one, which fails exactly without
    credentials or when the exchange fails, and otherwise returns the token
    of the exchange, whatever its lifetime. *)
Theorem getToken_contract (now now' : Z) (answer : Exchange) (w : World) :
  0 <= now ->
  (forall tok,
     fst (getToken_call now w) = Immediate tok <-> holds_valid_token now (manager w) tok) /\
  (forall tok,
     holds_valid_token now (manager w) tok ->
     getToken now answer now' w = (inl tok, w)) /\
  ((forall tok, ~ holds_valid_token now (manager w) tok) ->
   match refreshPromise (manager w) with
   | Some pr =>
     fst (getToken_call now w) = Joins pr /\
     exchanges (snd (getToken now answer now' w)) = exchanges w /\
     (fails (fst (getToken now answer now' w)) <->
      match pr with
      | Pending => exchange_fails answer
      | Rejected _ => True
      end)
   | None =>
     (fails (fst (getToken now answer now' w)) <->
      config (manager w) = None \/ exchange_fails answer) /\
     (forall cfg, config (manager w) = Some cfg ->
        exchanges (snd (getToken now answer now' w)) = exchanges w ++ [cfg]) /\
     (forall cfg tok expires_in,
        config (manager w) = Some cfg -> answer = TokenResponse tok expires_in ->
        fst (getToken now answer now' w) = inl tok)
   end).
Proof.
  intros Hnow. split; [|split].
  - intros tok. rewrite getToken_call_Immediate. now apply cached_token_valid.
  - intros tok Hvalid. apply cached_token_valid in Hvalid; [|assumption].
    unfold getToken. now rewrite (getToken_call_cached _ _ _ Hvalid).
  - intros Hnone.
    assert (Hcache : cached_token now (manager w) = None).
    { destruct (cached_token now (manager w)) as [tok|] eqn:E; [|reflexivity].
      apply cached_token_valid in E; [|assumption]. now elim (Hnone tok). }
    destruct (refreshPromise (manager w)) as [pr|] eqn:Hpr.
    + now apply getToken_joins.
    + now apply getToken_starts.
Qed.

(** A manager with credentials and a token that expires at [expiry]. *)
Definition credentials : AuthConfig :=
  {| clientId := "client"%string; clientSecret := "secret"%string |}.

Definition world_with (tok : option string) (expiry : option num) : World :=
  {| manager := {| accessToken := tok; tokenExpiry := expiry;
                   refreshPromise := None; config := Some credentials |};
     exchanges := []; notified := [] |}.

(** A token that expires 99 seconds from now is returned from the cache, and
    the world is as before. *)
Lemma getToken_contract_witness :
  0 <= 1000 /\
  getToken 1000 FetchRejects 2000 (world_with (Some "token"%string) (Some (Int 100000)))
  = (inl "token"%string, world_with (Some "token"%string) (Some (Int 100000))).
Proof.
  split; [lia|].
  refine (proj1 (proj2 (getToken_contract 1000 2000 FetchRejects
                          (world_with (Some "token"%string) (Some (Int 100000)))
                          (proj1 (Z.leb_le 0 1000) eq_refl))) "token"%string _).
  repeat split; [discriminate|]. exists (Int 100000). split; [reflexivity|].
  unfold beyond_margin, TOKEN_REFRESH_MARGIN. lia.
Defined.

(** C9, as stated, fails: the identity provider answers with a token that
    lives 10 seconds; [getToken] returns it to the caller, and it expires
    within 30 seconds of the instant it is returned. *)
Lemma getToken_returns_short_lived_token :
  let w := world_with None None in
  let answer := TokenResponse "short"%string (Int 10) in
  fst (getToken 1000 answer 1200 w) = inl "short"%string /\
  tokenExpiry (manager (snd (getToken 1000 answer 1200 w))) = Some (Int 11200) /\
  ~ beyond_margin 1200 (Int 11200).
Proof.
  cbv zeta. repeat split. unfold beyond_margin, TOKEN_REFRESH_MARGIN. lia.
Qed.

Lemma settle_clears_marker (pr : Promise) (answer : Exchange) (now : Z) (w : World) :
  refreshPromise (manager (snd (settle pr answer now w))) = None.
Proof. unfold settle. destruct pr; [destruct (refreshToken_finish answer now w)|]; reflexivity. Qed.

(** A refresh that fails leaves the token, its expiry and the listeners alone. *)
Lemma settle_failure (pr : Promise) (answer : Exchange) (now : Z) (w : World)
      (err : AuthError) :
  fst (settle pr answer now w) = inr err ->
  let w' := snd (settle pr answer now w) in
  accessToken (manager w') = accessToken (manager w) /\
  tokenExpiry (manager w') = tokenExpiry (manager w) /\
  config (manager w') = config (manager w) /\
  exchanges w' = exchanges w /\
  notified w' = notified w.
Proof.
  unfold settle. destruct pr as [|e]; [destruct answer|]; simpl; try discriminate;
    intros _; repeat split.
Qed.

(** A token that is not valid now is not valid later. *)
Lemma cached_token_later (now later : Z) (m m' : TokenManager) :
  now <= later ->
  accessToken m' = accessToken m -> tokenExpiry m' = tokenExpiry m ->
  cached_token now m = None -> cached_token later m' = None.
Proof.
  intros Hle Htok Hexp. unfold cached_token. rewrite Htok, Hexp.
  destruct (accessToken m) as [tok|]; [|reflexivity].
  destruct (tokenExpiry m) as [expiry|]; [|reflexivity].
  destruct (truthy_str tok); [|reflexivity].
  destruct (truthy_num expiry); [|reflexivity]. simpl.
  destruct expiry as [e| | |]; simpl; try discriminate; try reflexivity.
  destruct (Z.ltb_spec now (e + -30000)); [discriminate|]. intros _.
  destruct (Z.ltb_spec later (e + -30000)); [lia | reflexivity].
Qed.

(** C10: when a call of [getToken] fails, the cached token, its expiry and
    the listeners are as before the call, the marker of the refresh in
    flight is cleared (as it is whenever a refresh settles), and a later
    call starts a refresh of its own, sending a new exchange when
    credentials are configured. *)
Theorem getToken_failure (now now' : Z) (answer : Exchange) (w : World) (err : AuthError) :
  fst (getToken now answer now' w) = inr err ->
  let w' := snd (getToken now answer now' w) in
  accessToken (manager w') = accessToken (manager w) /\
  tokenExpiry (manager w') = tokenExpiry (manager w) /\
  notified w' = notified w /\
  refreshPromise (manager w') = None /\
  (forall pr answer0 t w0, refreshPromise (manager (snd (settle pr answer0 t w0))) = None) /\
  (forall later, now <= later ->
     exists pr, fst (getToken_call later w') = Starts pr /\
     (forall cfg, config (manager w') = Some cfg ->
        exchanges (snd (getToken_call later w')) = exchanges w' ++ [cfg])).
Proof.
  intros Hfail. cbv zeta.
  assert (Hcache : cached_token now (manager w) = None).
  { destruct (cached_token now (manager w)) as [tok|] eqn:E; [|reflexivity].
    unfold getToken in Hfail. rewrite (getToken_call_cached _ _ _ E) in Hfail.
    discriminate Hfail. }
  assert (Hrun : exists pr w1,
             getToken now answer now' w = settle pr answer now' w1 /\
             accessToken (manager w1) = accessToken (manager w) /\
             tokenExpiry (manager w1) = tokenExpiry (manager w) /\
             notified w1 = notified w).
  { unfold getToken, getToken_call. rewrite Hcache.
    destruct (refreshPromise (manager w)) as [pr|].
    - exists pr, w. now repeat split.
    - unfold refreshToken_start. destruct (config (manager w)); eexists; eexists;
        (split; [reflexivity|]); now repeat split. }
  destruct Hrun as (pr & w1 & Hrun & Htok1 & Hexp1 & Hnot1).
  rewrite Hrun in Hfail |- *.
  destruct (settle_failure pr answer now' w1 err Hfail) as (Htok & Hexp & Hcfg & Hex & Hnot).
  pose proof (settle_clears_marker pr answer now' w1) as Hmarker.
  set (w' := snd (settle pr answer now' w1)) in *.
  repeat split; try congruence.
  - apply settle_clears_marker.
  - intros later Hle.
    assert (Hlater : cached_token later (manager w') = None).
    { apply (cached_token_later now later (manager w)); try congruence; assumption. }
    unfold getToken_call. rewrite Hlater, Hmarker. unfold refreshToken_start.
    destruct (config (manager w')) as [cfg|]; eexists; (split; [reflexivity|]).
    + now intros cfg' [= <-].
    + discriminate.
Qed.

(** The exchange is refused with status 401. *)
Lemma getToken_failure_witness :
  let w := world_with (Some "stale"%string) (Some (Int 500)) in
  let answer := ResponseNotOk 401 "Unauthorized"%string in
  fst (getToken 1000 answer 1200 w) = inr (AuthenticationFailed 401 "Unauthorized"%string) /\
  accessToken (manager (snd (getToken 1000 answer 1200 w))) = Some "stale"%string /\
  refreshPromise (manager (snd (getToken 1000 answer 1200 w))) = None.
Proof.
  cbv zeta.
  pose proof (getToken_failure 1000 1200 (ResponseNotOk 401 "Unauthorized"%string)
                (world_with (Some "stale"%string) (Some (Int 500)))
                (AuthenticationFailed 401 "Unauthorized"%string) eq_refl) as H.
  cbv zeta in H. destruct H as (Htok & _ & _ & Hmarker & _).
  split; [reflexivity|]. split; [exact Htok | exact Hmarker].
Defined.

(** X3, single flight: once a call has started a refresh, a call made before
    the refresh settles awaits that refresh and sends no exchange. *)
Lemma getToken_single_flight (now later : Z) (w : World) (pr : Promise) :
  now <= later ->
  fst (getToken_call now w) = Starts pr ->
  let w1 := snd (getToken_call now w) in
  fst (getToken_call later w1) = Joins pr /\ snd (getToken_call later w1) = w1.
Proof.
  intros Hle Hstart. cbv zeta. unfold getToken_call in Hstart |- *.
  destruct (cached_token now (manager w)) as [tok|] eqn:Hcache; [discriminate Hstart|].
  destruct (refreshPromise (manager w)) as [pr0|] eqn:Hpr; [discriminate Hstart|].
  unfold refreshToken_start in *.
  destruct (config (manager w)) as [cfg|]; simpl in Hstart |- *;
    injection Hstart as <-;
    rewrite (cached_token_later now later (manager w)) by (assumption || reflexivity);
    now split.
Qed.

(** Two calls one after the other with no token cached: one exchange. *)
Lemma getToken_single_flight_witness :
  let w1 := snd (getToken_call 1000 (world_with None None)) in
  1000 <= 1001 /\
  fst (getToken_call 1000 (world_with None None)) = Starts Pending /\
  fst (getToken_call 1001 w1) = Joins Pending /\
  exchanges (snd (getToken_call 1001 w1)) = [credentials].
Proof.
  cbv zeta.
  destruct (getToken_single_flight 1000 1001 (world_with None None) Pending
              (proj1 (Z.leb_le 1000 1001) eq_refl) eq_refl) as [Hjoin Hsame].
  split; [lia|]. split; [reflexivity|]. split; [exact Hjoin|].
  cbv zeta in Hsame. now rewrite Hsame.
Defined.

End AuthFacts.

(* ===================================================================== *)
(** * Times as text: the round trips *)
(* ===================================================================== *)

Section TextFacts.
Import Js JsText.

Lemma append_assoc (s1 s2 s3 : string) :
  ((s1 ++ s2) ++ s3 = s1 ++ (s2 ++ s3))%string.
Proof. induction s1 as [|ch s1 IH]; simpl; [reflexivity | now rewrite IH]. Qed.

Lemma append_length (s1 s2 : string) :
  String.length (s1 ++ s2) = (String.length s1 + String.length s2)%nat.
Proof. induction s1 as [|ch s1 IH]; simpl; [reflexivity | now rewrite IH]. Qed.

Lemma substring_all (k : nat) (s : string) :
  (String.length s <= k)%nat -> substring 0 k s = s.
Proof.
  revert k; induction s as [|ch s IH]; intros [|k] Hk; simpl in *; try reflexivity; try lia.
  now rewrite IH by lia.
Qed.

(** A character is a decimal digit. *)
Definition is_digit (ch : ascii) : bool :=
  match digit_of 10 ch with
  | Some _ => true
  | None => false
  end.

Fixpoint all_digits (s : string) : bool :=
  match s with
  | EmptyString => true
  | String ch r => is_digit ch && all_digits r
  end.

(** A non-empty string of decimal digits. *)
Definition numeral (s : string) : Prop := all_digits s = true /\ s <> EmptyString.

(** The number a string of decimal digits denotes, after the digits [acc]. *)
Fixpoint decimal (s : string) (acc : Z) : Z :=
  match s with
  | EmptyString => acc
  | String ch r => decimal r (acc * 10 + nullish (digit_of 10 ch) 0)
  end.

Fixpoint occurs (ch : ascii) (s : string) : bool :=
  match s with
  | EmptyString => false
  | String ch' r => Ascii.eqb ch' ch || occurs ch r
  end.

Lemma occurs_append (ch : ascii) (s1 s2 : string) :
  occurs ch (s1 ++ s2) = occurs ch s1 || occurs ch s2.
Proof. induction s1 as [|ch' s1 IH]; simpl; [reflexivity | now rewrite IH, orb_assoc]. Qed.

Lemma all_digits_append (s1 s2 : string) :
  all_digits (s1 ++ s2) = all_digits s1 && all_digits s2.
Proof. induction s1 as [|ch s1 IH]; simpl; [reflexivity | now rewrite IH, andb_assoc]. Qed.

Lemma all_digits_occurs (ch : ascii) (s : string) :
  all_digits s = true -> is_digit ch = false -> occurs ch s = false.
Proof.
  intros Hs Hch; induction s as [|ch' s IH]; simpl in *; [reflexivity|].
  apply andb_true_iff in Hs as [Hd Hs].
  rewrite IH by assumption.
  destruct (Ascii.eqb_spec ch' ch) as [->|_]; [congruence | reflexivity].
Qed.

Lemma split_none (sep : ascii) (s : string) :
  occurs sep s = false -> split sep s = [s].
Proof.
  induction s as [|ch s IH]; simpl; [reflexivity|].
  intros H; apply orb_false_iff in H as [Hch Hs].
  now rewrite Hch, IH.
Qed.

Lemma split_append (sep : ascii) (s1 s2 : string) :
  occurs sep s1 = false ->
  split sep (s1 ++ String sep s2) = s1 :: split sep s2.
Proof.
  induction s1 as [|ch s1 IH]; simpl.
  - intros _. now rewrite Ascii.eqb_refl.
  - intros H; apply orb_false_iff in H as [Hch Hs].
    now rewrite Hch, IH.
Qed.

Lemma decimal_append (s1 s2 : string) (acc : Z) :
  decimal (s1 ++ s2) acc = decimal s2 (decimal s1 acc).
Proof. revert acc; induction s1 as [|ch s1 IH]; intros acc; simpl; [reflexivity | apply IH]. Qed.

Lemma parse_digits_decimal (s : string) (acc : Z) :
  all_digits s = true -> parse_digits 10 s (Some acc) = Some (decimal s acc).
Proof.
  revert acc; induction s as [|ch s IH]; intros acc Hs; simpl in *; [reflexivity|].
  apply andb_true_iff in Hs as [Hd Hs]. unfold is_digit in Hd.
  destruct (digit_of 10 ch) as [d|]; [|discriminate].
  apply IH, Hs.
Qed.

Lemma is_digit_cases (ch : ascii) :
  is_digit ch = true ->
  In ch ["0"; "1"; "2"; "3"; "4"; "5"; "6"; "7"; "8"; "9"]%char.
Proof.
  destruct ch as [[] [] [] [] [] [] [] []]; intros H; vm_compute in H;
    try discriminate H; simpl; tauto.
Qed.

(** [parseInt] on a numeral: no white space, no sign, no radix prefix. *)
Lemma parseInt_numeral (s : string) :
  numeral s -> parseInt s = Int (decimal s 0).
Proof.
  intros [Hs Hne].
  destruct s as [|ch r]; [congruence|]. clear Hne.
  assert (Hp : parse_digits 10 (String ch r) None = Some (decimal (String ch r) 0)).
  { simpl in *. apply andb_true_iff in Hs as [Hd Hr]. unfold is_digit in Hd.
    destruct (digit_of 10 ch) as [d|]; [|discriminate].
    now apply parse_digits_decimal. }
  pose proof Hs as Hs'. simpl in Hs'. apply andb_true_iff in Hs' as [Hd Hr].
  assert (Hx : match r with
               | String ch2 _ => ch2 <> "x"%char /\ ch2 <> "X"%char
               | EmptyString => True
               end).
  { destruct r as [|ch2 r2]; [exact I|].
    simpl in Hr. apply andb_true_iff in Hr as [Hd2 _].
    split; intros ->; discriminate Hd2. }
  apply is_digit_cases in Hd.
  unfold parseInt.
  simpl in Hd.
  destruct Hd as [<-|[<-|[<-|[<-|[<-|[<-|[<-|[<-|[<-|[<-|[]]]]]]]]]]];
    try (cbn [skip_white_space is_white_space]; change (is_white_space _) with false;
         cbv iota; rewrite Hp; f_equal; lia).
  cbn [skip_white_space]. change (is_white_space "0") with false. cbv iota.
  destruct r as [|ch2 r2].
  - rewrite Hp. f_equal; lia.
  - destruct Hx as [Hx1 Hx2].
    destruct ch2 as [[] [] [] [] [] [] [] []];
      try congruence; rewrite Hp; f_equal; lia.
Qed.


Lemma digit_of_digit_char (d : Z) :
  0 <= d < 10 -> digit_of 10 (digit_char d) = Some d.
Proof.
  intros Hd.
  assert (H : In d [0; 1; 2; 3; 4; 5; 6; 7; 8; 9]) by (simpl; lia).
  simpl in H.
  destruct H as [<-|[<-|[<-|[<-|[<-|[<-|[<-|[<-|[<-|[<-|[]]]]]]]]]]]; reflexivity.
Qed.

Lemma is_digit_digit_char (d : Z) : 0 <= d < 10 -> is_digit (digit_char d) = true.
Proof. intros Hd. unfold is_digit. now rewrite digit_of_digit_char. Qed.

Lemma decimal_digit_char (d acc : Z) :
  0 <= d < 10 -> decimal (String (digit_char d) EmptyString) acc = acc * 10 + d.
Proof. intros Hd. simpl. now rewrite digit_of_digit_char. Qed.

(** The digits of [n] are produced in full when [n < 10 * 2 ^ fuel]. *)
Lemma digits_from_spec (fuel : nat) (n : Z) :
  0 <= n < 10 * 2 ^ Z.of_nat fuel ->
  all_digits (digits_from fuel n) = true /\
  digits_from fuel n <> EmptyString /\
  decimal (digits_from fuel n) 0 = n.
Proof.
  revert n; induction fuel as [|fuel IH]; intros n Hn.
  - change (2 ^ Z.of_nat 0) with 1 in Hn. simpl.
    rewrite is_digit_digit_char, digit_of_digit_char by lia.
    repeat split; try discriminate; simpl; lia.
  - rewrite Nat2Z.inj_succ, Z.pow_succ_r in Hn by lia.
    simpl. destruct (Z.ltb_spec n 10) as [Hlt|Hge].
    + simpl. rewrite is_digit_digit_char, digit_of_digit_char by lia.
      repeat split; try discriminate; simpl; lia.
    + assert (Hq : 0 <= n / 10 < 10 * 2 ^ Z.of_nat fuel).
      { split; [apply Z.div_pos; lia | apply Z.div_lt_upper_bound; lia]. }
      assert (Hr : 0 <= n mod 10 < 10) by (apply Z.mod_pos_bound; lia).
      destruct (IH _ Hq) as (Hall & Hne & Hval).
      rewrite all_digits_append, Hall, decimal_append, Hval, decimal_digit_char by lia.
      simpl. rewrite is_digit_digit_char by lia.
      repeat split.
      * destruct (digits_from fuel (n / 10)); [congruence | discriminate].
      * rewrite (Z.div_mod n 10) at 3 by lia. lia.
Qed.

Lemma digits_fuel (n : Z) : 0 <= n -> 0 <= n < 10 * 2 ^ Z.of_nat (Z.to_nat (Z.log2 n)).
Proof.
  intros Hn. rewrite Z2Nat.id by apply Z.log2_nonneg.
  destruct (Z.eq_dec n 0) as [->|Hpos]; [simpl; lia|].
  pose proof (Z.log2_spec n ltac:(lia)) as [_ Hup].
  rewrite Z.pow_succ_r in Hup by apply Z.log2_nonneg.
  lia.
Qed.

Lemma digits_numeral (n : Z) : 0 <= n -> numeral (digits n) /\ decimal (digits n) 0 = n.
Proof.
  intros Hn. destruct (digits_from_spec _ n (digits_fuel n Hn)) as (Hall & Hne & Hval).
  now repeat split.
Qed.

Lemma digits_from_length (fuel : nat) (n : Z) (k : nat) :
  0 <= n < 10 * 2 ^ Z.of_nat fuel -> n < 10 ^ Z.of_nat (S k) ->
  (String.length (digits_from fuel n) <= S k)%nat.
Proof.
  revert n k; induction fuel as [|fuel IH]; intros n k Hn Hk.
  - simpl. lia.
  - rewrite Nat2Z.inj_succ, Z.pow_succ_r in Hn by lia.
    simpl. destruct (Z.ltb_spec n 10) as [Hlt|Hge]; [simpl; lia|].
    rewrite append_length. simpl.
    destruct k as [|k]; [change (10 ^ Z.of_nat 1) with 10 in Hk; lia|].
    rewrite Nat2Z.inj_succ, Z.pow_succ_r in Hk by lia.
    assert (Hq : 0 <= n / 10 < 10 * 2 ^ Z.of_nat fuel).
    { split; [apply Z.div_pos; lia | apply Z.div_lt_upper_bound; lia]. }
    assert (Hk' : n / 10 < 10 ^ Z.of_nat (S k)).
    { apply Z.div_lt_upper_bound; lia. }
    specialize (IH _ _ Hq Hk'). lia.
Qed.

Lemma repeat_zero_digits (k : nat) (s : string) :
  all_digits (repeat_char k "0" ++ s) = all_digits s /\
  decimal (repeat_char k "0" ++ s) 0 = decimal s 0.
Proof. induction k as [|k [IH1 IH2]]; simpl; now split. Qed.

Lemma repeat_char_length (k : nat) (ch : ascii) : String.length (repeat_char k ch) = k.
Proof. induction k as [|k IH]; simpl; [reflexivity | now rewrite IH]. Qed.

(** A field of a clock text: the digits of [n], padded with zeros to [k]
    characters. *)
Definition field (k : nat) (n : Z) : string := padStart k "0" (toString (Int n)).

Lemma field_numeral (k : nat) (n : Z) :
  0 <= n -> numeral (field k n) /\ parseInt (field k n) = Int n.
Proof.
  intros Hn. unfold field, toString, padStart.
  destruct (Z.ltb_spec n 0) as [Hneg|_]; [lia|].
  destruct (digits_numeral n Hn) as [[Hall Hne] Hval].
  destruct (repeat_zero_digits (k - String.length (digits n)) (digits n)) as [Hall' Hval'].
  assert (Hnum : numeral (repeat_char (k - String.length (digits n)) "0" ++ digits n)).
  { split; [now rewrite Hall'|].
    destruct (repeat_char _ _); simpl; [assumption | discriminate]. }
  split; [exact Hnum|].
  rewrite parseInt_numeral by exact Hnum.
  now rewrite Hval', Hval.
Qed.

Lemma field_length (k : nat) (n : Z) :
  0 <= n < 10 ^ Z.of_nat (S k) -> String.length (field (S k) n) = S k.
Proof.
  intros Hn. unfold field, toString, padStart.
  destruct (Z.ltb_spec n 0) as [Hneg|_]; [lia|].
  rewrite append_length, repeat_char_length.
  pose proof (digits_from_length _ n k (digits_fuel n ltac:(lia)) ltac:(lia)) as Hlen.
  fold (digits n) in Hlen. lia.
Qed.

Lemma numeral_truthy (s : string) : numeral s -> truthy_str s = true.
Proof. intros [_ Hne]. destruct s; [congruence | reflexivity]. Qed.

Lemma numeral_no_colon (s : string) : numeral s -> occurs ":" s = false.
Proof. intros [Hs _]. now apply all_digits_occurs. Qed.

Lemma numeral_no_point (s : string) : numeral s -> occurs "." s = false.
Proof. intros [Hs _]. now apply all_digits_occurs. Qed.

(** The seconds part [SS.mmm] of a clock text. *)
Lemma secs_and_ms_numerals (secs millis : string) :
  numeral secs -> numeral millis ->
  Replay.secs_and_ms (secs ++ String "." millis) = (secs, Some millis).
Proof.
  intros Hs Hm. unfold Replay.secs_and_ms.
  rewrite split_append by now apply numeral_no_point.
  now rewrite split_none by now apply numeral_no_point.
Qed.

Lemma seconds_part_no_colon (secs millis : string) :
  numeral secs -> numeral millis -> occurs ":" (secs ++ String "." millis) = false.
Proof.
  intros Hs Hm. rewrite occurs_append. simpl.
  now rewrite !numeral_no_colon.
Qed.

(** [MM:SS.mmm] splits at the colon into its two parts. *)
Lemma split_clock2 (mins secs millis : string) :
  numeral mins -> numeral secs -> numeral millis ->
  split ":" (mins ++ String ":" (secs ++ String "." millis))
  = [mins; (secs ++ String "." millis)%string].
Proof.
  intros Hm Hs Hf.
  rewrite split_append by now apply numeral_no_colon.
  now rewrite split_none by now apply seconds_part_no_colon.
Qed.

(** [HH:MM:SS.mmm] splits into its three parts. *)
Lemma split_clock3 (hours mins secs millis : string) :
  numeral hours -> numeral mins -> numeral secs -> numeral millis ->
  split ":" (hours ++ String ":" (mins ++ String ":" (secs ++ String "." millis)))
  = [hours; mins; (secs ++ String "." millis)%string].
Proof.
  intros Hh Hm Hs Hf.
  rewrite split_append by now apply numeral_no_colon.
  now rewrite split_clock2.
Qed.

Lemma clock_truthy (s1 s2 : string) : numeral s1 -> truthy_str (s1 ++ s2) = true.
Proof. intros [_ Hne]. destruct s1; [congruence | reflexivity]. Qed.

(** Minutes, seconds and milliseconds make up the time again. *)
Lemma minutes_seconds_millis (ms : Z) :
  0 <= ms ->
  ms / 60000 * 60000 + Z.rem ms 60000 / 1000 * 1000 + Z.rem ms 1000 = ms.
Proof.
  intros Hms.
  rewrite !Z.rem_mod_nonneg by lia.
  pose proof (Z.div_mod ms 60000 ltac:(lia)) as H1.
  pose proof (Z.div_mod (ms mod 60000) 1000 ltac:(lia)) as H2.
  rewrite (Z.mod_mod_divide ms 60000 1000) in H2 by (exists 60; reflexivity).
  lia.
Qed.

Lemma hours_minutes_seconds_millis (ms : Z) :
  0 <= ms ->
  ms / 3600000 * 3600000 + Z.rem ms 3600000 / 60000 * 60000
  + Z.rem ms 60000 / 1000 * 1000 + Z.rem ms 1000 = ms.
Proof.
  intros Hms.
  rewrite !Z.rem_mod_nonneg by lia.
  pose proof (Z.div_mod ms 3600000 ltac:(lia)) as H0.
  pose proof (Z.div_mod (ms mod 3600000) 60000 ltac:(lia)) as H1.
  rewrite (Z.mod_mod_divide ms 3600000 60000) in H1 by (exists 60; reflexivity).
  pose proof (Z.div_mod (ms mod 60000) 1000 ltac:(lia)) as H2.
  rewrite (Z.mod_mod_divide ms 60000 1000) in H2 by (exists 60; reflexivity).
  lia.
Qed.

Lemma clock_bounds (ms k : Z) : 0 <= ms -> 0 < k -> 0 <= ms / k /\ 0 <= Z.rem ms k < k.
Proof.
  intros Hms Hk. rewrite Z.rem_mod_nonneg by lia.
  split; [apply Z.div_pos; lia | apply Z.mod_pos_bound; lia].
Qed.


(** What the time parsers return on a clock text of two fields and a
    fraction, and of three. *)
Lemma scale_add_2 (a b d : Z) :
  add (add (scale (Int a) 60000) (scale (Int b) 1000)) (Int d)
  = Int (a * 60000 + b * 1000 + d).
Proof. reflexivity. Qed.

Lemma scale_add_3 (h a b d : Z) :
  add (add (add (scale (Int h) 3600000) (scale (Int a) 60000)) (scale (Int b) 1000)) (Int d)
  = Int (h * 3600000 + a * 60000 + b * 1000 + d).
Proof. reflexivity. Qed.

Lemma parseLapTimeToMs_clock2 (m s f : Z) :
  0 <= m -> 0 <= s -> 0 <= f < 1000 ->
  Replay.parseLapTimeToMs
    (Some (field 2 m ++ String ":" (field 2 s ++ String "." (field 3 f)))%string)
  = Int (m * 60000 + s * 1000 + f).
Proof.
  intros Hm Hs Hf.
  destruct (field_numeral 2 m Hm) as [Nm Pm].
  destruct (field_numeral 2 s Hs) as [Ns Ps].
  destruct (field_numeral 3 f ltac:(lia)) as [Nf Pf].
  unfold Replay.parseLapTimeToMs. cbn [truthy_opt or_str].
  rewrite clock_truthy by assumption. cbn [negb].
  rewrite split_clock2, secs_and_ms_numerals by assumption.
  unfold Replay.parse_ms. cbn [option_map or_str]. unfold slice0.
  rewrite substring_all by (rewrite field_length; [lia | simpl; lia]).
  rewrite numeral_truthy, Pm, Ps, Pf by assumption.
  apply scale_add_2.
Qed.

Lemma parseLapTimeToMs_clock3 (h m s f : Z) :
  0 <= h -> 0 <= m -> 0 <= s -> 0 <= f < 1000 ->
  Replay.parseLapTimeToMs
    (Some (field 2 h ++ String ":" (field 2 m ++ String ":"
            (field 2 s ++ String "." (field 3 f))))%string)
  = Int (h * 3600000 + m * 60000 + s * 1000 + f).
Proof.
  intros Hh Hm Hs Hf.
  destruct (field_numeral 2 h Hh) as [Nh Ph].
  destruct (field_numeral 2 m Hm) as [Nm Pm].
  destruct (field_numeral 2 s Hs) as [Ns Ps].
  destruct (field_numeral 3 f ltac:(lia)) as [Nf Pf].
  unfold Replay.parseLapTimeToMs. cbn [truthy_opt or_str].
  rewrite clock_truthy by assumption. cbn [negb].
  rewrite split_clock3, secs_and_ms_numerals by assumption.
  unfold Replay.parse_ms. cbn [option_map or_str]. unfold slice0.
  rewrite substring_all by (rewrite field_length; [lia | simpl; lia]).
  rewrite numeral_truthy, Ph, Pm, Ps, Pf by assumption.
  apply scale_add_3.
Qed.

(** [parseTimeToMs] of the unified data layer is the replay's parser. *)
Lemma parseTimeToMs_parseLapTimeToMs (timeStr : option string) :
  UnifiedData.parseTimeToMs timeStr = Replay.parseLapTimeToMs timeStr.
Proof. reflexivity. Qed.

Lemma parseRMTime_clock2 (m s f : Z) :
  0 <= m -> 0 <= s -> 0 <= f ->
  RaceMonitor.parseRMTime
    (Some (field 2 m ++ String ":" (field 2 s ++ String "." (field 3 f)))%string)
  = Int (m * 60000 + s * 1000 + f).
Proof.
  intros Hm Hs Hf.
  destruct (field_numeral 2 m Hm) as [Nm Pm].
  destruct (field_numeral 2 s Hs) as [Ns Ps].
  destruct (field_numeral 3 f Hf) as [Nf Pf].
  unfold RaceMonitor.parseRMTime. cbn [truthy_opt or_str].
  rewrite clock_truthy by assumption. cbn [negb].
  rewrite split_clock2, secs_and_ms_numerals by assumption.
  cbn [or_str].
  rewrite numeral_truthy, Pm, Ps, Pf by assumption.
  apply scale_add_2.
Qed.

Lemma parseRMTime_clock3 (h m s f : Z) :
  0 <= h -> 0 <= m -> 0 <= s -> 0 <= f ->
  RaceMonitor.parseRMTime
    (Some (field 2 h ++ String ":" (field 2 m ++ String ":"
            (field 2 s ++ String "." (field 3 f))))%string)
  = Int (h * 3600000 + m * 60000 + s * 1000 + f).
Proof.
  intros Hh Hm Hs Hf.
  destruct (field_numeral 2 h Hh) as [Nh Ph].
  destruct (field_numeral 2 m Hm) as [Nm Pm].
  destruct (field_numeral 2 s Hs) as [Ns Ps].
  destruct (field_numeral 3 f Hf) as [Nf Pf].
  unfold RaceMonitor.parseRMTime. cbn [truthy_opt or_str].
  rewrite clock_truthy by assumption. cbn [negb].
  rewrite split_clock3, secs_and_ms_numerals by assumption.
  cbn [or_str].
  rewrite numeral_truthy, Ph, Pm, Ps, Pf by assumption.
  apply scale_add_3.
Qed.

(** The text [formatMsToTime] and [formatRMTime] produce for a positive
    time. *)
Lemma formatMsToTime_positive (ms : Z) (includeHours : bool) :
  0 < ms ->
  UnifiedData.formatMsToTime (Int ms) includeHours
  = if includeHours || (0 <? ms / 3600000)
    then (field 2 (ms / 3600000) ++ String ":" (field 2 (Z.rem ms 3600000 / 60000) ++
          String ":" (field 2 (Z.rem ms 60000 / 1000) ++ String "." (field 3 (Z.rem ms 1000)))))%string
    else (field 2 (Z.rem ms 3600000 / 60000) ++
          String ":" (field 2 (Z.rem ms 60000 / 1000) ++ String "." (field 3 (Z.rem ms 1000))))%string.
Proof.
  intros Hms. unfold UnifiedData.formatMsToTime.
  cbn [strict_eq isNaN]. destruct (Z.eqb_spec ms 0) as [->|_]; [lia|].
  reflexivity.
Qed.

Lemma formatRMTime_formatMsToTime (ms : Z) (includeHours : bool) :
  RaceMonitor.formatRMTime (Int ms) includeHours
  = UnifiedData.formatMsToTime (Int ms) includeHours.
Proof.
  unfold RaceMonitor.formatRMTime, UnifiedData.formatMsToTime.
  cbn [isNaN]. now rewrite orb_false_r.
Qed.

(** X4. A best lap time written to the replay cache reads back unchanged:
    [parseLapTimeToMs (formatMsToTime ms) = ms] for every whole number of
    milliseconds [ms >= 0], whatever the number of minutes. *)
Theorem replay_time_round_trip (ms : Z) :
  0 <= ms ->
  Replay.parseLapTimeToMs (Some (ReplayControls.formatMsToTime (Int ms))) = Int ms.
Proof.
  intros Hms. unfold ReplayControls.formatMsToTime.
  cbn [truthy_num strict_eq].
  destruct (Z.eqb_spec ms 0) as [->|Hne]; [reflexivity|].
  cbn [negb orb floor_div remainder].
  destruct (clock_bounds ms 60000 Hms ltac:(lia)) as [Hm Hr].
  destruct (clock_bounds ms 1000 Hms ltac:(lia)) as [_ Hf].
  assert (Hs : 0 <= Z.rem ms 60000 / 1000) by (apply Z.div_pos; lia).
  change (padStart ?k "0" (toString (Int ?z))) with (field k z).
  change (":" ++ ?s)%string with (String ":" s).
  change ("." ++ ?s)%string with (String "." s).
  rewrite parseLapTimeToMs_clock2 by assumption.
  f_equal. apply minutes_seconds_millis, Hms.
Qed.

Lemma replay_time_round_trip_witness :
  0 <= 83456 /\
  Replay.parseLapTimeToMs (Some (ReplayControls.formatMsToTime (Int 83456))) = Int 83456.
Proof. split; [lia|]. apply replay_time_round_trip. lia. Defined.

(** X5. A positive time formatted by the unified data layer reads back
    unchanged, with or without the hours field; the placeholder shown for the
    time 0 reads back as NaN. *)
Theorem unified_time_round_trip (ms : Z) (includeHours : bool) :
  0 < ms ->
  UnifiedData.parseTimeToMs (Some (UnifiedData.formatMsToTime (Int ms) includeHours)) = Int ms
  /\ UnifiedData.parseTimeToMs (Some (UnifiedData.formatMsToTime (Int 0) includeHours)) = NaN.
Proof.
  intros Hms. split; [|reflexivity].
  rewrite parseTimeToMs_parseLapTimeToMs, formatMsToTime_positive by assumption.
  assert (H0 : 0 <= ms) by lia.
  destruct (clock_bounds ms 3600000 H0 ltac:(lia)) as [Hh Hrh].
  destruct (clock_bounds ms 60000 H0 ltac:(lia)) as [_ Hr].
  destruct (clock_bounds ms 1000 H0 ltac:(lia)) as [_ Hf].
  assert (Hm : 0 <= Z.rem ms 3600000 / 60000) by (apply Z.div_pos; lia).
  assert (Hs : 0 <= Z.rem ms 60000 / 1000) by (apply Z.div_pos; lia).
  destruct (includeHours || (0 <? ms / 3600000)) eqn:Ehours.
  - rewrite parseLapTimeToMs_clock3 by assumption.
    f_equal. apply hours_minutes_seconds_millis, H0.
  - rewrite parseLapTimeToMs_clock2 by assumption.
    apply orb_false_iff in Ehours as [_ Ehours]. apply Z.ltb_ge in Ehours.
    assert (Hzero : ms / 3600000 = 0) by lia.
    f_equal. rewrite <- (hours_minutes_seconds_millis ms H0) at 4.
    rewrite Hzero. lia.
Qed.

Lemma unified_time_round_trip_witness :
  0 < 3723004 /\
  UnifiedData.parseTimeToMs (Some (UnifiedData.formatMsToTime (Int 3723004) false)) = Int 3723004
  /\ UnifiedData.parseTimeToMs (Some (UnifiedData.formatMsToTime (Int 0) false)) = NaN.
Proof. split; [lia|]. apply unified_time_round_trip. lia. Defined.

(** X6. A positive time formatted for Race-Monitor reads back unchanged. *)
Theorem racemonitor_time_round_trip (ms : Z) (includeHours : bool) :
  0 < ms ->
  RaceMonitor.parseRMTime (Some (RaceMonitor.formatRMTime (Int ms) includeHours)) = Int ms.
Proof.
  intros Hms.
  rewrite formatRMTime_formatMsToTime, formatMsToTime_positive by assumption.
  assert (H0 : 0 <= ms) by lia.
  destruct (clock_bounds ms 3600000 H0 ltac:(lia)) as [Hh Hrh].
  destruct (clock_bounds ms 60000 H0 ltac:(lia)) as [_ Hr].
  destruct (clock_bounds ms 1000 H0 ltac:(lia)) as [_ Hf].
  assert (Hm : 0 <= Z.rem ms 3600000 / 60000) by (apply Z.div_pos; lia).
  assert (Hs : 0 <= Z.rem ms 60000 / 1000) by (apply Z.div_pos; lia).
  destruct (includeHours || (0 <? ms / 3600000)) eqn:Ehours.
  - rewrite parseRMTime_clock3 by lia.
    f_equal. apply hours_minutes_seconds_millis, H0.
  - rewrite parseRMTime_clock2 by lia.
    apply orb_false_iff in Ehours as [_ Ehours]. apply Z.ltb_ge in Ehours.
    assert (Hzero : ms / 3600000 = 0) by lia.
    f_equal. rewrite <- (hours_minutes_seconds_millis ms H0) at 4.
    rewrite Hzero. lia.
Qed.

Lemma racemonitor_time_round_trip_witness :
  0 < 59999 /\
  RaceMonitor.parseRMTime (Some (RaceMonitor.formatRMTime (Int 59999) true)) = Int 59999.
Proof. split; [lia|]. apply racemonitor_time_round_trip. lia. Defined.

End TextFacts.

(* ===================================================================== *)
(** * The lines of the Race-Monitor feed *)
(* ===================================================================== *)

Section ParseLineFacts.
Import Js JsText RaceMonitor.

(** A field of a line as it is written: bare, or between double quotes. *)
Inductive Field : Type :=
| Bare (text : string)
| Quoted (text : string).

Definition content (f : Field) : string :=
  match f with
  | Bare text | Quoted text => text
  end.

Definition written (f : Field) : string :=
  match f with
  | Bare text => text
  | Quoted text => String quote (text ++ String quote EmptyString)
  end.

(** A bare field holds no comma and no quote, a quoted field no quote. *)
Definition well_written (f : Field) : bool :=
  match f with
  | Bare text => negb (occurs "," text) && negb (occurs quote text)
  | Quoted text => negb (occurs quote text)
  end.

(** The line made of the fields, separated by commas. *)
Definition line_of (fields : list Field) : string :=
  String.concat "," (map written fields).

Lemma append_nil_r (s : string) : (s ++ EmptyString)%string = s.
Proof. induction s as [|ch s IH]; simpl; [reflexivity | now rewrite IH]. Qed.

Lemma append_snoc (s1 s2 : string) (ch : ascii) :
  ((s1 ++ String ch EmptyString) ++ s2 = s1 ++ String ch s2)%string.
Proof. now rewrite append_assoc. Qed.

Lemma parseLine_from_bare (text rest : string) (parts : list string) (current : string) :
  occurs "," text = false -> occurs quote text = false ->
  parseLine_from (text ++ rest) parts current false
  = parseLine_from rest parts (current ++ text) false.
Proof.
  revert current. induction text as [|ch text IH]; intros current Hc Hq; simpl in *.
  - now rewrite append_nil_r.
  - apply orb_false_iff in Hc as [Hc Hc']. apply orb_false_iff in Hq as [Hq Hq'].
    rewrite Hq, Hc. simpl. rewrite IH by assumption. now rewrite append_snoc.
Qed.

Lemma parseLine_from_quoted (text rest : string) (parts : list string) (current : string) :
  occurs quote text = false ->
  parseLine_from (text ++ rest) parts current true
  = parseLine_from rest parts (current ++ text) true.
Proof.
  revert current. induction text as [|ch text IH]; intros current Hq; simpl in *.
  - now rewrite append_nil_r.
  - apply orb_false_iff in Hq as [Hq Hq'].
    rewrite Hq, andb_false_r. rewrite IH by assumption. now rewrite append_snoc.
Qed.

Lemma parseLine_from_field (f : Field) (rest : string) (parts : list string) :
  well_written f = true ->
  parseLine_from (written f ++ rest) parts EmptyString false
  = parseLine_from rest parts (content f) false.
Proof.
  destruct f as [text|text]; simpl; intros Hw.
  - apply andb_true_iff in Hw as [Hc Hq].
    apply negb_true_iff in Hc. apply negb_true_iff in Hq.
    now rewrite parseLine_from_bare.
  - apply negb_true_iff in Hw.
    rewrite append_assoc, parseLine_from_quoted by assumption. simpl.
    reflexivity.
Qed.

Lemma concat_cons (sep first second : string) (rest : list string) :
  String.concat sep (first :: second :: rest)
  = (first ++ sep ++ String.concat sep (second :: rest))%string.
Proof. reflexivity. Qed.

Lemma parseLine_from_comma (rest : string) (parts : list string) (current : string) :
  parseLine_from ("," ++ rest) parts current false
  = parseLine_from rest (parts ++ [trim current]) EmptyString false.
Proof. reflexivity. Qed.

Lemma parseLine_from_fields (f : Field) (fields : list Field) (parts : list string) :
  forallb well_written (f :: fields) = true ->
  parseLine_from (line_of (f :: fields)) parts EmptyString false
  = parts ++ map (fun f => trim (content f)) (f :: fields).
Proof.
  revert f parts. induction fields as [|g fields IH]; intros f parts Hw.
  - simpl in Hw. rewrite andb_true_r in Hw.
    unfold line_of. simpl. rewrite <- (append_nil_r (written f)).
    now rewrite parseLine_from_field.
  - cbn [forallb] in Hw. apply andb_true_iff in Hw as [Hf Hrest].
    unfold line_of in *.
    change (map written (f :: g :: fields))
      with (written f :: written g :: map written fields).
    rewrite concat_cons, parseLine_from_field, parseLine_from_comma by assumption.
    change (written g :: map written fields) with (map written (g :: fields)).
    rewrite (IH g (parts ++ [trim (content f)]) Hrest).
    now rewrite <- app_assoc.
Qed.

(** X7. [parseLine] reads back the fields of a line: written bare (without
    comma or double quote) or between double quotes (without double quote,
    commas allowed) and joined by commas, the fields come back in order,
    each trimmed of the white space around it, also inside the quotes. *)
Theorem parseLine_fields (f : Field) (fields : list Field) :
  forallb well_written (f :: fields) = true ->
  parseLine (line_of (f :: fields)) = map (fun f => trim (content f)) (f :: fields).
Proof. intros Hw. unfold parseLine. now rewrite parseLine_from_fields. Qed.

Lemma parseLine_fields_witness :
  forallb well_written [Bare "$A"; Bare " 12 "; Quoted "Smith, John"] = true /\
  parseLine (line_of [Bare "$A"; Bare " 12 "; Quoted "Smith, John"])
  = ["$A"; "12"; "Smith, John"]%string.
Proof.
  split; [reflexivity|].
  apply (parseLine_fields (Bare "$A") [Bare " 12 "; Quoted "Smith, John"]). reflexivity.
Defined.

End ParseLineFacts.

(* ===================================================================== *)
(** * The analysis of laps by flag *)
(* ===================================================================== *)

Section AnalysisFacts.
Import Js Unified FlagAnalysis.

Lemma lapsUnder_flag (flag : FlagStatus) (h : list UnifiedLapData) (l : UnifiedLapData) :
  In l (lapsUnder flag h) <-> In l h /\ lap_flagStatus l = flag.
Proof.
  unfold lapsUnder. rewrite filter_In.
  split; intros [Hin Hflag]; (split; [exact Hin|]).
  - now destruct (lap_flagStatus l), flag.
  - rewrite Hflag. now destruct flag.
Qed.

Lemma lt_transitive (a b c : num) : lt a b = true -> lt b c = true -> lt a c = true.
Proof.
  destruct a, b, c; simpl; try discriminate; try reflexivity.
  rewrite !Z.ltb_lt. lia.
Qed.

(** A lap that does not beat the best lap is NaN or slower than whatever
    beats the best lap. *)
Lemma lt_not_beaten (x f l : num) :
  lt x f = true -> lt l f = false -> l = NaN \/ lt x l = true.
Proof.
  destruct x, f, l; simpl; try discriminate; auto.
  rewrite !Z.ltb_lt, Z.ltb_ge. right. lia.
Qed.

(** The lap [reduce] keeps: no later lap compares as faster, and every
    earlier lap is strictly slower or has no time; a first lap without a time
    is kept whatever follows. *)
Lemma fastest_first_least (rest : list UnifiedLapData) (first : UnifiedLapData) :
  let f := fold_left (fun best l => if lt (lapTime l) (lapTime best) then l else best)
                     rest first in
  exists before after,
    first :: rest = before ++ f :: after /\
    (forall l, In l before -> lapTime l = NaN \/ lt (lapTime f) (lapTime l) = true) /\
    (forall l, In l after -> lt (lapTime l) (lapTime f) = false) /\
    (lapTime f = NaN -> before = []).
Proof.
  cbv zeta. induction rest as [|x rest IH] using rev_ind.
  - exists [], []. simpl. repeat split; intros l [].
  - rewrite fold_left_app. cbn [fold_left].
    destruct IH as (before & after & Hsplit & Hbefore & Hafter & Hnan).
    set (f := fold_left _ rest first) in *.
    destruct (lt (lapTime x) (lapTime f)) eqn:Hlt.
    + exists (before ++ f :: after), []. repeat split.
      * now rewrite app_comm_cons, Hsplit.
      * intros l Hin. apply in_app_or in Hin as [Hin|[<-|Hin]].
        -- destruct (Hbefore l Hin) as [Hl|Hl]; [now left | right].
           exact (lt_transitive _ _ _ Hlt Hl).
        -- now right.
        -- exact (lt_not_beaten _ _ _ Hlt (Hafter l Hin)).
      * intros l [].
      * intros Hx. rewrite Hx in Hlt. discriminate Hlt.
    + exists before, (after ++ [x]). repeat split.
      * now rewrite app_comm_cons, Hsplit, <- app_assoc.
      * exact Hbefore.
      * intros l Hin. apply in_app_or in Hin as [Hin|[<-|[]]]; [now apply Hafter | exact Hlt].
      * exact Hnan.
Qed.

(** X8. The fastest green lap that [analyzeLapsByFlag] reports is a lap of
    the history run under green.  No green lap after it compares as faster;
    every green lap before it is strictly slower or has NaN for a time; and a
    reported lap whose time is NaN is the first green lap.  When every green
    lap time is a whole number, no green lap has a shorter time and every
    green lap before it has a longer one (of equal times the earliest is
    kept).  The result is [null] exactly when the history has no green lap. *)
Theorem fastest_green_lap (lapHistory : list UnifiedLapData) :
  match fastestGreenLap (analyzeLapsByFlag lapHistory) with
  | Some f =>
    In f lapHistory /\ lap_flagStatus f = green /\
    exists before after,
      greenLaps (analyzeLapsByFlag lapHistory) = before ++ f :: after /\
      (forall l, In l before -> lapTime l = NaN \/ lt (lapTime f) (lapTime l) = true) /\
      (forall l, In l after -> lt (lapTime l) (lapTime f) = false) /\
      (lapTime f = NaN -> before = []) /\
      ((forall l, In l (greenLaps (analyzeLapsByFlag lapHistory)) ->
                  exists t, lapTime l = Int t) ->
       exists ms, lapTime f = Int ms /\
         (forall l, In l before -> exists t, lapTime l = Int t /\ ms < t) /\
         (forall l, In l after -> exists t, lapTime l = Int t /\ ms <= t))
  | None => forall l, In l lapHistory -> lap_flagStatus l <> green
  end.
Proof.
  unfold analyzeLapsByFlag. cbn [fastestGreenLap greenLaps]. unfold fastestLap.
  destruct (lapsUnder green lapHistory) as [|first rest] eqn:Egreen.
  - intros l Hin Hflag.
    assert (H : In l (lapsUnder green lapHistory)) by now apply lapsUnder_flag.
    now rewrite Egreen in H.
  - destruct (fastest_first_least rest first)
      as (before & after & Hsplit & Hb & Ha & Hnan).
    set (f := fold_left _ rest first) in *.
    assert (Hin : In f (lapsUnder green lapHistory)).
    { rewrite Egreen, Hsplit. apply in_or_app. right. now left. }
    apply lapsUnder_flag in Hin as [Hin Hflag].
    split; [exact Hin|]. split; [exact Hflag|].
    exists before, after. repeat split; try assumption.
    intros Hwhole. rewrite Hsplit in Hwhole.
    destruct (Hwhole f) as [ms Hms]; [apply in_or_app; right; now left|].
    exists ms. split; [exact Hms|]. split.
    + intros l Hl.
      destruct (Hwhole l) as [t Ht]; [apply in_or_app; now left|].
      exists t. split; [exact Ht|].
      destruct (Hb l Hl) as [Hl'|Hl']; rewrite Ht in Hl'; [discriminate|].
      rewrite Hms in Hl'. simpl in Hl'. now apply Z.ltb_lt.
    + intros l Hl.
      destruct (Hwhole l) as [t Ht]; [apply in_or_app; right; now right|].
      exists t. split; [exact Ht|].
      specialize (Ha l Hl). rewrite Ht, Hms in Ha. simpl in Ha. now apply Z.ltb_ge.
Qed.

(** A malformed time on the first green lap: that lap is reported as the
    fastest, whatever follows; on a later lap it is passed over. *)
Example fastest_green_lap_malformed :
  fastestGreenLap (analyzeLapsByFlag [lap_of green NaN; lap_of green (Int 50)])
  = Some (lap_of green NaN) /\
  fastestGreenLap (analyzeLapsByFlag [lap_of green (Int 50); lap_of green NaN])
  = Some (lap_of green (Int 50)).
Proof. split; reflexivity. Qed.

Lemma sum_lap_times (laps : list UnifiedLapData) (acc : num) :
  fold_left (fun sum l => add sum (lapTime l)) laps acc
  = fold_left (fun a b => add a b) (map lapTime laps) acc.
Proof. revert acc. induction laps as [|l laps IH]; intros acc; simpl; [reflexivity | apply IH]. Qed.

Lemma same_number_refl (x : number) : same_number x x.
Proof. destruct x; simpl; [apply Qeq_refl | exact I | exact I | exact I]. Qed.

(** X9. The average green lap time of [analyzeLapsByFlag] is the true pace
    that [calculateTruePace] gives when outliers are kept, over the same
    number of laps; both are 0 when there is no green lap. *)
Theorem average_green_is_true_pace (lapHistory : list UnifiedLapData) :
  same_number (averageGreenLapTime (analyzeLapsByFlag lapHistory))
              (truePace (calculateTruePace lapHistory false)) /\
  sampleSize (calculateTruePace lapHistory false)
  = List.length (greenLaps (analyzeLapsByFlag lapHistory)).
Proof.
  unfold analyzeLapsByFlag, calculateTruePace. cbn [averageGreenLapTime greenLaps].
  change (Unified.greenLaps lapHistory) with (lapsUnder green lapHistory).
  destruct (lapsUnder green lapHistory) as [|first rest].
  - split; [simpl; reflexivity | reflexivity].
  - cbn [andb truePace sampleSize]. rewrite length_map. split; [|reflexivity].
    unfold averageLapTime, sum_times. cbn [List.length Nat.ltb Nat.leb].
    rewrite sum_lap_times. apply same_number_refl.
Qed.

Lemma filter_length_le {A : Type} (f : A -> bool) (l : list A) :
  (List.length (filter f l) <= List.length l)%nat.
Proof. induction l as [|x l IH]; simpl; [lia | destruct (f x); simpl; lia]. Qed.

Lemma buckets_length (h : list UnifiedLapData) :
  (List.length (lapsUnder green h) + List.length (lapsUnder yellow h)
   + List.length (lapsUnder red h)
   + List.length (lapsUnder checkered h) + List.length (lapsUnder unknown h)
   = List.length h)%nat.
Proof.
  unfold lapsUnder. induction h as [|l h IH]; [reflexivity|].
  simpl. destruct (lap_flagStatus l); simpl; lia.
Qed.

(** X10. The laps of a history fall into the green, yellow and red buckets
    and the laps under another flag, each lap in one place only, and the
    share of green laps lies between 0 and 100 per cent. *)
Theorem flag_buckets (lapHistory : list UnifiedLapData) :
  let a := analyzeLapsByFlag lapHistory in
  (List.length (greenLaps a) + List.length (yellowLaps a) + List.length (redLaps a)
   + List.length (lapsUnder checkered lapHistory)
   + List.length (lapsUnder unknown lapHistory)
   = List.length lapHistory)%nat /\
  yellowLapCount a = List.length (yellowLaps a) /\
  (0 <= greenLapPercentage a <= 100)%Q.
Proof.
  cbv zeta. unfold analyzeLapsByFlag.
  cbn [greenLaps yellowLaps redLaps yellowLapCount greenLapPercentage].
  split; [apply buckets_length|]. split; [reflexivity|].
  pose proof (filter_length_le (fun l => FlagStatus_eqb (lap_flagStatus l) green) lapHistory)
    as Hle.
  fold (lapsUnder green lapHistory) in Hle.
  destruct lapHistory as [|l0 h]; [split; discriminate|].
  set (g := List.length (lapsUnder green (l0 :: h))) in *.
  set (n := List.length (l0 :: h)) in *.
  assert (Hn : (0 < n)%nat) by (subst n; simpl; lia).
  replace (0 <? n)%nat with true by (symmetry; now apply Nat.ltb_lt).
  unfold Qle, Qdiv, Qmult, Qinv, inject_Z. cbn [Qnum Qden].
  destruct (Z.of_nat n) as [|pn|pn] eqn:En; try lia.
  cbn [Qnum Qden]. split.
  - rewrite Z.mul_1_r. cbn. nia.
  - rewrite !Pos.mul_1_l, !Pos.mul_1_r. 
    change (Z.pos (pn * 1)) with (Z.pos pn * 1). 
    assert (Hg : Z.of_nat g <= Z.pos pn) by lia.
    nia.
Qed.

End AnalysisFacts.

(* ===================================================================== *)
(** * The transponder store and the merge with RedMist *)
(* ===================================================================== *)

Lemma NoDup_snoc {A : Type} (l : list A) (x : A) :
  NoDup l -> ~ In x l -> NoDup (l ++ [x]).
Proof.
  induction l as [|y l IH]; simpl; intros Hnd Hnotin.
  - constructor; [tauto | constructor].
  - inversion Hnd as [|? ? Hy Hl]; subst. constructor.
    + rewrite in_app_iff. simpl. intros [H|[H|[]]]; [tauto | subst; tauto].
    + apply IH; tauto.
Qed.

Section MapFacts.
Context {V : Type}.

Definition keys (m : JsMap.Map V) : list string := map fst m.

Lemma get_set_same (k : string) (v : V) (m : JsMap.Map V) :
  JsMap.get k (JsMap.set k v m) = Some v.
Proof.
  induction m as [|[k' v'] m IH]; simpl.
  - now rewrite String.eqb_refl.
  - destruct (String.eqb_spec k' k) as [->|Hne]; simpl.
    + now rewrite String.eqb_refl.
    + destruct (String.eqb_spec k' k); [contradiction | exact IH].
Qed.

Lemma get_set_other (k k' : string) (v : V) (m : JsMap.Map V) :
  k' <> k -> JsMap.get k' (JsMap.set k v m) = JsMap.get k' m.
Proof.
  intros Hne. induction m as [|[k0 v0] m IH]; simpl.
  - destruct (String.eqb_spec k k'); [congruence | reflexivity].
  - destruct (String.eqb_spec k0 k) as [->|Hne0]; simpl.
    + destruct (String.eqb_spec k k'); [congruence | reflexivity].
    + now rewrite IH.
Qed.

Lemma get_None (k : string) (m : JsMap.Map V) :
  JsMap.get k m = None <-> ~ In k (keys m).
Proof.
  induction m as [|[k' v'] m IH]; simpl; [tauto|].
  destruct (String.eqb_spec k' k) as [->|Hne].
  - split; [discriminate | tauto].
  - rewrite IH. tauto.
Qed.

Lemma get_In (k : string) (v : V) (m : JsMap.Map V) :
  NoDup (keys m) -> In (k, v) m -> JsMap.get k m = Some v.
Proof.
  induction m as [|[k' v'] m IH]; simpl; [tauto|].
  intros Hnd [Heq|Hin]; inversion Hnd as [|? ? Hnotin Hnd']; subst.
  - injection Heq as -> ->. now rewrite String.eqb_refl.
  - destruct (String.eqb_spec k' k) as [->|Hne]; [|now apply IH].
    exfalso. apply Hnotin. change k with (fst (k, v)). now apply in_map.
Qed.

Lemma In_get (k : string) (v : V) (m : JsMap.Map V) :
  JsMap.get k m = Some v -> In (k, v) m.
Proof.
  induction m as [|[k' v'] m IH]; simpl; [discriminate|].
  destruct (String.eqb_spec k' k) as [->|Hne].
  - intros [= ->]. now left.
  - intros H. right. now apply IH.
Qed.

(** Setting a new key appends an entry. *)
Lemma set_new (k : string) (v : V) (m : JsMap.Map V) :
  ~ In k (keys m) -> JsMap.set k v m = m ++ [(k, v)].
Proof.
  induction m as [|[k' v'] m IH]; simpl; [reflexivity|].
  intros Hnotin. destruct (String.eqb_spec k' k) as [->|Hne]; [tauto|].
  rewrite IH; tauto.
Qed.

(** Setting a key to the value it has changes nothing. *)
Lemma set_same (k : string) (v : V) (m : JsMap.Map V) :
  JsMap.get k m = Some v -> JsMap.set k v m = m.
Proof.
  induction m as [|[k' v'] m IH]; simpl; [discriminate|].
  destruct (String.eqb_spec k' k) as [->|Hne].
  - now intros [= ->].
  - intros H. now rewrite IH.
Qed.

Lemma keys_set (k : string) (v : V) (m : JsMap.Map V) :
  keys (JsMap.set k v m)
  = match JsMap.get k m with
    | Some _ => keys m
    | None => keys m ++ [k]
    end.
Proof.
  induction m as [|[k' v'] m IH]; simpl; [reflexivity|].
  destruct (String.eqb_spec k' k) as [->|Hne]; simpl; [reflexivity|].
  rewrite IH. now destruct (JsMap.get k m).
Qed.

Lemma NoDup_keys_set (k : string) (v : V) (m : JsMap.Map V) :
  NoDup (keys m) -> NoDup (keys (JsMap.set k v m)).
Proof.
  intros Hnd. rewrite keys_set.
  destruct (JsMap.get k m) eqn:E; [exact Hnd|].
  apply get_None in E. now apply NoDup_snoc.
Qed.

Lemma In_set (k : string) (v : V) (m : JsMap.Map V) (entry : string * V) :
  In entry (JsMap.set k v m) -> entry = (k, v) \/ In entry m.
Proof.
  induction m as [|[k' v'] m IH]; simpl; [intuition congruence|].
  destruct (String.eqb_spec k' k) as [->|Hne]; simpl; [intuition congruence|].
  intros [H|H]; [tauto|]. destruct (IH H); tauto.
Qed.

End MapFacts.

Section StoreFacts.
Import Js TransponderStore.

(** Each transponder has one mapping at most, kept under its own key. *)
Definition well_keyed (mappings : Store) : Prop :=
  NoDup (keys mappings) /\ forall k m, In (k, m) mappings -> transponder m = k.

Lemma well_keyed_set (k : string) (m : TransponderMapping) (mappings : Store) :
  transponder m = k -> well_keyed mappings -> well_keyed (JsMap.set k m mappings).
Proof.
  intros Hk [Hnd Hkeyed]. split; [now apply NoDup_keys_set|].
  intros k' m' Hin. apply In_set in Hin as [[= -> ->]|Hin]; [exact Hk | now apply Hkeyed].
Qed.

Lemma set_well_keyed (t : string) (data : Update) (mappings : Store) :
  well_keyed mappings -> well_keyed (set t data mappings).
Proof. intros Hw. unfold set. now apply well_keyed_set. Qed.

Lemma loadFromStorage_well_keyed (stored : Storage) (mappings : Store) :
  well_keyed mappings -> well_keyed (loadFromStorage stored mappings).
Proof.
  destruct stored as [data|]; [|trivial]. simpl.
  revert mappings. induction data as [|m data IH]; intros mappings Hw; simpl; [exact Hw|].
  now apply IH, well_keyed_set.
Qed.

Lemma importRaceData_well_keyed (data : list TransponderMapping) (mappings : Store) :
  well_keyed mappings -> well_keyed (importRaceData data mappings).
Proof.
  unfold importRaceData.
  revert mappings. induction data as [|m data IH]; intros mappings Hw; simpl; [exact Hw|].
  now apply IH, set_well_keyed.
Qed.

(** What is done to the transponder store. *)
Inductive Operation : Type :=
| DoSet (transponder : string) (data : Update)
| DoLoad (stored : Storage)
| DoImport (data : list TransponderMapping)
| DoClear.

Definition apply_operation (op : Operation) (mappings : Store) : Store :=
  match op with
  | DoSet t data => set t data mappings
  | DoLoad stored => loadFromStorage stored mappings
  | DoImport data => importRaceData data mappings
  | DoClear => clear mappings
  end.

(** The store after a sequence of operations on the empty store. *)
Definition store_after (ops : list Operation) : Store :=
  fold_left (fun mappings op => apply_operation op mappings) ops [].

Lemma store_after_well_keyed (ops : list Operation) : well_keyed (store_after ops).
Proof.
  unfold store_after.
  assert (H : forall mappings, well_keyed mappings ->
              well_keyed (fold_left (fun s op => apply_operation op s) ops mappings)).
  { induction ops as [|op ops IH]; intros mappings Hw; simpl; [exact Hw|].
    apply IH. destruct op; simpl.
    - now apply set_well_keyed.
    - now apply loadFromStorage_well_keyed.
    - now apply importRaceData_well_keyed.
    - split; [constructor | intros k m []]. }
  apply H. split; [constructor | intros k m []].
Qed.

(** The value a property has in the mapping of [t]; [undefined] when [t]
    has no mapping. *)
Definition held {A : Type} (property : TransponderMapping -> option A)
           (t : string) (mappings : Store) : option A :=
  match getByTransponder t mappings with
  | Some old => property old
  | None => None
  end.

(** X11. Whatever was done to the transponder store, it holds one mapping
    per transponder at most, and the mapping found for a transponder names
    that transponder; [set] changes the mapping of its transponder only, and
    the mapping it leaves has the properties given, the others being those
    of the mapping it replaced. *)
Theorem store_one_mapping_per_transponder (ops : list Operation) :
  let mappings := store_after ops in
  NoDup (map transponder (getAll mappings)) /\
  (forall t m, getByTransponder t mappings = Some m -> transponder m = t) /\
  (forall t data,
     (forall t', t' <> t ->
        getByTransponder t' (set t data mappings) = getByTransponder t' mappings) /\
     exists m, getByTransponder t (set t data mappings) = Some m /\
       carNumber m = nullish (new_carNumber data)
                       (match getByTransponder t mappings with
                        | Some old => carNumber old
                        | None => EmptyString
                        end) /\
       redmistEventId m = spread (held redmistEventId t mappings) (new_redmistEventId data) /\
       racemonitorRaceId m
       = spread (held racemonitorRaceId t mappings) (new_racemonitorRaceId data) /\
       driverName m = spread (held driverName t mappings) (new_driverName data) /\
       teamName m = spread (held teamName t mappings) (new_teamName data) /\
       className m = spread (held className t mappings) (new_className data)).
Proof.
  cbv zeta. destruct (store_after_well_keyed ops) as [Hnd Hkeyed].
  set (mappings := store_after ops) in *.
  split; [|split].
  - unfold getAll, JsMap.values. rewrite map_map.
    replace (map (fun x => transponder (snd x)) mappings) with (keys mappings); [exact Hnd|].
    unfold keys. apply map_ext_in. intros [k m] Hin. simpl. symmetry. now apply Hkeyed.
  - intros t m Hget. apply Hkeyed. now apply In_get.
  - intros t data. split.
    + intros t' Hne. unfold getByTransponder, set. now apply get_set_other.
    + unfold held, getByTransponder, set. rewrite get_set_same.
      eexists. split; [reflexivity|].
      destruct (JsMap.get t mappings); now repeat split.
Qed.

Lemma load_values (post pre : Store) :
  well_keyed (pre ++ post) ->
  fold_left (fun mappings m => JsMap.set (transponder m) m mappings) (JsMap.values post) pre
  = pre ++ post.
Proof.
  revert pre. induction post as [|[k m] post IH]; intros pre Hw; simpl.
  - now rewrite app_nil_r.
  - destruct Hw as [Hnd Hkeyed].
    assert (Hk : transponder m = k).
    { apply Hkeyed. apply in_or_app. right. now left. }
    rewrite Hk, set_new.
    + replace (pre ++ (k, m) :: post) with ((pre ++ [(k, m)]) ++ post)
        by now rewrite <- app_assoc.
      apply IH. rewrite <- app_assoc. now split.
    + unfold keys in *. rewrite map_app in Hnd. simpl in Hnd.
      apply NoDup_remove_2 in Hnd. intros Hin. apply Hnd. apply in_or_app. now left.
Qed.

Lemma spread_defined {A : Type} (existing value : option A) :
  existing = None \/ existing = value -> spread existing (defined value) = value.
Proof. intros [->| ->]; now destruct value. Qed.

Lemma import_values (post pre : Store) :
  well_keyed (pre ++ post) ->
  importRaceData (JsMap.values post) pre = pre ++ post.
Proof.
  unfold importRaceData.
  revert pre. induction post as [|[k m] post IH]; intros pre Hw; simpl.
  - now rewrite app_nil_r.
  - destruct Hw as [Hnd Hkeyed].
    assert (Hk : transponder m = k).
    { apply Hkeyed. apply in_or_app. right. now left. }
    assert (Hnew : ~ In k (keys pre)).
    { unfold keys in *. rewrite map_app in Hnd. simpl in Hnd.
      apply NoDup_remove_2 in Hnd. intros Hin. apply Hnd. apply in_or_app. now left. }
    unfold set at 2. rewrite Hk.
    rewrite (proj2 (get_None k pre) Hnew). cbn [nullish as_update new_carNumber
      new_redmistEventId new_racemonitorRaceId new_driverName new_teamName new_className
      redmistEventId racemonitorRaceId driverName teamName className carNumber].
    rewrite !spread_defined by now left.
    rewrite set_new by exact Hnew.
    replace {| transponder := k; carNumber := carNumber m;
               redmistEventId := redmistEventId m;
               racemonitorRaceId := racemonitorRaceId m;
               driverName := driverName m; teamName := teamName m;
               className := className m |} with m by (destruct m; simpl in *; now subst).
    replace (pre ++ (k, m) :: post) with ((pre ++ [(k, m)]) ++ post)
      by now rewrite <- app_assoc.
    apply IH. rewrite <- app_assoc. now split.
Qed.

Lemma import_own (data : list TransponderMapping) (mappings : Store) :
  well_keyed mappings ->
  (forall m, In m data -> In (transponder m, m) mappings) ->
  importRaceData data mappings = mappings.
Proof.
  intros [Hnd Hkeyed] Hdata. unfold importRaceData.
  induction data as [|m data IH]; simpl; [reflexivity|].
  assert (Hget : JsMap.get (transponder m) mappings = Some m).
  { apply get_In; [exact Hnd|]. apply Hdata. now left. }
  unfold set at 2. rewrite Hget. cbn [nullish as_update new_carNumber
    new_redmistEventId new_racemonitorRaceId new_driverName new_teamName new_className].
  rewrite !spread_defined by now right.
  replace {| transponder := transponder m; carNumber := carNumber m;
             redmistEventId := redmistEventId m;
             racemonitorRaceId := racemonitorRaceId m;
             driverName := driverName m; teamName := teamName m;
             className := className m |} with m by now destruct m.
  rewrite set_same by exact Hget.
  apply IH. intros m' Hin. apply Hdata. now right.
Qed.

(** X12. The mappings survive the round trips.  Loading what
    [saveToStorage] wrote into an empty store gives the store back, in the
    same order; so does importing what [getAll] exported; and importing a
    store's own export into that store leaves it unchanged. *)
Theorem store_round_trips (ops : list Operation) :
  let mappings := store_after ops in
  loadFromStorage (saveToStorage mappings) [] = mappings /\
  importRaceData (getAll mappings) [] = mappings /\
  importRaceData (getAll mappings) mappings = mappings.
Proof.
  cbv zeta. pose proof (store_after_well_keyed ops) as Hw.
  set (mappings := store_after ops) in *.
  split; [|split].
  - apply (load_values mappings []), Hw.
  - apply (import_values mappings []), Hw.
  - apply import_own; [exact Hw|].
    intros m Hin. unfold getAll, JsMap.values in Hin.
    apply in_map_iff in Hin as ([k m'] & <- & Hin). simpl.
    now rewrite (proj2 Hw k m' Hin).
Qed.

End StoreFacts.

Section ConverterFacts.
Import Js JsText Unified Converters.

(** X26. What [redmistToUnified] leaves in the transponder store for a car
    with a transponder and a number: the mapping of that transponder carries
    the number, driver, team and class RedMist gives, a missing one erasing
    what the mapping held, and keeps its event and race identifiers; the
    mappings of the other transponders are untouched. *)
Theorem redmistToUnified_overwrites_mapping
        (r : RedMistCar) (eventEntries : option (list EventEntry))
        (store : TransponderStore.Store) (number : string) :
  Replay.n (car r) = Some number -> number <> EmptyString ->
  transponder_of r <> EmptyString ->
  let store' := snd (redmistToUnified r eventEntries store) in
  let old := TransponderStore.getByTransponder (transponder_of r) store in
  (exists m,
     TransponderStore.getByTransponder (transponder_of r) store' = Some m /\
     TransponderStore.transponder m = transponder_of r /\
     TransponderStore.carNumber m = number /\
     TransponderStore.driverName m = or_undefined (Replay.dn (car r)) /\
     TransponderStore.teamName m = teamName (fst (redmistToUnified r eventEntries store)) /\
     TransponderStore.className m = className (fst (redmistToUnified r eventEntries store)) /\
     TransponderStore.redmistEventId m
     = match old with Some o => TransponderStore.redmistEventId o | None => None end /\
     TransponderStore.racemonitorRaceId m
     = match old with Some o => TransponderStore.racemonitorRaceId o | None => None end) /\
  (forall t, t <> transponder_of r ->
     TransponderStore.getByTransponder t store' = TransponderStore.getByTransponder t store).
Proof.
  intros Hn Hne Ht. cbv zeta. unfold redmistToUnified. cbn [fst snd teamName className].
  rewrite Hn. cbn [truthy_opt].
  replace (truthy_str (transponder_of r)) with true
    by (now destruct (transponder_of r)).
  replace (truthy_str number) with true by (now destruct number).
  cbn [andb]. unfold TransponderStore.getByTransponder, TransponderStore.set. split.
  - rewrite get_set_same. eexists. split; [reflexivity|].
    destruct (JsMap.get (transponder_of r) store); now repeat split.
  - intros t Hneq. now apply get_set_other.
Qed.

End ConverterFacts.

Section MergeWithRedMistFacts.
Import Js JsText Unified Converters RaceMonitorStore.

(** The competitor [redmistToUnified] returns does not depend on the
    transponder store. *)
Definition converted (r : RedMistCar) (eventEntries : option (list EventEntry))
  : UnifiedCompetitor :=
  fst (redmistToUnified r eventEntries []).

Lemma convert_all_converted (redmistCars : list RedMistCar)
      (eventEntries : option (list EventEntry)) (store : TransponderStore.Store) :
  fst (convert_all redmistCars eventEntries store)
  = map (fun r => converted r eventEntries) redmistCars.
Proof.
  revert store. induction redmistCars as [|r rest IH]; intros store; [reflexivity|].
  cbn [convert_all]. unfold redmistToUnified at 1.
  match goal with
  | |- context [convert_all rest eventEntries ?s] =>
    specialize (IH s); destruct (convert_all rest eventEntries s) as [comps store']
  end.
  simpl in *. now rewrite IH.
Qed.

Lemma or_str_truthy (x : option string) (d : string) :
  truthy_str d = true -> truthy_str (or_str x d) = true.
Proof.
  intros Hd. unfold or_str. destruct x as [s|]; [|exact Hd].
  destruct (truthy_str s) eqn:E; [exact E | exact Hd].
Qed.

Lemma merge_car_identity (rmByTransponder : JsMap.Map UnifiedCompetitor)
      (histories : JsMap.Map (list UnifiedLapData)) (a : UnifiedCompetitor) :
  truthy_str (driverName a) = true ->
  transponder (merge_car rmByTransponder histories a) = transponder a /\
  driverName (merge_car rmByTransponder histories a) = driverName a.
Proof.
  intros Hname. unfold merge_car.
  destruct (truthy_str (transponder a)) eqn:Ht; [|now split].
  destruct (JsMap.get (transponder a) rmByTransponder) as [b|]; [|now split].
  simpl. unfold or_else. now rewrite Ht, Hname.
Qed.

(** The transponders [mergeWithRedMist] leaves. *)
Lemma mergeWithRedMist_transponders
      (redmistCars : list RedMistCar) (eventEntries : option (list EventEntry))
      (state : State) (store : TransponderStore.Store) :
  map transponder
      (unifiedCompetitors (fst (mergeWithRedMist redmistCars eventEntries state store)))
  = map transponder_of redmistCars.
Proof.
  unfold mergeWithRedMist.
  pose proof (convert_all_converted redmistCars eventEntries store) as Hconv.
  destruct (convert_all redmistCars eventEntries store) as [comps store'].
  simpl in Hconv. subst comps. cbn [fst unifiedCompetitors].
  rewrite !map_map. apply map_ext. intros r.
  apply merge_car_identity. now apply or_str_truthy.
Qed.

(** X13. [mergeWithRedMist] leaves one competitor for each RedMist car, in
    the order of the cars, under that car's transponder and with the driver
    name RedMist gives, the placeholder ['Unknown'] included: the name
    Race-Monitor knows is never taken, and a competitor that Race-Monitor
    alone knows is dropped. *)
Theorem merge_keeps_redmist_identity
        (redmistCars : list RedMistCar) (eventEntries : option (list EventEntry))
        (state : State) (store : TransponderStore.Store) :
  map (fun comp => (transponder comp, driverName comp))
      (unifiedCompetitors (fst (mergeWithRedMist redmistCars eventEntries state store)))
  = map (fun r => (transponder_of r, or_str (Replay.dn (car r)) "Unknown")) redmistCars.
Proof.
  unfold mergeWithRedMist.
  pose proof (convert_all_converted redmistCars eventEntries store) as Hconv.
  destruct (convert_all redmistCars eventEntries store) as [comps store'].
  simpl in Hconv. subst comps. cbn [fst unifiedCompetitors].
  rewrite !map_map. apply map_ext. intros r.
  destruct (merge_car_identity (by_transponder (unifiedCompetitors state))
              (lapHistoryByTransponder state) (converted r eventEntries)) as [Ht Hn].
  { now apply or_str_truthy. }
  now rewrite Ht, Hn.
Qed.

Lemma by_transponder_keys (competitors : list UnifiedCompetitor)
      (m : JsMap.Map UnifiedCompetitor) (k : string) :
  In k (keys m) \/
  (exists comp, In comp competitors /\ transponder comp = k /\ truthy_str k = true) ->
  In k (keys (fold_left (fun m comp =>
                           if truthy_str (transponder comp)
                           then JsMap.set (transponder comp) comp m else m)
                        competitors m)).
Proof.
  revert m. induction competitors as [|c0 rest IH]; intros m H; simpl.
  - destruct H as [H|(comp & [] & _)]. exact H.
  - apply IH. destruct H as [H|(comp & [<-|Hin] & Hk & Htruthy)].
    + left. destruct (truthy_str (transponder c0)); [|exact H].
      rewrite keys_set. destruct (JsMap.get _ m); [exact H|].
      apply in_or_app. now left.
    + left. rewrite Hk, Htruthy, keys_set.
      destruct (JsMap.get k m) as [u|] eqn:E.
      * apply In_get in E. change k with (fst (k, u)). now apply in_map.
      * apply in_or_app. right. now left.
    + right. now exists comp.
Qed.

Lemma by_transponder_get (competitors : list UnifiedCompetitor) (comp : UnifiedCompetitor) :
  In comp competitors -> truthy_str (transponder comp) = true ->
  exists found, JsMap.get (transponder comp) (by_transponder competitors) = Some found.
Proof.
  intros Hin Ht. unfold by_transponder.
  destruct (JsMap.get _ _) as [found|] eqn:E; [now exists found|].
  apply get_None in E. exfalso. apply E.
  apply by_transponder_keys. right. now exists comp.
Qed.

(** X14. From the second merge on, a RedMist car with a transponder is
    merged with the competitor the previous merge left for it: it is marked
    as known to both sources, even when Race-Monitor never reported it. *)
Theorem second_merge_marks_both_sources
        (redmistCars : list RedMistCar) (entries entries2 : option (list EventEntry))
        (state : State) (store : TransponderStore.Store) :
  let first := mergeWithRedMist redmistCars entries state store in
  let second := mergeWithRedMist redmistCars entries2 (fst first) (snd first) in
  forall comp,
    In comp (unifiedCompetitors (fst second)) -> transponder comp <> EmptyString ->
    sources comp = {| src_is_redmist := Some true; src_is_racemonitor := Some true |}.
Proof.
  cbv zeta. intros comp Hin Hne.
  pose proof (mergeWithRedMist_transponders redmistCars entries state store) as Hfirst.
  unfold mergeWithRedMist in *.
  pose proof (convert_all_converted redmistCars entries store) as Hconv.
  destruct (convert_all redmistCars entries store) as [comps store1].
  simpl in Hconv. subst comps. cbn [fst snd unifiedCompetitors lapHistoryByTransponder] in *.
  set (merged := map (merge_car _ _) _) in *.
  pose proof (convert_all_converted redmistCars entries2 store1) as Hconv2.
  destruct (convert_all redmistCars entries2 store1) as [comps2 store2].
  simpl in Hconv2. subst comps2. cbn [fst unifiedCompetitors] in Hin.
  rewrite map_map in Hin. apply in_map_iff in Hin as (r & <- & Hr).
  set (a := converted r entries2) in *.
  assert (Hid : transponder (merge_car (by_transponder merged)
                                       (lapHistoryByTransponder state) a) = transponder a).
  { apply merge_car_identity. now apply or_str_truthy. }
  rewrite Hid in Hne.
  assert (Ht : truthy_str (transponder a) = true) by now destruct (transponder a).
  (* the first merge left a competitor under the transponder of [r] *)
  assert (Hprev : exists prev, In prev merged /\ transponder prev = transponder a).
  { assert (H : In (transponder_of r) (map transponder merged)).
    { rewrite Hfirst. now apply in_map. }
    apply in_map_iff in H as (prev & Hp & Hinp). now exists prev. }
  destruct Hprev as (prev & Hinp & Hp).
  destruct (by_transponder_get merged prev Hinp) as [found Hfound]; [now rewrite Hp|].
  unfold merge_car. rewrite Ht, <- Hp, Hfound. reflexivity.
Qed.

End MergeWithRedMistFacts.

Section MergeWithRedMistExample.
Import Js Unified Converters RaceMonitorStore.

(** A car that RedMist reports with transponder 1234 and no driver name. *)
Definition car_7 : RedMistCar :=
  {| car := {| Replay.n := Some "7"%string; Replay.c := None; Replay.l := Some (Int 3);
               Replay.ln := None; Replay.llo := None; Replay.ovp := None;
               Replay.p := Some (Int 1); Replay.llp := None;
               Replay.ltm := Some "01:30.000"%string; Replay.tp := Some 1234;
               Replay.bt := None; Replay.dn := None; Replay.ip := None |};
     class := None; cp := None; clp := None; pc := None; pl := None; flg := Some 1 |}.

(** The store before Race-Monitor has delivered anything. *)
Definition empty_state : State :=
  {| unifiedCompetitors := []; lapHistoryByTransponder := [] |}.

Definition merged_twice : State :=
  let first := mergeWithRedMist [car_7] None empty_state [] in
  fst (mergeWithRedMist [car_7] None (fst first) (snd first)).

Lemma second_merge_marks_both_sources_witness :
  exists comp,
    unifiedCompetitors merged_twice = [comp] /\
    transponder comp = "1234"%string /\
    sources comp = {| src_is_redmist := Some true; src_is_racemonitor := Some true |}.
Proof.
  eexists. split; [reflexivity|]. split; [reflexivity|].
  apply (second_merge_marks_both_sources [car_7] None None empty_state []).
  - left. reflexivity.
  - discriminate.
Defined.

(** A store in which Race-Monitor has named the driver of transponder 1234. *)
Definition named_store : TransponderStore.Store :=
  TransponderStore.set "1234"
    {| TransponderStore.new_carNumber := Some "7"%string;
       TransponderStore.new_redmistEventId := TransponderStore.Absent;
       TransponderStore.new_racemonitorRaceId := TransponderStore.Present (Some 99);
       TransponderStore.new_driverName := TransponderStore.Present (Some "Ann Lee"%string);
       TransponderStore.new_teamName := TransponderStore.Absent;
       TransponderStore.new_className := TransponderStore.Absent |} [].

Lemma redmistToUnified_overwrites_mapping_witness :
  transponder_of car_7 = "1234"%string /\
  option_map TransponderStore.driverName
             (TransponderStore.getByTransponder "1234" named_store)
  = Some (Some "Ann Lee"%string) /\
  exists m,
    TransponderStore.getByTransponder "1234" (snd (redmistToUnified car_7 None named_store))
    = Some m /\
    TransponderStore.driverName m = None /\
    TransponderStore.racemonitorRaceId m = Some 99.
Proof.
  split; [reflexivity|]. split; [reflexivity|].
  destruct (redmistToUnified_overwrites_mapping car_7 None named_store "7"
              eq_refl ltac:(discriminate) ltac:(discriminate))
    as [(m & Hget & _ & _ & Hname & _ & _ & _ & Hrace) _].
  exists m. split; [exact Hget|]. split; [exact Hname | exact Hrace].
Defined.

End MergeWithRedMistExample.

(* ===================================================================== *)
(** * The playback controls and the control log *)
(* ===================================================================== *)

Section ReplayControlsFacts.
Import Js Replay ReplayControls.

Lemma fold_max_bounds (lens : list Z) (len : Z) :
  len <= fold_left Z.max lens len /\
  (forall x, In x lens -> x <= fold_left Z.max lens len) /\
  In (fold_left Z.max lens len) (len :: lens).
Proof.
  revert len. induction lens as [|y lens IH]; intros len; simpl.
  - repeat split; [lia | tauto | now left].
  - destruct (IH (Z.max len y)) as (Hlow & Hall & Hin). repeat split.
    + lia.
    + intros x [<-|Hx]; [lia | now apply Hall].
    + destruct Hin as [Heq|Hin]; [|tauto].
      rewrite <- Heq. destruct (Z.max_spec len y) as [[_ ->]|[_ ->]]; tauto.
Qed.

(** [maxLap] is the length of a longest history. *)
Lemma maxLap_longest (lapData : list CarLapData) :
  (forall car, In car lapData -> Z.of_nat (List.length (laps car)) <= maxLap lapData) /\
  (lapData <> [] ->
   exists car, In car lapData /\ Z.of_nat (List.length (laps car)) = maxLap lapData).
Proof.
  unfold maxLap. destruct lapData as [|car0 rest]; [split; [intros car [] | congruence]|].
  cbn [map].
  destruct (fold_max_bounds (map (fun car => Z.of_nat (List.length (laps car))) rest)
                            (Z.of_nat (List.length (laps car0)))) as (Hlow & Hall & Hin).
  split.
  - intros car [<-|Hcar]; [exact Hlow|].
    apply Hall. now apply (in_map (fun car => Z.of_nat (List.length (laps car)))).
  - intros _. destruct Hin as [Heq|Hin].
    + exists car0. split; [now left | exact Heq].
    + apply in_map_iff in Hin as (car & Heq & Hcar). exists car. split; [now right | exact Heq].
Qed.

(** X15. Whatever lap is asked for, [goToLap] shows a lap from 1 on, within
    the longest history when there is one; the snapshot it stores holds
    exactly the cars that have a history, each as often as the session
    lists it, and none is left out when the lap asked for lies before the
    first lap or after the last.  So every playback control leaves the
    replay on a lap between 1 and the last. *)
Theorem goToLap_in_range (lap : Z) (lapData : list CarLapData) (prev : ReplayState) :
  let shown := goToLap lap lapData prev in
  1 <= currentLap shown /\
  (1 <= maxLap lapData -> currentLap shown <= maxLap lapData) /\
  (1 <= lap <= maxLap lapData -> currentLap shown = lap) /\
  Permutation (map n (positions shown))
              (map (fun carData => Some (carNumber carData)) (filter has_history lapData)) /\
  (1 <= maxLap lapData -> positions shown <> []) /\
  (forall control,
     In control [stepForward; stepBackward; jumpForward; jumpBackward; goToStart; goToEnd] ->
     1 <= currentLap (control lapData prev) <= Z.max 1 (maxLap lapData)).
Proof.
  cbv zeta.
  assert (Hcontrols : forall control,
             In control [stepForward; stepBackward; jumpForward; jumpBackward;
                         goToStart; goToEnd] ->
             1 <= currentLap (control lapData prev) <= Z.max 1 (maxLap lapData)).
  { intros control Hin. simpl in Hin.
    repeat (destruct Hin as [<-|Hin];
            [unfold stepForward, stepBackward, jumpForward, jumpBackward, goToStart,
               goToEnd, goToLap, updatePositionsAtLap; cbn [currentLap]; lia|]).
    destruct Hin. }
  unfold goToLap, updatePositionsAtLap. cbn [currentLap positions].
  set (clamped := Z.max 1 (Z.min lap (maxLap lapData))).
  assert (Hlow : 1 <= clamped) by (subst clamped; lia).
  pose proof (snapshot_car_numbers clamped lapData Hlow) as Hcars.
  split; [exact Hlow|].
  split; [intros Hmax; subst clamped; lia|].
  split; [intros Hlap; subst clamped; lia|].
  split; [exact Hcars|].
  split; [|exact Hcontrols].
  intros Hmax Hempty. rewrite Hempty in Hcars. simpl in Hcars.
  apply Permutation_nil in Hcars.
  destruct (proj2 (maxLap_longest lapData)) as (car & Hin & Hlen).
  { intros ->. change (maxLap []) with 0 in Hmax. lia. }
  assert (Hhist : has_history car = true).
  { unfold has_history. destruct (laps car); [simpl in Hlen; lia | reflexivity]. }
  assert (Hfil : In car (filter has_history lapData)) by now apply filter_In.
  apply (in_map (fun carData => Some (carNumber carData))) in Hfil.
  now rewrite Hcars in Hfil.
Qed.

End ReplayControlsFacts.

Section ControlLogFacts.
Import Js ControlLog.

Definition newest_first (x y : ControlLogEntry) : Prop := o y <= o x.

Definition by_order : ControlLogEntry -> ControlLogEntry -> num :=
  fun a b => Int (o b - o a).

Lemma by_order_antisymmetric : antisymmetric by_order.
Proof.
  intros x y. unfold by_order. simpl.
  destruct (Z.compare_spec (o y - o x) 0), (Z.compare_spec (o x - o y) 0);
    simpl; try reflexivity; lia.
Qed.

Lemma in_order_newest_first (x y : ControlLogEntry) :
  in_order by_order x y <-> newest_first x y.
Proof.
  unfold in_order, by_order, newest_first. simpl.
  destruct (Z.compare_spec (o y - o x) 0) as [Hc|Hc|Hc]; split; intros Ho;
    try lia; try congruence.
Qed.

Lemma newest_first_transitive (x y z : ControlLogEntry) :
  newest_first x y -> newest_first y z -> newest_first x z.
Proof. unfold newest_first. lia. Qed.

(** The entries with order number [k]. *)
Definition with_order (k : Z) (entries : list ControlLogEntry) : list ControlLogEntry :=
  filter (fun e => o e =? k) entries.

Lemma with_order_app (k : Z) (l1 l2 : list ControlLogEntry) :
  with_order k (l1 ++ l2) = with_order k l1 ++ with_order k l2.
Proof. apply filter_app. Qed.

Lemma insert_keeps_ties (k : Z) (x : ControlLogEntry) (acc : list ControlLogEntry) :
  with_order k (rev (insert_from_right by_order x acc)) = with_order k (rev acc ++ [x]).
Proof.
  induction acc as [|y acc IH]; [reflexivity|].
  cbn [insert_from_right]. unfold by_order at 1. cbn [sign].
  destruct (Z.compare_spec (o x - o y) 0) as [Heq|Hlt|Hgt]; try reflexivity.
  cbn [rev]. rewrite !with_order_app, IH, with_order_app, <- !app_assoc. f_equal.
  unfold with_order. simpl.
  destruct (Z.eqb_spec (o x) k), (Z.eqb_spec (o y) k); try reflexivity. lia.
Qed.

Lemma sort_keeps_ties (k : Z) (entries acc : list ControlLogEntry) :
  with_order k (rev (fold_left (fun rev_sorted x => insert_from_right by_order x rev_sorted)
                               entries acc))
  = with_order k (rev acc ++ entries).
Proof.
  revert acc. induction entries as [|x entries IH]; intros acc; simpl.
  - now rewrite app_nil_r.
  - rewrite IH, with_order_app, insert_keeps_ties, <- with_order_app, <- app_assoc.
    reflexivity.
Qed.

(** X16. The control log shows every entry once, the highest order number
    first, and entries with the same order number in the order they came. *)
Theorem control_log_newest_first (entries : list ControlLogEntry) :
  Permutation (sortedEntries entries) entries /\
  StronglySorted newest_first (sortedEntries entries) /\
  forall k, with_order k (sortedEntries entries) = with_order k entries.
Proof.
  unfold sortedEntries. fold by_order. split; [apply sort_perm|]. split.
  - apply Sorted_StronglySorted; [exact newest_first_transitive|].
    pose proof (sort_sorted by_order by_order_antisymmetric entries) as Hs.
    induction Hs as [|x l Hl IH Hhd]; constructor; [exact IH|].
    destruct Hhd; constructor. now apply in_order_newest_first.
  - intros k. unfold sort. now rewrite sort_keeps_ties.
Qed.

End ControlLogFacts.

(* ===================================================================== *)
(** * The life cycle of the SignalR client *)
(* ===================================================================== *)

Section LifecycleFacts.
Import Js SignalR Lifecycle.

(** [m] keeps the property [P] of the world, whether it returns or throws. *)
Definition preserves (P : World -> Prop) {A : Type} (m : M A) : Prop :=
  forall w, P w -> P (snd (m w)).

Lemma preserves_ret (P : World -> Prop) {A : Type} (a : A) : preserves P (ret a).
Proof. intros w Hw. exact Hw. Qed.

Lemma preserves_throw (P : World -> Prop) {A : Type} (e : Error) :
  preserves P (throw (A := A) e).
Proof. intros w Hw. exact Hw. Qed.

Lemma preserves_bind (P : World -> Prop) {A B : Type} (m : M A) (k : A -> M B) :
  preserves P m -> (forall a, preserves P (k a)) -> preserves P (bind m k).
Proof.
  intros Hm Hk w Hw. unfold bind. specialize (Hm w Hw).
  destruct (m w) as [[a|e] w']; simpl in *; [now apply Hk | assumption].
Qed.

Lemma preserves_this (P : World -> Prop) {B : Type} (k : Client -> M B) :
  (forall cl, preserves P (k cl)) -> preserves P (bind this k).
Proof. intros Hk w Hw. unfold bind, this. now apply Hk. Qed.

Lemma preserves_try_catch (P : World -> Prop) {A : Type} (m : M A) (h : Error -> M A) :
  preserves P m -> (forall e, preserves P (h e)) -> preserves P (try_catch m h).
Proof.
  intros Hm Hh w Hw. unfold try_catch. specialize (Hm w Hw).
  destruct (m w) as [[a|e] w']; simpl in *; [assumption | now apply Hh].
Qed.

Lemma preserves_try_finally (P : World -> Prop) {A : Type} (m : M A) (cleanup : M unit) :
  preserves P m -> preserves P cleanup -> preserves P (try_finally m cleanup).
Proof.
  intros Hm Hc w Hw. unfold try_finally. specialize (Hm w Hw).
  destruct (m w) as [r w']. simpl in Hm. specialize (Hc w' Hm).
  destruct (cleanup w') as [[u|e] w'']; simpl in *; assumption.
Qed.


(** The world after one more call has been issued: [ok] tells whether the
    hub accepted it, [f] is what the method then did to its fields. *)
Definition logged (call : HubCall) (ok : bool) (f : Client -> Client) (w : World) : World :=
  {| client := f (client w); invoked := invoked w ++ [(call, ok)];
     reported := reported w |}.

(** A method that needs the connection, issues [call] and, once the hub has
    accepted it, updates the fields with [f]. *)
Definition guarded_call (hub : list (HubCall * bool) -> HubCall -> bool)
           (call : HubCall) (f : Client -> Client) (rethrows : bool) (w : World)
  : Outcome unit * World :=
  if connection (client w) then
    if hub (invoked w) call then (Returned tt, logged call true f w)
    else (if rethrows then Thrown (InvokeFailed call) else Returned tt,
          logged call false (fun cl => cl) w)
  else (if rethrows then Thrown NotConnected else Returned tt, w).

Section Methods.
Variable hub : list (HubCall * bool) -> HubCall -> bool.

Ltac run_method :=
  intros [[[] wev wcar wst] winv wrep];
  unfold guarded_call, logged, subscribeToEvent, unsubscribeFromEvent,
    subscribeToControlLogs, unsubscribeFromControlLogs, subscribeToCarControlLogs,
    subscribeToInCarDriverEvent, unsubscribeFromInCarDriverEvent,
    bind, this, try_catch, invoke, set_client, throw, ret; simpl;
  try reflexivity;
  destruct (hub winv _); simpl; try reflexivity.

Lemma subscribeToEvent_effect (e : Z) :
  forall w, subscribeToEvent hub e w
  = guarded_call hub (SubscribeToEventV2 e) (set_subscribedEventId (Some e)) true w.
Proof. run_method. Qed.

Lemma unsubscribeFromEvent_effect (e : Z) :
  forall w, unsubscribeFromEvent hub e w
  = guarded_call hub (UnsubscribeFromEventV2 e)
      (fun cl => match subscribedEventId cl with
                 | Some e' => if e' =? e then set_subscribedEventId None cl else cl
                 | None => cl
                 end) false w.
Proof. run_method. destruct wev as [e'|]; [destruct (e' =? e)|]; reflexivity. Qed.

Lemma subscribeToControlLogs_effect (e : option Z) :
  forall w, subscribeToControlLogs hub e w
  = guarded_call hub (SubscribeToControlLogs e) (fun cl => cl) true w.
Proof. run_method. Qed.

Lemma unsubscribeFromControlLogs_effect (e : option Z) :
  forall w, unsubscribeFromControlLogs hub e w
  = guarded_call hub (UnsubscribeFromControlLogs e) (fun cl => cl) false w.
Proof. run_method. Qed.

Lemma subscribeToCarControlLogs_effect (e : Z) (car : string) :
  forall w, subscribeToCarControlLogs hub e car w
  = guarded_call hub (SubscribeToCarControlLogs e car) (fun cl => cl) true w.
Proof. run_method. Qed.

Lemma subscribeToInCarDriverEvent_effect (e : Z) (car : string) :
  forall w, subscribeToInCarDriverEvent hub e car w
  = guarded_call hub (SubscribeToInCarDriverEvent e car) (set_subscribedCar (Some car)) true w.
Proof. run_method. Qed.

Lemma unsubscribeFromInCarDriverEvent_effect (e : Z) (car : string) :
  forall w, unsubscribeFromInCarDriverEvent hub e car w
  = guarded_call hub (UnsubscribeFromInCarDriverEvent e car)
      (fun cl => match subscribedCar cl with
                 | Some car' =>
                   if String.eqb car' car then set_subscribedCar None cl else cl
                 | None => cl
                 end) false w.
Proof. run_method. destruct wcar as [car'|]; [destruct (String.eqb car' car)|]; reflexivity. Qed.

End Methods.


(** ** Two invariants of the client *)

Definition has_connection (w : World) : Prop := connection (client w) = true.

(** Without a connection object the client is at rest: it reports
    [disconnected] and records no subscription. *)
Definition at_rest (w : World) : Prop :=
  connection (client w) = false ->
  connectionState (client w) = disconnected /\
  subscribedEventId (client w) = None /\
  subscribedCar (client w) = None.

(** [call] was issued and accepted, and no accepted call that [closing]
    recognises was issued after it. *)
Definition accepted_since (log : list (HubCall * bool)) (call : HubCall)
           (closing : HubCall -> bool) : Prop :=
  exists before after,
    log = before ++ (call, true) :: after /\
    forall c, In (c, true) after -> closing c = false.

(** The calls that unsubscribe the event [e], and the in-car feed of [car]. *)
Definition closes_event (e : Z) (c : HubCall) : bool :=
  match c with
  | UnsubscribeFromEventV2 e' => e' =? e
  | _ => false
  end.

Definition closes_car (car : string) (c : HubCall) : bool :=
  match c with
  | UnsubscribeFromInCarDriverEvent _ car' => String.eqb car' car
  | _ => false
  end.

(** What the client records, it has subscribed: the event recorded by a
    call the hub accepted, with no accepted unsubscription of it since, and
    likewise an in-car feed of the car recorded.  The calls are those of the
    whole life of the client, on whatever connection they were issued. *)
Definition recorded_subscribed (w : World) : Prop :=
  (forall e, subscribedEventId (client w) = Some e ->
     accepted_since (invoked w) (SubscribeToEventV2 e) (closes_event e)) /\
  (forall car, subscribedCar (client w) = Some car ->
     exists e, accepted_since (invoked w) (SubscribeToInCarDriverEvent e car)
                              (closes_car car)).

Lemma accepted_since_now (log : list (HubCall * bool)) (call : HubCall)
      (closing : HubCall -> bool) :
  accepted_since (log ++ [(call, true)]) call closing.
Proof. exists log, []. split; [reflexivity | intros c []]. Qed.

Lemma accepted_since_later (log : list (HubCall * bool)) (call c : HubCall) (ok : bool)
      (closing : HubCall -> bool) :
  accepted_since log call closing -> (ok = true -> closing c = false) ->
  accepted_since (log ++ [(c, ok)]) call closing.
Proof.
  intros (before & after & -> & Hafter) Hc.
  exists before, (after ++ [(c, ok)]). split; [now rewrite <- app_assoc|].
  intros c' Hin. apply in_app_or in Hin as [Hin | [[= -> ->] | []]];
    [now apply Hafter | now apply Hc].
Qed.

(** The fields of a client at rest. *)
Definition client_at_rest : Client :=
  {| connection := false; subscribedEventId := None; subscribedCar := None;
     connectionState := disconnected |}.

(** The parts of [disconnect]: the unsubscriptions, what it tries, and what
    it does in any case afterwards. *)
Definition disconnect_unsubscribes (hub : list (HubCall * bool) -> HubCall -> bool)
  : M unit :=
  (cl <- this ;;
   match subscribedEventId cl with
   | Some eventId =>
     if truthy_id (Some eventId) then
       unsubscribeFromEvent hub eventId ;;;
       cl <- this ;;
       unsubscribeFromControlLogs hub (subscribedEventId cl)
     else ret tt
   | None => ret tt
   end) ;;;
  cl <- this ;;
  match subscribedEventId cl, subscribedCar cl with
  | Some eventId, Some car =>
    if truthy_id (Some eventId) && truthy_car (Some car)
    then unsubscribeFromInCarDriverEvent hub eventId car
    else ret tt
  | _, _ => ret tt
  end.

Definition disconnect_body (hub : list (HubCall * bool) -> HubCall -> bool) (stop : Stop)
  : M unit :=
  try_catch (disconnect_unsubscribes hub ;;; stop_connection stop) (fun _ => ret tt).

Definition disconnect_cleanup : M unit :=
  set_client (set_connection false) ;;;
  set_client (set_subscribedEventId None) ;;;
  set_client (set_subscribedCar None) ;;;
  setConnectionState disconnected.

Lemma bind_assoc {A B C : Type} (m : M A) (k : A -> M B) (h : B -> M C) (w : World) :
  bind (bind m k) h w = bind m (fun a => bind (k a) h) w.
Proof. unfold bind. now destruct (m w) as [[a|e] w']. Qed.

Lemma disconnect_parts (hub : list (HubCall * bool) -> HubCall -> bool) (stop : Stop)
      (w : World) :
  disconnect hub stop w
  = if connection (client w)
    then try_finally (disconnect_body hub stop) disconnect_cleanup w
    else (Returned tt, w).
Proof.
  unfold disconnect. unfold bind at 1. unfold this at 1. cbv beta iota.
  destruct (connection (client w)); cbn [negb]; [|reflexivity].
  unfold try_finally, disconnect_body, try_catch, disconnect_unsubscribes.
  match goal with
  | |- _ = ?rhs =>
    match rhs with
    | context [bind (bind ?m ?k) ?h w] => rewrite (bind_assoc m k h w)
    end
  end.
  reflexivity.
Qed.

Section Invariants.
Variable hub : list (HubCall * bool) -> HubCall -> bool.

Lemma guarded_call_preserves (P : World -> Prop) (call : HubCall) (f : Client -> Client)
      (rethrows : bool) :
  (forall w, P w -> connection (client w) = true -> P (logged call true f w)) ->
  (forall w, P w -> connection (client w) = true ->
             P (logged call false (fun cl => cl) w)) ->
  forall w, P w -> P (snd (guarded_call hub call f rethrows w)).
Proof.
  intros Hok Hko w Hw. unfold guarded_call.
  destruct (connection (client w)) eqn:Hconn; [|exact Hw].
  destruct (hub (invoked w) call); simpl; auto.
Qed.

(** The methods neither create nor drop the connection object, and do
    nothing without one. *)
Lemma guarded_call_connection (call : HubCall) (f : Client -> Client) (rethrows : bool)
      (w : World) :
  (forall cl, connection (f cl) = connection cl) ->
  connection (client (snd (guarded_call hub call f rethrows w))) = connection (client w)
  /\ (connection (client w) = false -> snd (guarded_call hub call f rethrows w) = w).
Proof.
  intros Hf. unfold guarded_call.
  destruct (connection (client w)) eqn:Hconn; [|now split].
  split; [|discriminate].
  destruct (hub (invoked w) call); simpl; rewrite ?Hf; exact Hconn.
Qed.

Lemma clears_event_connection (e : Z) (cl : Client) :
  connection match subscribedEventId cl with
             | Some e' => if e' =? e then set_subscribedEventId None cl else cl
             | None => cl
             end = connection cl.
Proof. destruct (subscribedEventId cl) as [e'|]; [destruct (e' =? e)|]; reflexivity. Qed.

Lemma clears_car_connection (car : string) (cl : Client) :
  connection match subscribedCar cl with
             | Some car' => if String.eqb car' car then set_subscribedCar None cl else cl
             | None => cl
             end = connection cl.
Proof.
  destruct (subscribedCar cl) as [car'|]; [destruct (String.eqb car' car)|]; reflexivity.
Qed.

(** The public subscription methods, as actions. *)
Definition is_method (a : Action) : bool :=
  match a with
  | SubscribeEvent _ | UnsubscribeEvent _ | SubscribeControlLogs _
  | UnsubscribeControlLogs _ | SubscribeCarControlLogs _ _
  | SubscribeInCar _ _ | UnsubscribeInCar _ _ => true
  | _ => false
  end.

Ltac method_effects :=
  rewrite ?subscribeToEvent_effect, ?unsubscribeFromEvent_effect,
    ?subscribeToControlLogs_effect, ?unsubscribeFromControlLogs_effect,
    ?subscribeToCarControlLogs_effect, ?subscribeToInCarDriverEvent_effect,
    ?unsubscribeFromInCarDriverEvent_effect.

Lemma method_connection (a : Action) (w : World) :
  is_method a = true ->
  connection (client (perform hub a w)) = connection (client w)
  /\ (connection (client w) = false -> perform hub a w = w).
Proof.
  destruct a; try discriminate; intros _; simpl; method_effects;
    apply guarded_call_connection; intros cl;
    auto using clears_event_connection, clears_car_connection.
Qed.

Lemma method_subscribed (a : Action) (w : World) :
  is_method a = true -> recorded_subscribed w -> recorded_subscribed (perform hub a w).
Proof.
  destruct a; try discriminate; intros _; simpl; method_effects;
    revert w; apply guarded_call_preserves;
    intros w [Hev Hcar] _; unfold recorded_subscribed, logged; cbn [client invoked].
  - (* subscribeToEvent, accepted *)
    split.
    + intros e. simpl. intros [= ->]. apply accepted_since_now.
    + intros car Hc. destruct (Hcar car Hc) as [e He]. exists e.
      now apply accepted_since_later.
  - split.
    + intros e He. apply accepted_since_later; [now apply Hev | discriminate].
    + intros car Hc. destruct (Hcar car Hc) as [e He]. exists e.
      apply accepted_since_later; [assumption | discriminate].
  - (* unsubscribeFromEvent, accepted *)
    split.
    + intros e. destruct (subscribedEventId (client w)) as [e'|] eqn:E;
        [|rewrite E; discriminate].
      destruct (Z.eqb_spec e' eventId) as [->|Hne]; simpl; [discriminate|].
      rewrite E. intros [= ->]. apply accepted_since_later; [now apply Hev|].
      intros _. simpl. apply Z.eqb_neq. congruence.
    + intros car Hc.
      assert (Hc' : subscribedCar (client w) = Some car).
      { destruct (subscribedEventId (client w)) as [e'|]; [destruct (e' =? eventId)|];
          exact Hc. }
      destruct (Hcar car Hc') as [e He]. exists e. now apply accepted_since_later.
  - split.
    + intros e He. apply accepted_since_later; [now apply Hev | discriminate].
    + intros car Hc. destruct (Hcar car Hc) as [e He]. exists e.
      apply accepted_since_later; [assumption | discriminate].
  - (* subscribeToControlLogs *)
    split.
    + intros e He. now apply accepted_since_later; [apply Hev|].
    + intros car Hc. destruct (Hcar car Hc) as [e He]. exists e.
      now apply accepted_since_later.
  - split.
    + intros e He. apply accepted_since_later; [now apply Hev | discriminate].
    + intros car Hc. destruct (Hcar car Hc) as [e He]. exists e.
      apply accepted_since_later; [assumption | discriminate].
  - (* unsubscribeFromControlLogs *)
    split.
    + intros e He. now apply accepted_since_later; [apply Hev|].
    + intros car Hc. destruct (Hcar car Hc) as [e He]. exists e.
      now apply accepted_since_later.
  - split.
    + intros e He. apply accepted_since_later; [now apply Hev | discriminate].
    + intros car Hc. destruct (Hcar car Hc) as [e He]. exists e.
      apply accepted_since_later; [assumption | discriminate].
  - (* subscribeToCarControlLogs *)
    split.
    + intros e He. now apply accepted_since_later; [apply Hev|].
    + intros car Hc. destruct (Hcar car Hc) as [e He]. exists e.
      now apply accepted_since_later.
  - split.
    + intros e He. apply accepted_since_later; [now apply Hev | discriminate].
    + intros car Hc. destruct (Hcar car Hc) as [e He]. exists e.
      apply accepted_since_later; [assumption | discriminate].
  - (* subscribeToInCarDriverEvent, accepted *)
    split.
    + intros e He. now apply accepted_since_later; [apply Hev|].
    + intros car. simpl. intros [= ->]. exists eventId. apply accepted_since_now.
  - split.
    + intros e He. apply accepted_since_later; [now apply Hev | discriminate].
    + intros car Hc. destruct (Hcar car Hc) as [e He]. exists e.
      apply accepted_since_later; [assumption | discriminate].
  - (* unsubscribeFromInCarDriverEvent, accepted *)
    split.
    + intros e He.
      assert (He' : subscribedEventId (client w) = Some e).
      { destruct (subscribedCar (client w)) as [car'|];
          [destruct (String.eqb car' carNumber)|]; exact He. }
      now apply accepted_since_later; [apply Hev|].
    + intros car. destruct (subscribedCar (client w)) as [car'|] eqn:E;
        [|rewrite E; discriminate].
      destruct (String.eqb_spec car' carNumber) as [->|Hne]; simpl; [discriminate|].
      rewrite E. intros [= ->]. destruct (Hcar car eq_refl) as [e He]. exists e.
      apply accepted_since_later; [exact He|].
      intros _. simpl. apply String.eqb_neq. congruence.
  - split.
    + intros e He. apply accepted_since_later; [now apply Hev | discriminate].
    + intros car Hc. destruct (Hcar car Hc) as [e He]. exists e.
      apply accepted_since_later; [assumption | discriminate].
Qed.

(** A property that every subscription method keeps is kept by
    [resubscribe] and by the unsubscriptions of [disconnect], which are made
    of these methods. *)
Section Composite.
Variable P : World -> Prop.
Hypothesis method_keeps : forall a w, is_method a = true -> P w -> P (perform hub a w).

Ltac step_method a := intros w Hw; exact (method_keeps a w eq_refl Hw).

Ltac preserve :=
  repeat first
    [ match goal with
      | |- preserves _ (subscribeToEvent hub ?e) => step_method (SubscribeEvent e)
      | |- preserves _ (unsubscribeFromEvent hub ?e) => step_method (UnsubscribeEvent e)
      | |- preserves _ (subscribeToControlLogs hub ?e) =>
        step_method (SubscribeControlLogs e)
      | |- preserves _ (unsubscribeFromControlLogs hub ?e) =>
        step_method (UnsubscribeControlLogs e)
      | |- preserves _ (subscribeToInCarDriverEvent hub ?e ?c) =>
        step_method (SubscribeInCar e c)
      | |- preserves _ (unsubscribeFromInCarDriverEvent hub ?e ?c) =>
        step_method (UnsubscribeInCar e c)
      | |- preserves _ (match ?x with _ => _ end) => destruct x
      | |- preserves _ (ret _) => apply preserves_ret
      | |- preserves _ (try_catch _ _) => apply preserves_try_catch; [|intros ?]
      | |- preserves _ (bind this _) => apply preserves_this; intros ?
      | |- preserves _ (bind _ _) => apply preserves_bind; [|intros ?]
      end ].

Lemma resubscribe_preserves : preserves P (resubscribe hub).
Proof. unfold resubscribe. preserve. Qed.

Lemma disconnect_unsubscribes_preserves : preserves P (disconnect_unsubscribes hub).
Proof. unfold disconnect_unsubscribes. preserve. Qed.

End Composite.

Lemma method_reported (a : Action) (w : World) :
  is_method a = true -> reported (perform hub a w) = reported w.
Proof.
  destruct a; try discriminate; intros _; simpl; method_effects;
    unfold guarded_call;
    destruct (connection (client w)); try reflexivity;
    destruct (hub (invoked w) _); reflexivity.
Qed.

(** A method that swallows the rejection of its call returns. *)
Lemma guarded_call_returns (call : HubCall) (f : Client -> Client) (w : World) :
  fst (guarded_call hub call f false w) = Returned tt.
Proof.
  unfold guarded_call. destruct (connection (client w)); [|reflexivity].
  now destruct (hub (invoked w) call).
Qed.

(** [m] returns, whatever the world. *)
Definition returns (m : M unit) : Prop := forall w, fst (m w) = Returned tt.

Lemma returns_bind (m k : M unit) : returns m -> returns k -> returns (m ;;; k).
Proof.
  intros Hm Hk w. unfold bind. specialize (Hm w).
  destruct (m w) as [[[]|e] w']; simpl in Hm; [apply Hk | discriminate].
Qed.

Lemma returns_this (k : Client -> M unit) : (forall cl, returns (k cl)) -> returns (bind this k).
Proof. intros Hk w. unfold bind, this. apply Hk. Qed.

Lemma returns_ret : returns (ret tt).
Proof. intros w. reflexivity. Qed.

Lemma disconnect_unsubscribes_returns : returns (disconnect_unsubscribes hub).
Proof.
  unfold disconnect_unsubscribes.
  apply returns_bind; apply returns_this; intros cl.
  - destruct (subscribedEventId cl) as [e|]; [|apply returns_ret].
    destruct (truthy_id (Some e)); [|apply returns_ret].
    apply returns_bind.
    + intros w. rewrite unsubscribeFromEvent_effect. apply guarded_call_returns.
    + apply returns_this. intros cl' w.
      rewrite unsubscribeFromControlLogs_effect. apply guarded_call_returns.
  - destruct (subscribedEventId cl) as [e|], (subscribedCar cl) as [car|];
      try apply returns_ret.
    destruct (truthy_id (Some e) && truthy_car (Some car)); [|apply returns_ret].
    intros w. rewrite unsubscribeFromInCarDriverEvent_effect. apply guarded_call_returns.
Qed.

Lemma disconnect_body_returns (stop : Stop) (w : World) :
  fst (disconnect_body hub stop w) = Returned tt.
Proof.
  unfold disconnect_body, try_catch.
  match goal with |- context [let (_, _) := ?m in _] => destruct m as [[[]|err] w'] end;
    reflexivity.
Qed.

(** What the body of [disconnect] reports: what the handler of [onclose]
    reports when [stop] runs it, and nothing else. *)
Lemma disconnect_body_reported (stop : Stop) (w : World) :
  reported (snd (disconnect_body hub stop w))
  = reported w ++ (if runs_onclose stop then [disconnected] else []).
Proof.
  pose proof (disconnect_unsubscribes_returns w) as Hret.
  pose proof (disconnect_unsubscribes_preserves (fun w' => reported w' = reported w)
                (fun a w' Ha Hw' => eq_trans (method_reported a w' Ha) Hw') w eq_refl)
    as Hrep.
  unfold disconnect_body, try_catch, bind at 1.
  destruct (disconnect_unsubscribes hub w) as [r w1]. simpl in Hret, Hrep. subst r.
  destruct stop as [[] []]; cbn; rewrite Hrep; try reflexivity; now rewrite app_nil_r.
Qed.

(** The client [disconnect] leaves. *)
Lemma disconnect_client (stop : Stop) (w : World) :
  (connection (client w) = true ->
   client (snd (disconnect hub stop w)) = client_at_rest) /\
  (connection (client w) = false -> snd (disconnect hub stop w) = w).
Proof.
  rewrite disconnect_parts.
  destruct (connection (client w)); [|now split].
  split; [intros _|discriminate].
  unfold try_finally. now destruct (disconnect_body hub stop w) as [r w'].
Qed.

(** X17. [disconnect] never throws, whatever the hub answers and whatever
    [connection.stop()] does; from a client with a connection it ends with
    the client at rest and with [disconnected] as the last state reported:
    it reports it twice when [stop] runs the handler of [onclose], first from
    the handler and then from its own [finally] block, and once otherwise;
    without a connection it does nothing. *)
Theorem disconnect_ends_at_rest (stop : Stop) (w : World) :
  fst (disconnect hub stop w) = Returned tt /\
  (connection (client w) = true ->
     client (snd (disconnect hub stop w)) = client_at_rest /\
     reported (snd (disconnect hub stop w))
     = reported w ++ (if runs_onclose stop
                      then [disconnected; disconnected]
                      else [disconnected])) /\
  (connection (client w) = false -> snd (disconnect hub stop w) = w).
Proof.
  rewrite disconnect_parts.
  destruct (connection (client w)) eqn:Hconn; [|now repeat split].
  pose proof (disconnect_body_returns stop w) as Hret.
  pose proof (disconnect_body_reported stop w) as Hrep.
  unfold try_finally. destruct (disconnect_body hub stop w) as [r w'].
  simpl in Hret, Hrep. subst r. cbn. rewrite Hrep, <- app_assoc.
  repeat split; try discriminate. now destruct (runs_onclose stop).
Qed.

Lemma skipn_new {A : Type} (old new : list A) : skipn (List.length old) (old ++ new) = new.
Proof. now rewrite skipn_app, Nat.sub_diag, skipn_all. Qed.

(** X18. The calls [disconnect] issues for a client that records an event
    and a car.  When the hub accepts the event unsubscription, the control
    log is unsubscribed for no event ([null]) and the in-car feed is not
    unsubscribed at all; when the hub rejects it, the control log of the
    event and the in-car feed are unsubscribed. *)
Theorem disconnect_calls (stop : Stop) (w : World) (e : Z) (car : string) :
  connection (client w) = true ->
  subscribedEventId (client w) = Some e -> e <> 0 ->
  subscribedCar (client w) = Some car -> car <> EmptyString ->
  map fst (skipn (List.length (invoked w)) (invoked (snd (disconnect hub stop w))))
  = if hub (invoked w) (UnsubscribeFromEventV2 e)
    then [UnsubscribeFromEventV2 e; UnsubscribeFromControlLogs None]
    else [UnsubscribeFromEventV2 e; UnsubscribeFromControlLogs (Some e);
          UnsubscribeFromInCarDriverEvent e car].
Proof.
  destruct w as [[conn ev c st] inv rep]. simpl. intros -> -> He -> Hcar.
  destruct car as [|ch car]; [congruence|].
  unfold disconnect, unsubscribeFromEvent, unsubscribeFromControlLogs,
    unsubscribeFromInCarDriverEvent, stop_connection, onclose, bind, this, try_finally,
    try_catch, invoke, set_client, ret, throw, setConnectionState.
  simpl.
  destruct (Z.eqb_spec e 0) as [|_]; [contradiction|]. simpl.
  destruct (hub inv (UnsubscribeFromEventV2 e)); simpl.
  - rewrite Z.eqb_refl. simpl.
    destruct (hub _ (UnsubscribeFromControlLogs None)); simpl;
      destruct stop as [[] []]; simpl;
      rewrite <- !app_assoc; simpl; now rewrite skipn_new.
  - destruct (hub _ (UnsubscribeFromControlLogs (Some e))); simpl;
      (destruct (Z.eqb_spec e 0) as [|_]; [contradiction|]); simpl;
      destruct (hub _ (UnsubscribeFromInCarDriverEvent e (String ch car))); simpl;
      rewrite ?String.eqb_refl, ?Ascii.eqb_refl; simpl;
      destruct stop as [[] []]; simpl;
      rewrite <- !app_assoc; simpl; now rewrite skipn_new.
Qed.

Lemma setConnectionState_preserves (P : World -> Prop) (state : ConnectionState) :
  (forall cl inv rep rep' st,
     P {| client := cl; invoked := inv; reported := rep |} ->
     P {| client := set_state st cl; invoked := inv; reported := rep' |}) ->
  preserves P (setConnectionState state).
Proof. intros HP [cl inv rep] Hw. apply HP with (rep := rep), Hw. Qed.

Lemma onreconnected_has_connection (w : World) :
  has_connection w -> has_connection (snd (onreconnected hub w)).
Proof.
  revert w. unfold onreconnected. apply preserves_bind.
  - now intros [cl inv rep].
  - intros _. apply resubscribe_preserves.
    intros a w Ha Hw. unfold has_connection.
    now rewrite (proj1 (method_connection a w Ha)).
Qed.

Lemma perform_at_rest (a : Action) (w : World) :
  permitted a w -> at_rest w -> at_rest (perform hub a w).
Proof.
  intros Hperm Hw.
  destruct (is_method a) eqn:Hmethod.
  { destruct (method_connection a w Hmethod) as [Hconn Hsame].
    destruct (connection (client w)) eqn:E.
    - intros H. congruence.
    - now rewrite Hsame. }
  destruct a; try discriminate Hmethod; simpl in *.
  - (* connect *)
    unfold connect. destruct w as [[[] ev car st] inv rep]; [exact Hw|].
    destruct (Hw eq_refl) as (_ & Hev & Hcar). simpl in Hev, Hcar. subst.
    destruct start_resolves; simpl; intros H; [discriminate | now repeat split].
  - (* disconnect *)
    destruct (disconnect_client stop w) as (Hon & Hoff).
    destruct (connection (client w)) eqn:E.
    + unfold at_rest. rewrite (Hon eq_refl). now repeat split.
    + now rewrite Hoff.
  - destruct w as [cl inv rep]. simpl in *. intros H. simpl in H. congruence.
  - intros H. pose proof (onreconnected_has_connection w Hperm) as H'.
    unfold has_connection in H'. congruence.
  - destruct w as [cl inv rep]. simpl in *. intros H. simpl in H. congruence.
Qed.

(** X19. In every state the client can reach, a client without a connection
    object is at rest: it reports [disconnected] and records no event and
    no car.  Hence, whenever [isConnected()] holds, the subscription methods
    do not fail for want of a connection. *)
Theorem no_connection_at_rest (w : World) :
  reachable hub w ->
  at_rest w /\
  (isConnected w = true ->
   connection (client w) = true /\
   forall e, fst (subscribeToEvent hub e w) <> Thrown NotConnected).
Proof.
  intros Hreach.
  assert (Hrest : at_rest w).
  { induction Hreach as [|w a _ IH Hperm].
    - intros _. now repeat split.
    - now apply perform_at_rest. }
  split; [exact Hrest|].
  intros Hconn.
  assert (Hobj : connection (client w) = true).
  { destruct (connection (client w)) eqn:E; [reflexivity|].
    destruct (Hrest E) as (Hst & _). unfold isConnected in Hconn.
    now rewrite Hst in Hconn. }
  split; [exact Hobj|].
  intros e. rewrite subscribeToEvent_effect. unfold guarded_call. rewrite Hobj.
  destruct (hub (invoked w) _); discriminate.
Qed.

Lemma state_change_subscribed (cl : Client) (inv : list (HubCall * bool))
      (rep rep' : list ConnectionState) (st : ConnectionState) :
  recorded_subscribed {| client := cl; invoked := inv; reported := rep |} ->
  recorded_subscribed {| client := set_state st cl; invoked := inv; reported := rep' |}.
Proof. intros H. exact H. Qed.

Lemma perform_subscribed (a : Action) (w : World) :
  recorded_subscribed w -> recorded_subscribed (perform hub a w).
Proof.
  intros Hw.
  destruct (is_method a) eqn:Hmethod; [now apply method_subscribed|].
  destruct a; try discriminate Hmethod; simpl.
  - (* connect *)
    unfold connect. destruct w as [[[] ev car st] inv rep]; [exact Hw|].
    destruct start_resolves; exact Hw.
  - (* disconnect *)
    destruct (disconnect_client stop w) as (Hon & Hoff).
    destruct (connection (client w)) eqn:E.
    + unfold recorded_subscribed. rewrite (Hon eq_refl). split; discriminate.
    + now rewrite Hoff.
  - revert w Hw. apply setConnectionState_preserves, state_change_subscribed.
  - revert w Hw. unfold onreconnected. apply preserves_bind.
    + apply setConnectionState_preserves, state_change_subscribed.
    + intros _. apply resubscribe_preserves. intros a w Ha. now apply method_subscribed.
  - revert w Hw. apply setConnectionState_preserves, state_change_subscribed.
Qed.

(** X20. In every state the client can reach, whatever the hub answered,
    what the client records it has subscribed: the hub accepted a
    subscription of the event recorded and has accepted no unsubscription of
    that event since, and likewise for an in-car feed of the car recorded.
    The calls are those of the whole life of the client: the record tells
    nothing of the connection in use. *)
Theorem recorded_subscriptions_sound (w : World) :
  reachable hub w -> recorded_subscribed w.
Proof.
  intros Hreach. induction Hreach as [|w a _ IH _].
  - split; discriminate.
  - now apply perform_subscribed.
Qed.

(** The calls of [calls] issued in order after those of [log], each with the
    answer of the hub, up to and including the first one the hub rejects. *)
Fixpoint answered (log : list (HubCall * bool)) (calls : list HubCall)
  : list (HubCall * bool) :=
  match calls with
  | [] => []
  | call :: rest =>
    let ok := hub log call in
    (call, ok) :: (if ok then answered (log ++ [(call, ok)]) rest else [])
  end.

(** The first call of [issued] that was rejected. *)
Definition first_rejected (issued : list (HubCall * bool)) : option HubCall :=
  option_map fst (find (fun entry => negb (snd entry)) issued).

(** X25. A reconnection, whatever the hub answers.  The calls the client
    issues are exactly the re-subscriptions its records determine, in order,
    up to and including the first one the hub rejects, and all of them when
    the hub rejects none; the handler throws the rejection of that call, and
    returns normally when there is none; the client records the same event
    and car afterwards, and has reported [reconnecting], then [connected]. *)
Theorem reconnect_stops_at_rejection (w : World) :
  connection (client w) = true ->
  let result := reconnect_cycle hub w in
  let issued := answered (invoked w) (resubscriptions (client w)) in
  invoked (snd result) = invoked w ++ issued /\
  fst result = match first_rejected issued with
               | Some call => Thrown (InvokeFailed call)
               | None => Returned tt
               end /\
  subscribedEventId (client (snd result)) = subscribedEventId (client w) /\
  subscribedCar (client (snd result)) = subscribedCar (client w) /\
  reported (snd result) = reported w ++ [reconnecting; connected].
Proof.
  destruct w as [[conn ev car st] inv rep]. simpl. intros ->.
  unfold resubscriptions, first_rejected. cbn [subscribedEventId subscribedCar].
  unfold reconnect_cycle, onreconnecting, onreconnected, setConnectionState, resubscribe,
    subscribeToEvent, subscribeToControlLogs, subscribeToInCarDriverEvent,
    bind, this, try_catch, invoke, set_client, ret, throw.
  simpl.
  destruct ev as [e|]; simpl; cycle 1.
  { destruct car as [[|ch car]|]; simpl; rewrite ?app_nil_r, <- ?app_assoc;
      repeat split. }
  destruct (Z.eqb_spec e 0) as [->|Hne]; simpl.
  { destruct car as [[|ch car]|]; simpl; rewrite ?app_nil_r, <- ?app_assoc;
      repeat split. }
  destruct (hub inv (SubscribeToEventV2 e)); simpl; cycle 1.
  { rewrite <- ?app_assoc. repeat split. }
  destruct (hub _ (SubscribeToControlLogs (Some e))); simpl; cycle 1.
  { rewrite <- ?app_assoc. repeat split. }
  destruct (Z.eqb_spec e 0) as [|_]; [contradiction|]. simpl.
  destruct car as [[|ch car]|]; simpl;
    try (rewrite <- ?app_assoc; now repeat split).
  destruct (hub _ (SubscribeToInCarDriverEvent e (String ch car))); simpl;
    rewrite <- ?app_assoc; repeat split.
Qed.

End Invariants.

(** What [connection.stop()] does on an open connection. *)
Definition closing_stop : Stop := {| runs_onclose := true; stop_resolves := true |}.

(** A client that connected and subscribed to event 7 and to car 42. *)
Definition in_car_session : World :=
  perform willing_hub (SubscribeInCar 7 "42")
    (perform willing_hub (SubscribeEvent 7)
       (perform willing_hub (Connect true) initial)).

Lemma in_car_session_reachable : reachable willing_hub in_car_session.
Proof. repeat (apply reachable_step; [|exact I]). apply reachable_initial. Qed.

(** Disconnecting that client reports [disconnected] twice. *)
Example disconnect_reports_twice :
  reported (snd (disconnect willing_hub closing_stop in_car_session))
  = [connecting; connected; disconnected; disconnected].
Proof. reflexivity. Qed.

Lemma disconnect_calls_witness :
  (connection (client in_car_session) = true /\
   subscribedEventId (client in_car_session) = Some 7 /\
   subscribedCar (client in_car_session) = Some "42"%string) /\
  map fst (skipn (List.length (invoked in_car_session))
                 (invoked (snd (disconnect willing_hub closing_stop in_car_session))))
  = [UnsubscribeFromEventV2 7; UnsubscribeFromControlLogs None].
Proof.
  split; [repeat split|].
  apply (disconnect_calls willing_hub closing_stop in_car_session 7 "42");
    try reflexivity; discriminate.
Defined.

Lemma no_connection_at_rest_witness :
  reachable willing_hub in_car_session /\
  at_rest in_car_session /\
  (isConnected in_car_session = true ->
   connection (client in_car_session) = true /\
   forall e, fst (subscribeToEvent willing_hub e in_car_session) <> Thrown NotConnected).
Proof.
  split; [exact in_car_session_reachable|].
  apply (no_connection_at_rest willing_hub), in_car_session_reachable.
Defined.

Lemma recorded_subscriptions_sound_witness :
  reachable willing_hub in_car_session /\ recorded_subscribed in_car_session.
Proof.
  split; [exact in_car_session_reachable|].
  apply (recorded_subscriptions_sound willing_hub), in_car_session_reachable.
Defined.

(** A hub that accepts the first call it receives and rejects the others. *)
Definition first_call_only (log : list (HubCall * bool)) (call : HubCall) : bool :=
  match log with
  | [] => true
  | _ :: _ => false
  end.

(** A client that subscribed to event 7 and went through a reconnection
    whose re-subscription such a hub rejected. *)
Definition rejected_resubscription : World :=
  perform first_call_only Reconnected
    (perform first_call_only Reconnecting
       (perform first_call_only (SubscribeEvent 7)
          (perform first_call_only (Connect true) initial))).

(** The record outlives the subscription: the client reports [connected]
    and records event 7, which the hub rejected on the new connection. *)
Example record_outlives_connection :
  reachable first_call_only rejected_resubscription /\
  isConnected rejected_resubscription = true /\
  subscribedEventId (client rejected_resubscription) = Some 7 /\
  invoked rejected_resubscription
  = [(SubscribeToEventV2 7, true); (SubscribeToEventV2 7, false)].
Proof.
  split; [|repeat split].
  repeat (apply reachable_step; [|first [exact I | reflexivity]]). apply reachable_initial.
Qed.

(** A hub that rejects the control-log subscriptions. *)
Definition no_control_logs (log : list (HubCall * bool)) (call : HubCall) : bool :=
  match call with
  | SubscribeToControlLogs _ => false
  | _ => true
  end.

Lemma reconnect_stops_at_rejection_witness :
  let w := connected_client (Some 7) (Some "42"%string) in
  connection (client w) = true /\
  invoked (snd (reconnect_cycle no_control_logs w))
  = [(SubscribeToEventV2 7, true); (SubscribeToControlLogs (Some 7), false)] /\
  fst (reconnect_cycle no_control_logs w)
  = Thrown (InvokeFailed (SubscribeToControlLogs (Some 7))).
Proof.
  cbv zeta. split; [reflexivity|].
  pose proof (reconnect_stops_at_rejection no_control_logs
                (connected_client (Some 7) (Some "42"%string)) eq_refl) as H.
  cbv zeta in H. destruct H as (Hinvoked & Hresult & _).
  split; [exact Hinvoked | exact Hresult].
Defined.

End LifecycleFacts.

(* ===================================================================== *)
(** * The token manager: reconfiguration and the automatic refresh *)
(* ===================================================================== *)

Section TokenFacts.
Import Js Auth AutoRefresh.

(** X21. [configure] does not cancel a refresh in flight.  A call of
    [getToken] made after the credentials were replaced joins the refresh
    started with the previous credentials: no exchange is sent for the new
    ones, and the token the previous credentials obtain is returned and
    cached under the new configuration. *)
Theorem configure_keeps_refresh_in_flight
        (w : World) (cfg : AuthConfig) (now now' : Z) (tok : string) (expires_in : num) :
  refreshPromise (manager w) = Some Pending ->
  let w' := snd (getToken now (TokenResponse tok expires_in) now' (configure cfg w)) in
  fst (getToken now (TokenResponse tok expires_in) now' (configure cfg w)) = inl tok /\
  exchanges w' = exchanges w /\
  accessToken (manager w') = Some tok /\
  config (manager w') = Some cfg.
Proof.
  intros Hpending. destruct w as [[tk ex pr cf] exs ntf]. simpl in Hpending. subst pr.
  cbv zeta. unfold getToken, getToken_call, configure, with_manager. simpl.
  repeat split.
Qed.

Definition refreshing_world : World :=
  {| manager := {| accessToken := None; tokenExpiry := None;
                   refreshPromise := Some Pending;
                   config := Some {| clientId := "old-id"; clientSecret := "old-secret" |} |};
     exchanges := [{| clientId := "old-id"; clientSecret := "old-secret" |}];
     notified := [] |}.

Lemma configure_keeps_refresh_in_flight_witness :
  let cfg := {| clientId := "new-id"; clientSecret := "new-secret" |} in
  let w' := snd (getToken 1000 (TokenResponse "token" (Int 300)) 2000
                          (configure cfg refreshing_world)) in
  refreshPromise (manager refreshing_world) = Some Pending /\
  exchanges w' = [{| clientId := "old-id"; clientSecret := "old-secret" |}] /\
  accessToken (manager w') = Some "token"%string /\
  config (manager w') = Some cfg.
Proof.
  cbv zeta. split; [reflexivity|].
  exact (proj2 (configure_keeps_refresh_in_flight refreshing_world
                  {| clientId := "new-id"; clientSecret := "new-secret" |}
                  1000 2000 "token" (Int 300) eq_refl)).
Defined.

(** X22. A token that [getToken] answers from the cache is not about to
    expire: [isAuthenticated] holds at that instant and until the refresh
    margin has passed. *)
Theorem cached_token_stays_valid (now later : Z) (w : World) (tok : string) :
  fst (getToken_call now w) = Immediate tok ->
  now <= later <= now + TOKEN_REFRESH_MARGIN ->
  isAuthenticated later w = true.
Proof.
  intros Hcall Hlater. apply getToken_call_Immediate in Hcall.
  unfold cached_token, isAuthenticated, TOKEN_REFRESH_MARGIN in *.
  destruct (accessToken (manager w)) as [t|]; [|discriminate].
  destruct (tokenExpiry (manager w)) as [[e| | |]|]; simpl in *; try discriminate.
  - destruct (truthy_str t && negb (e =? 0)); [|discriminate].
    simpl in Hcall. destruct (Z.ltb_spec now (e + -30000)); [|discriminate].
    apply Z.ltb_lt. lia.
  - reflexivity.
  - now rewrite andb_false_r in Hcall.
  - now rewrite andb_false_r in Hcall.
Qed.

Definition world_with_token (expiry : Z) : World :=
  {| manager := {| accessToken := Some "token"%string; tokenExpiry := Some (Int expiry);
                   refreshPromise := None;
                   config := Some {| clientId := "id"; clientSecret := "secret" |} |};
     exchanges := []; notified := [] |}.

Lemma cached_token_stays_valid_witness :
  fst (getToken_call 1000 (world_with_token 40000)) = Immediate "token" /\
  isAuthenticated 31000 (world_with_token 40000) = true.
Proof.
  split; [reflexivity|].
  apply (cached_token_stays_valid 1000 31000 (world_with_token 40000) "token");
    [reflexivity | unfold TOKEN_REFRESH_MARGIN; lia].
Defined.

(** X23. The periodic tick of the automatic refresh, on a configured
    manager that holds a token and has no refresh in flight, sends an
    exchange exactly when the token has at most the refresh margin (30 s)
    left: in the last minute but outside the margin it asks [getToken], which
    answers from the cache. *)
Theorem tick_refreshes_within_margin
        (now now' e : Z) (answer : Exchange) (w : World) (cfg : AuthConfig) (tok : string) :
  config (manager w) = Some cfg -> isConfigured w = true ->
  refreshPromise (manager w) = None ->
  accessToken (manager w) = Some tok -> tok <> EmptyString ->
  tokenExpiry (manager w) = Some (Int e) -> e <> 0 ->
  exchanges (tick now answer now' w)
  = if e - now <=? TOKEN_REFRESH_MARGIN then exchanges w ++ [cfg] else exchanges w.
Proof.
  intros Hcfg Hconf Hpr Htok Hne Hexp He.
  unfold tick, getTimeUntilExpiry. rewrite Hexp, Hconf. simpl.
  destruct (Z.eqb_spec e 0) as [|_]; [contradiction|]. simpl.
  rewrite andb_true_r.
  unfold TOKEN_REFRESH_MARGIN.
  assert (Hcached : cached_token now (manager w)
                    = if e - now <=? 30000 then None else Some tok).
  { unfold cached_token, TOKEN_REFRESH_MARGIN. rewrite Htok, Hexp. simpl.
    destruct tok as [|ch tok]; [contradiction|]. simpl.
    destruct (Z.eqb_spec e 0) as [|_]; [contradiction|]. simpl.
    destruct (Z.ltb_spec now (e + -30000)), (Z.leb_spec (e - now) 30000);
      try reflexivity; lia. }
  destruct (Z.leb_spec (e - now) 30000) as [Hin|Hout].
  - assert (Hlt : (Z.max 0 (e + - now) <? 60000) = true) by (apply Z.ltb_lt; lia).
    rewrite Hlt.
    unfold getToken, getToken_call. rewrite Hcached, Hpr.
    unfold refreshToken_start. rewrite Hcfg. simpl.
    destruct answer; reflexivity.
  - destruct (Z.max 0 (e + - now) <? 60000); [|reflexivity].
    unfold getToken, getToken_call. now rewrite Hcached.
Qed.

Lemma tick_refreshes_within_margin_witness :
  isConfigured (world_with_token 40000) = true /\
  exchanges (tick 1000 FetchRejects 2000 (world_with_token 40000)) = [] /\
  exchanges (tick 15000 FetchRejects 16000 (world_with_token 40000))
  = [{| clientId := "id"; clientSecret := "secret" |}].
Proof.
  split; [reflexivity|]. split.
  - apply (tick_refreshes_within_margin 1000 2000 40000 FetchRejects
             (world_with_token 40000) {| clientId := "id"; clientSecret := "secret" |}
             "token"); try reflexivity; discriminate.
  - apply (tick_refreshes_within_margin 15000 16000 40000 FetchRejects
             (world_with_token 40000) {| clientId := "id"; clientSecret := "secret" |}
             "token"); try reflexivity; discriminate.
Defined.

(** The ticks of the automatic refresh, one after the other: each with its
    instant, the answer its exchange would get and the instant of the
    answer. *)
Definition ticks (schedule : list (Z * Exchange * Z)) (w : World) : World :=
  fold_left (fun w '(now, answer, now') => tick now answer now' w) schedule w.

(** X24. The automatic refresh never obtains a first token: after
    [clearToken] and after [configure], however many of its ticks run and
    whenever, no exchange is sent and the manager stays as it is, until
    some caller asks for a token. *)
Theorem auto_refresh_never_starts
        (schedule : list (Z * Exchange * Z)) (w : World) (cfg : AuthConfig) :
  ticks schedule (clearToken w) = clearToken w /\
  ticks schedule (configure cfg w) = configure cfg w.
Proof.
  assert (Hidle : forall w', tokenExpiry (manager w') = None -> ticks schedule w' = w').
  { intros w' Hexp. unfold ticks.
    induction schedule as [|[[now answer] now'] schedule IH]; [reflexivity|].
    simpl. unfold tick at 2, getTimeUntilExpiry. rewrite Hexp. exact IH. }
  split; now apply Hidle.
Qed.

End TokenFacts.

